(** * Ride-hailing dispatch backend: pricing, payment, matching, lifecycle

    A shallow embedding of the Python services and routers
    (app/services/pricing.py, payment.py, matching.py, app/routers/*.py,
    app/middleware/idempotency.py, app/redis_client.py) and the properties
    of the specification that are stated about them.

    Modelling conventions.
    - A Python [float] is modelled by the rational number it denotes and the
      float operations by exact rational arithmetic: binary rounding error and
      overflow are not part of the model.  Concrete evaluations below use
      inputs that are exactly representable in binary (30, 0.8125, 38.125 ...)
      and stay clear of rounding, so that the two agree on them.
    - [round(x, 2)] on a float rounds the value to the nearest multiple of
      0.01, an exact tie going to the even neighbour.
    - A [Decimal] is the rational it denotes.
    - Redis is one finite map per key family; the families have disjoint
      prefixes and hold one type of value each.  Expiry (TTL) is not modelled.
    - Every handler runs to completion before the next one starts. *)

From Stdlib Require Import ZArith QArith Qround Qabs Qminmax String List Lia Lqa Sorted.
From stdpp Require Import gmap strings list fin_maps.

Set Warnings "-register-all".

Local Open Scope string_scope.
Local Open Scope Z_scope.
Local Open Scope list_scope.

(** ** Numbers *)

(** Nearest integer, ties to even: the rounding of Python's [round]. *)
Definition round_half_even (x : Q) : Z :=
  let f := Qfloor x in
  match (x - inject_Z f ?= 1 # 2)%Q with
  | Lt => f
  | Gt => f + 1
  | Eq => if Z.even f then f else f + 1
  end.

(** Nearest integer, ties away from zero: [decimal.ROUND_HALF_UP]. *)
Definition round_half_up (x : Q) : Z :=
  match (x ?= 0)%Q with
  | Lt => - Qfloor (- x + (1 # 2))
  | _ => Qfloor (x + (1 # 2))
  end.

(** [round(v, 2)] and [round(v, 3)] on a float. *)
Definition py_round2 (v : Q) : Q := round_half_even (v * 100) # 100.
Definition py_round3 (v : Q) : Q := round_half_even (v * 1000) # 1000.

(** [Decimal(...).quantize(Decimal("0.01"), rounding=ROUND_HALF_UP)]. *)
Definition quantize_half_up (v : Q) : Q := round_half_up (v * 100) # 100.

(** [dict.get(key, default)]. *)
Definition dict_get {V} (d : gmap string V) (key : string) (dflt : V) : V :=
  default dflt (d !! key).

(** ** app/config.py *)

Record Settings := {
  matching_radius_km : Q;
  matching_timeout_seconds : Z;
  matching_max_retries : Z;
  max_surge_multiplier : Q;
}.

Definition default_settings : Settings := {|
  matching_radius_km := 5;
  matching_timeout_seconds := 8;
  matching_max_retries := 3;
  max_surge_multiplier := 5;
|}.

(** ** app/redis_client.py: the cache *)

Inductive json :=
| JNull
| JStr (s : string)
| JInt (n : Z)
| JFloat (x : Q)
| JObj (fields : list (string * json)).

Record Redis := {
  r_str : gmap string string;                 (* driver:{id}:tier, driver:{id}:lock *)
  r_int : gmap string Z;                      (* surge:demand:{tier} *)
  r_geo : gmap string (gmap string (Q * Q));  (* drivers:geo:{tier}: member -> (lng, lat) *)
  r_loc : gmap string (Q * Q);                (* driver:{id}:loc: (lat, lng) *)
  r_json : gmap string json;                  (* idempotency:{key}, ride:{id}:status *)
}.

Definition redis_empty : Redis :=
  {| r_str := ∅; r_int := ∅; r_geo := ∅; r_loc := ∅; r_json := ∅ |}.

Definition set_r_str (f : gmap string string -> gmap string string) (r : Redis) : Redis :=
  {| r_str := f (r_str r); r_int := r_int r; r_geo := r_geo r;
     r_loc := r_loc r; r_json := r_json r |}.
Definition set_r_int (f : gmap string Z -> gmap string Z) (r : Redis) : Redis :=
  {| r_str := r_str r; r_int := f (r_int r); r_geo := r_geo r;
     r_loc := r_loc r; r_json := r_json r |}.
Definition set_r_geo
    (f : gmap string (gmap string (Q * Q)) -> gmap string (gmap string (Q * Q)))
    (r : Redis) : Redis :=
  {| r_str := r_str r; r_int := r_int r; r_geo := f (r_geo r);
     r_loc := r_loc r; r_json := r_json r |}.
Definition set_r_loc (f : gmap string (Q * Q) -> gmap string (Q * Q)) (r : Redis) : Redis :=
  {| r_str := r_str r; r_int := r_int r; r_geo := r_geo r;
     r_loc := f (r_loc r); r_json := r_json r |}.
Definition set_r_json (f : gmap string json -> gmap string json) (r : Redis) : Redis :=
  {| r_str := r_str r; r_int := r_int r; r_geo := r_geo r;
     r_loc := r_loc r; r_json := f (r_json r) |}.

(** [DEL key]: the key leaves whichever family holds it. *)
Definition cache_delete (r : Redis) (key : string) : Redis :=
  {| r_str := delete key (r_str r); r_int := delete key (r_int r);
     r_geo := delete key (r_geo r); r_loc := delete key (r_loc r);
     r_json := delete key (r_json r) |}.

(** ** app/services/pricing.py *)

Definition BASE_FEE : gmap string Q :=
  <["standard" := 30%Q]> (<["premium" := 60%Q]> (<["xl" := 80%Q]> ∅)).
Definition RATE_PER_KM : gmap string Q :=
  <["standard" := 10%Q]> (<["premium" := 15%Q]> (<["xl" := 20%Q]> ∅)).

Definition demand_key (tier : string) : string := "surge:demand:" +:+ tier.
Definition geo_key (tier : string) : string := "drivers:geo:" +:+ tier.

(** [ZCARD key]. *)
Definition zcard (r : Redis) (key : string) : Z :=
  match r_geo r !! key with
  | Some z => Z.of_nat (size z)
  | None => 0
  end.

Definition compute_surge (settings : Settings) (redis : Redis)
    (lat lng : Q) (tier : string) : Q :=
  let demand_raw := r_int redis !! demand_key tier in
  let supply_raw := zcard redis (geo_key tier) in
  let demand := default 0 demand_raw in
  let supply := Z.max supply_raw 1 in
  let ratio := (inject_Z demand / inject_Z supply)%Q in
  let multiplier :=
    if Qlt_le_dec ratio (1 # 2) then 1%Q
    else if Qlt_le_dec ratio 1 then (3 # 2)%Q
    else if Qlt_le_dec ratio 2 then 2%Q
    else if Qlt_le_dec ratio 3 then 3%Q
    else Qmin ratio (max_surge_multiplier settings) in
  py_round2 multiplier.

(** [INCR] then [EXPIRE]. *)
Definition increment_demand (redis : Redis) (tier : string) : Redis :=
  set_r_int
    (fun m => <[demand_key tier := default 0 (m !! demand_key tier) + 1]> m) redis.

Definition decrement_demand (redis : Redis) (tier : string) : Redis :=
  let key := demand_key tier in
  match r_int redis !! key with
  | Some current =>
      if 0 <? current
      then set_r_int (fun m => <[key := current - 1]> m) redis
      else redis
  | None => redis
  end.

Definition to_dec (v : Q) : Q := quantize_half_up (py_round2 v).

Definition calculate_fare (tier : string) (distance_km surge_multiplier : Q)
    : Q * Q * Q :=
  let base := (dict_get BASE_FEE tier 30 + dict_get RATE_PER_KM tier 10 * distance_km)%Q in
  let surge_component := (base * (surge_multiplier - 1))%Q in
  let total := (base + surge_component)%Q in
  (to_dec base, to_dec surge_component, to_dec total).

Record FareRange := {
  fare_min : Q;
  fare_max : Q;
  fare_currency : string;
}.

Definition estimate_fare_range (tier : string) (distance_km surge_multiplier : Q)
    : FareRange :=
  let '(_, _, total) := calculate_fare tier distance_km surge_multiplier in
  let total_f := total in
  {| fare_min := py_round2 (total_f * (9 # 10));
     fare_max := py_round2 (total_f * (11 # 10));
     fare_currency := "INR" |}.


(** ** app/schemas/schemas.py *)

Inductive TierEnum := standard | premium | xl.

Definition tier_value (t : TierEnum) : string :=
  match t with
  | standard => "standard"
  | premium => "premium"
  | xl => "xl"
  end.

Inductive PaymentMethodEnum := card | wallet | cash.

Definition payment_method_value (m : PaymentMethodEnum) : string :=
  match m with
  | card => "card"
  | wallet => "wallet"
  | cash => "cash"
  end.

Record RideCreateRequest := {
  req_pickup_lat : Q;
  req_pickup_lng : Q;
  req_dest_lat : Q;
  req_dest_lng : Q;
  req_tier : TierEnum;
  req_payment_method : PaymentMethodEnum;
}.

Record LocationUpdateRequest := {
  loc_lat : Q;
  loc_lng : Q;
}.

Record TripEndRequest := {
  final_lat : Q;
  final_lng : Q;
}.

Record PaymentRequest := {
  preq_trip_id : string;
  preq_payment_method : PaymentMethodEnum;
  preq_amount : Q;
}.

Record DriverCreateRequest := {
  dreq_name : string;
  dreq_phone : string;
  dreq_tier : TierEnum;
}.

(** ** app/models: the four tables.  A table is a finite map from the primary
    key [id] to the other columns of the row.  Timestamps are seconds on some
    clock; the [updated_at] bookkeeping columns are left out. *)

Record Driver := {
  driver_name : string;
  driver_phone : string;
  driver_tier : string;
  driver_status : string;            (* offline | available | on_trip *)
  driver_lat : option Q;
  driver_lng : option Q;
  location_updated_at : option Z;
}.

Record Ride := {
  ride_rider_id : string;
  ride_driver_id : option string;
  pickup_lat : Q;
  pickup_lng : Q;
  dest_lat : Q;
  dest_lng : Q;
  ride_tier : string;
  ride_status : string;
  ride_payment_method : string;
  surge_multiplier : Q;
  ride_idempotency_key : option string;
  ride_created_at : Z;
}.

Record Trip := {
  trip_ride_id : string;
  trip_driver_id : string;
  trip_rider_id : string;
  started_at : option Z;
  ended_at : option Z;
  distance_km : option Q;
  base_fare : option Q;
  surge_fare : option Q;
  total_fare : option Q;
  trip_status : string;              (* ACTIVE | PAUSED | COMPLETED *)
}.

Record Payment := {
  payment_trip_id : string;
  payment_rider_id : string;
  amount : Q;
  currency : string;
  payment_status : string;           (* PENDING | SUCCESS | FAILED | REFUNDED *)
  psp_ref : option string;
  payment_idempotency_key : option string;
}.

Record DB := {
  drivers : gmap string Driver;
  rides : gmap string Ride;
  trips : gmap string Trip;
  payments : gmap string Payment;
}.

Definition db_empty : DB :=
  {| drivers := ∅; rides := ∅; trips := ∅; payments := ∅ |}.

Definition set_driver_status (s : string) (d : Driver) : Driver :=
  {| driver_name := driver_name d;
     driver_phone := driver_phone d; driver_tier := driver_tier d;
     driver_status := s; driver_lat := driver_lat d; driver_lng := driver_lng d;
     location_updated_at := location_updated_at d |}.

Definition set_driver_location (lat lng : Q) (now : Z) (d : Driver) : Driver :=
  {| driver_name := driver_name d;
     driver_phone := driver_phone d; driver_tier := driver_tier d;
     driver_status := driver_status d; driver_lat := Some lat; driver_lng := Some lng;
     location_updated_at := Some now |}.

Definition set_ride_status (s : string) (r : Ride) : Ride :=
  {| ride_rider_id := ride_rider_id r;
     ride_driver_id := ride_driver_id r;
     pickup_lat := pickup_lat r; pickup_lng := pickup_lng r;
     dest_lat := dest_lat r; dest_lng := dest_lng r;
     ride_tier := ride_tier r; ride_status := s;
     ride_payment_method := ride_payment_method r;
     surge_multiplier := surge_multiplier r;
     ride_idempotency_key := ride_idempotency_key r;
     ride_created_at := ride_created_at r |}.

Definition set_ride_driver (d : string) (r : Ride) : Ride :=
  {| ride_rider_id := ride_rider_id r;
     ride_driver_id := Some d;
     pickup_lat := pickup_lat r; pickup_lng := pickup_lng r;
     dest_lat := dest_lat r; dest_lng := dest_lng r;
     ride_tier := ride_tier r; ride_status := ride_status r;
     ride_payment_method := ride_payment_method r;
     surge_multiplier := surge_multiplier r;
     ride_idempotency_key := ride_idempotency_key r;
     ride_created_at := ride_created_at r |}.

Definition set_drivers (f : gmap string Driver -> gmap string Driver) (d : DB) : DB :=
  {| drivers := f (drivers d); rides := rides d; trips := trips d; payments := payments d |}.
Definition set_rides (f : gmap string Ride -> gmap string Ride) (d : DB) : DB :=
  {| drivers := drivers d; rides := f (rides d); trips := trips d; payments := payments d |}.
Definition set_trips (f : gmap string Trip -> gmap string Trip) (d : DB) : DB :=
  {| drivers := drivers d; rides := rides d; trips := f (trips d); payments := payments d |}.
Definition set_payments (f : gmap string Payment -> gmap string Payment) (d : DB) : DB :=
  {| drivers := drivers d; rides := rides d; trips := trips d; payments := f (payments d) |}.

(** Rows of a table that satisfy a predicate, and SQLAlchemy's
    [scalar_one_or_none] on them. *)
Definition select_where {A} (p : A -> bool) (table : gmap string A)
    : list (string * A) :=
  filter (fun row => p (snd row) = true) (map_to_list table).

Inductive Scalar (A : Type) :=
| NoRow
| OneRow (a : A)
| ManyRows.
Arguments NoRow {A}.
Arguments OneRow {A} a.
Arguments ManyRows {A}.

Definition scalar_one_or_none {A} (rows : list A) : Scalar A :=
  match rows with
  | [] => NoRow
  | [a] => OneRow a
  | _ => ManyRows
  end.

(** ** Outcomes of a request *)

Record Response := {
  resp_status_code : Z;
  resp_body : json;
  resp_headers : list (string * string);
}.

Inductive Exception :=
| HTTPException (status_code : Z) (detail : string)
| IntegrityError          (* a primary key or unique constraint is violated *)
| MultipleResultsFound    (* scalar_one_or_none on more than one row *)
| KeyError                (* a stored document lacks a field *)
| TypeError.              (* float(None) *)

Inductive Result (A : Type) :=
| Ok (a : A)
| Raise (e : Exception).
Arguments Ok {A} a.
Arguments Raise {A} e.

(** The client-facing kinds of section 6 of the specification. *)
Definition INVALID : Z := 400.
Definition NOT_FOUND : Z := 404.
Definition CONFLICT : Z := 409.
Definition INTERNAL : Z := 500.

(** app/main.py: the status a caller sees; anything that is not an
    [HTTPException] reaches the global handler. *)
Definition client_status {A} (status_of : A -> Z) (r : Result A) : Z :=
  match r with
  | Ok a => status_of a
  | Raise (HTTPException code _) => code
  | Raise _ => INTERNAL
  end.

(** ** app/services/payment.py *)

Inductive PspOutcome :=
| PspCharged (ref : string)
| PSPError (msg : string).

Record ChargeResult := {
  charge_psp_ref : option string;
  charge_status : string;
}.

(** What [charge] does besides returning: provider calls and sleeps, in order. *)
Inductive ChargeEvent :=
| CalledPsp (attempt : Z) (rider_id : string) (amt : Q) (method key : string)
| Slept (seconds : Z).

(** A provider: the answer to the n-th call of one [charge]. *)
Definition Provider := Z -> string -> Q -> string -> string -> PspOutcome.

(** The stub of the source; [hex attempt] stands for [uuid4().hex[:12].upper()]. *)
Definition _call_psp (hex : Z -> string) : Provider :=
  fun attempt rider_id amt payment_method idempotency_key =>
    if Qle_bool amt 0 then PSPError "Amount must be positive"
    else PspCharged ("PSP-" +:+ hex attempt).

Fixpoint charge_loop (psp : Provider) (rider_id : string) (amt : Q)
    (payment_method idempotency_key : string) (attempts : list Z)
    (log : list ChargeEvent) : ChargeResult * list ChargeEvent :=
  match attempts with
  | [] => ({| charge_psp_ref := None; charge_status := "FAILED" |}, log)
  | attempt :: rest =>
      let log := log ++ [CalledPsp attempt rider_id amt payment_method idempotency_key] in
      match psp attempt rider_id amt payment_method idempotency_key with
      | PspCharged ref =>
          ({| charge_psp_ref := Some ref; charge_status := "SUCCESS" |}, log)
      | PSPError e =>
          if attempt =? 3
          then ({| charge_psp_ref := None; charge_status := "FAILED" |}, log)
          else
            let wait := 2 ^ attempt in
            charge_loop psp rider_id amt payment_method idempotency_key rest
              (log ++ [Slept wait])
      end
  end.

(** [for attempt in range(1, 4)]. *)
Definition charge (psp : Provider) (rider_id : string) (amt : Q)
    (payment_method idempotency_key : string) : ChargeResult * list ChargeEvent :=
  charge_loop psp rider_id amt payment_method idempotency_key [1; 2; 3] [].

(** ** app/middleware/idempotency.py *)

Definition idempotency_cache_key (key : string) : string := "idempotency:" +:+ key.

Fixpoint assoc (k : string) (l : list (string * json)) : option json :=
  match l with
  | [] => None
  | (k', v) :: l' => if decide (k = k') then Some v else assoc k l'
  end.

(** [data[k]] on a parsed document. *)
Definition json_get (data : json) (k : string) : option json :=
  match data with
  | JObj fields => assoc k fields
  | _ => None
  end.

(** The document written by [store_idempotency_result]. *)
Definition stored_response (status_code : Z) (body : json) : json :=
  JObj [("status_code", JInt status_code); ("body", body)].

(** [header] is the request's Idempotency-Key header.  A stored document
    without the two fields makes the lookups raise. *)
Definition check_idempotency (header : option string) (redis : Redis)
    : Result (option Response) :=
  match header with
  | None => Ok None
  | Some key =>
      if decide (key = "") then Ok None
      else
        match r_json redis !! idempotency_cache_key key with
        | Some data =>
            match json_get data "body", json_get data "status_code" with
            | Some body, Some (JInt code) =>
                Ok (Some {| resp_status_code := code;
                            resp_body := body;
                            resp_headers := [("X-Idempotency-Replay", "true")] |})
            | _, _ => Raise KeyError
            end
        | None => Ok None
        end
  end.

Definition store_idempotency_result (key : string) (status_code : Z) (body : json)
    (redis : Redis) : Redis :=
  set_r_json (fun m => <[idempotency_cache_key key := stored_response status_code body]> m)
    redis.

(** ** The state of the deployment *)

(** Work handed to [asyncio.create_task]. *)
Inductive Task :=
| MatchingTask (ride : string) (lat lng : Q) (tier : string)
| FlushLocationTask (driver : string) (lat lng : Q).

Record World := {
  db : DB;
  redis : Redis;
  psp_log : list ChargeEvent;    (* provider calls and back-off sleeps so far *)
  tasks : list Task;             (* background tasks created so far *)
}.

Definition world_empty : World :=
  {| db := db_empty; redis := redis_empty; psp_log := []; tasks := [] |}.

Definition with_db (d : DB) (w : World) : World :=
  {| db := d; redis := redis w; psp_log := psp_log w; tasks := tasks w |}.
Definition with_redis (r : Redis) (w : World) : World :=
  {| db := db w; redis := r; psp_log := psp_log w; tasks := tasks w |}.
Definition with_psp_log (l : list ChargeEvent) (w : World) : World :=
  {| db := db w; redis := redis w; psp_log := l; tasks := tasks w |}.
Definition spawn (t : Task) (w : World) : World :=
  {| db := db w; redis := redis w; psp_log := psp_log w; tasks := tasks w ++ [t] |}.

Definition tier_key (driver : string) : string := "driver:" +:+ driver +:+ ":tier".
Definition lock_key (driver : string) : string := "driver:" +:+ driver +:+ ":lock".
Definition loc_key (driver : string) : string := "driver:" +:+ driver +:+ ":loc".
Definition ride_status_key (ride : string) : string := "ride:" +:+ ride +:+ ":status".

(** [GEOADD] on the tier's set, then [SETEX] of the position key. *)
Definition geo_add_driver (redis : Redis) (tier driver : string) (lat lng : Q) : Redis :=
  let key := geo_key tier in
  let redis :=
    set_r_geo (fun g => <[key := <[driver := (lng, lat)]> (default ∅ (g !! key))]> g) redis in
  set_r_loc (fun m => <[loc_key driver := (lat, lng)]> m) redis.

(** A driver is in the tier's Geo Index. *)
Definition geo_member (redis : Redis) (tier driver : string) : Prop :=
  exists z, r_geo redis !! geo_key tier = Some z /\ is_Some (z !! driver).

Fixpoint insert_by_distance (x : string * Q) (l : list (string * Q))
    : list (string * Q) :=
  match l with
  | [] => [x]
  | y :: l' => if Qle_bool (snd x) (snd y) then x :: l else y :: insert_by_distance x l'
  end.

Definition sort_by_distance (l : list (string * Q)) : list (string * Q) :=
  foldr insert_by_distance [] l.

Section Dispatch.

(** The distance functions are inputs: [_haversine_km] of the routers is
    built on [sin], [cos] and [atan2], and [geo_distance_km] is the distance
    Redis uses for [GEOSEARCH] between two (lng, lat) points. *)
Variable _haversine_km : Q -> Q -> Q -> Q -> Q.
Variable geo_distance_km : Q * Q -> Q * Q -> Q.
Variable settings : Settings.
Variable psp : Provider.

(** [GEOSEARCH key FROMLONLAT lng lat BYRADIUS radius km ASC COUNT count]. *)
Definition geo_nearby_drivers (redis : Redis) (tier : string) (lat lng radius_km : Q)
    (count : Z) : list string :=
  let members := map_to_list (default ∅ (r_geo redis !! geo_key tier)) in
  let measured := (fun m => (fst m, geo_distance_km (lng, lat) (snd m))) <$> members in
  let within := filter (fun m => Qle_bool (snd m) radius_km = true) measured in
  take (Z.to_nat count) (fst <$> sort_by_distance within).

(** *** app/services/matching.py *)

(** [UPDATE rides SET status = 'CANCELLED' WHERE id = :ride], committed. *)
Definition _cancel_ride (ride : string) (d : DB) : DB :=
  set_rides (alter (set_ride_status "CANCELLED") ride) d.

(** The row locks find no competitor here, so [FOR UPDATE] is a plain read.
    The [Trip] row is flushed when the nested transaction ends; a second trip
    for the ride or a taken identifier is an [IntegrityError]. *)
Definition _assign_driver (ride driver trip_uuid : string) (now : Z) (d : DB)
    : Result bool * DB :=
  match drivers d !! driver with
  | None => (Ok false, d)
  | Some drv =>
      if decide (driver_status drv = "available") then
        match rides d !! ride with
        | None => (Ok false, d)
        | Some rd =>
            if decide (ride_status rd = "REQUESTED") then
              let trip := {| trip_ride_id := ride;
                             trip_driver_id := driver;
                             trip_rider_id := ride_rider_id rd;
                             started_at := Some now; ended_at := None;
                             distance_km := None; base_fare := None;
                             surge_fare := None; total_fare := None;
                             trip_status := "ACTIVE" |} in
              match trips d !! trip_uuid,
                    select_where (fun t => bool_decide (trip_ride_id t = ride)) (trips d) with
              | None, [] =>
                  let d := set_drivers (<[driver := set_driver_status "on_trip" drv]>) d in
                  let d := set_rides
                             (<[ride := set_ride_driver driver
                                          (set_ride_status "MATCHED" rd)]>) d in
                  let d := set_trips (<[trip_uuid := trip]>) d in
                  (Ok true, d)
              | _, _ => (Raise IntegrityError, d)
              end
            else (Ok false, d)
        end
      else (Ok false, d)
  end.

(** The body of [for driver_id in candidates], followed by what comes after
    the loop. *)
Fixpoint matching_loop (ride trip_uuid : string) (now : Z) (candidates : list string)
    (w : World) : bool * World :=
  match candidates with
  | [] =>
      (* All candidates exhausted *)
      (false, with_db (_cancel_ride ride (db w)) w)
  | driver :: rest =>
      match r_str (redis w) !! lock_key driver with
      | Some _ => matching_loop ride trip_uuid now rest w   (* SET NX fails *)
      | None =>
          let w := with_redis (set_r_str (<[lock_key driver := ride]>) (redis w)) w in
          let release w := with_redis (cache_delete (redis w) (lock_key driver)) w in
          match drivers (db w) !! driver with
          | None => matching_loop ride trip_uuid now rest (release w)
          | Some drv =>
              if decide (driver_status drv = "available") then
                match _assign_driver ride driver trip_uuid now (db w) with
                | (Ok true, d) =>
                    (true, with_redis (cache_delete (redis w) (ride_status_key ride))
                             (with_db d w))
                | (Ok false, _) => matching_loop ride trip_uuid now rest w
                | (Raise _, _) => matching_loop ride trip_uuid now rest (release w)
                end
              else matching_loop ride trip_uuid now rest (release w)
          end
      end
  end.

Definition run_matching (ride : string) (lat lng : Q) (tier trip_uuid : string)
    (now : Z) (w : World) : bool * World :=
  let candidates :=
    geo_nearby_drivers (redis w) tier lat lng (matching_radius_km settings)
      (matching_max_retries settings * 5) in
  match candidates with
  | [] => (false, with_db (_cancel_ride ride (db w)) w)
  | _ => matching_loop ride trip_uuid now candidates w
  end.

(** *** app/routers/drivers.py *)

Definition create_driver (payload : DriverCreateRequest) (uuid : string) (now : Z)
    (w : World) : Result Response * World :=
  let driver := {| driver_name := dreq_name payload;
                   driver_phone := dreq_phone payload;
                   driver_tier := tier_value (dreq_tier payload);
                   driver_status := "offline";
                   driver_lat := None; driver_lng := None;
                   location_updated_at := None |} in
  match drivers (db w) !! uuid,
        select_where (fun d => bool_decide (driver_phone d = dreq_phone payload))
          (drivers (db w)) with
  | None, [] =>
      (Ok {| resp_status_code := 201;
             resp_body := JObj [("id", JStr uuid); ("name", JStr (driver_name driver));
                                ("phone", JStr (driver_phone driver));
                                ("tier", JStr (driver_tier driver));
                                ("status", JStr (driver_status driver));
                                ("created_at", JInt now)];
             resp_headers := [] |},
       with_db (set_drivers (<[uuid := driver]>) (db w)) w)
  | _, _ => (Raise IntegrityError, w)
  end.

Definition update_driver_status (driver new_status : string) (w : World)
    : Result Response * World :=
  if decide (new_status = "offline" \/ new_status = "available") then
    match drivers (db w) !! driver with
    | None => (Raise (HTTPException NOT_FOUND "Driver not found"), w)
    | Some drv =>
        (Ok {| resp_status_code := 200;
               resp_body := JObj [("id", JStr driver); ("status", JStr new_status)];
               resp_headers := [] |},
         with_db (set_drivers (<[driver := set_driver_status new_status drv]>) (db w)) w)
    end
  else (Raise (HTTPException INVALID "status must be one of offline, available"), w).

Definition update_location (driver : string) (payload : LocationUpdateRequest)
    (w : World) : Result Response * World :=
  let no_content := {| resp_status_code := 204; resp_body := JNull; resp_headers := [] |} in
  let flush := FlushLocationTask driver (loc_lat payload) (loc_lng payload) in
  let cached := match r_str (redis w) !! tier_key driver with
                | Some "" | None => None
                | Some tier => Some tier
                end in
  match cached with
  | None =>
      match drivers (db w) !! driver with
      | None => (Raise (HTTPException NOT_FOUND "Driver not found"), w)
      | Some row =>
          let tier := driver_tier row in
          let r := set_r_str (<[tier_key driver := tier]>) (redis w) in
          (* Only index if driver is available *)
          let r := if decide (driver_status row = "available")
                   then geo_add_driver r tier driver (loc_lat payload) (loc_lng payload)
                   else r in
          (Ok no_content, spawn flush (with_redis r w))
      end
  | Some tier =>
      let r := geo_add_driver (redis w) tier driver (loc_lat payload) (loc_lng payload) in
      (Ok no_content, spawn flush (with_redis r w))
  end.

(** The background task of [update_location]. *)
Definition _flush_location_to_db (driver : string) (lat lng : Q) (now : Z) (w : World)
    : World :=
  with_db (set_drivers (alter (set_driver_location lat lng now) driver) (db w)) w.

Definition accept_ride (driver ride : string) (w : World) : Result Response * World :=
  match rides (db w) !! ride with
  | Some rd =>
      if decide (ride_driver_id rd = Some driver /\ ride_status rd = "MATCHED") then
        (* Transition to en route *)
        let d := set_rides (<[ride := set_ride_status "DRIVER_EN_ROUTE" rd]>) (db w) in
        match scalar_one_or_none
                (select_where (fun t => bool_decide (trip_ride_id t = ride)) (trips d)) with
        | NoRow => (Raise (HTTPException INTERNAL "Trip record missing"), w)
        | ManyRows => (Raise MultipleResultsFound, w)
        | OneRow (trip, _) =>
            (Ok {| resp_status_code := 200;
                   resp_body := JObj [("trip_id", JStr trip);
                                      ("status", JStr "DRIVER_EN_ROUTE")];
                   resp_headers := [] |},
             with_redis (cache_delete (redis w) (ride_status_key ride)) (with_db d w))
        end
      else (Raise (HTTPException CONFLICT "Ride not found or already processed"), w)
  | None => (Raise (HTTPException CONFLICT "Ride not found or already processed"), w)
  end.

(** *** app/routers/trips.py *)

Definition end_trip (trip : string) (payload : TripEndRequest) (payment_uuid : string)
    (now : Z) (w : World) : Result Response * World :=
  match trips (db w) !! trip with
  | None => (Raise (HTTPException NOT_FOUND "Trip not found"), w)
  | Some t =>
      if decide (trip_status t = "ACTIVE" \/ trip_status t = "PAUSED") then
        match rides (db w) !! trip_ride_id t with
        | None => (Raise (HTTPException INTERNAL "Associated ride not found"), w)
        | Some rd =>
            let km := _haversine_km (pickup_lat rd) (pickup_lng rd)
                        (final_lat payload) (final_lng payload) in
            let '(base, surge, total) := calculate_fare (ride_tier rd) km (surge_multiplier rd) in
            let t' := {| trip_ride_id := trip_ride_id t;
                         trip_driver_id := trip_driver_id t;
                         trip_rider_id := trip_rider_id t;
                         started_at := started_at t;
                         ended_at := Some now;
                         distance_km := Some (py_round3 km);
                         base_fare := Some base;
                         surge_fare := Some surge;
                         total_fare := Some total;
                         trip_status := "COMPLETED" |} in
            let payment := {| payment_trip_id := trip;
                              payment_rider_id := trip_rider_id t;
                              amount := total;
                              currency := "INR";
                              payment_status := "PENDING";
                              psp_ref := None;
                              payment_idempotency_key := None |} in
            match payments (db w) !! payment_uuid with
            | Some _ => (Raise IntegrityError, w)
            | None =>
                let d := set_trips (<[trip := t']>) (db w) in
                let d := set_rides
                           (<[trip_ride_id t := set_ride_status "PAYMENT_PENDING" rd]>) d in
                (* Free the driver *)
                let d := set_drivers (alter (set_driver_status "available")
                                        (trip_driver_id t)) d in
                let d := set_payments (<[payment_uuid := payment]>) d in
                (Ok {| resp_status_code := 200;
                       resp_body := JObj [("trip_id", JStr trip);
                                          ("distance_km", JFloat (py_round3 km));
                                          ("base_fare", JFloat base);
                                          ("surge_fare", JFloat surge);
                                          ("total_fare", JFloat total);
                                          ("currency", JStr "INR");
                                          ("payment_status", JStr "PAYMENT_PENDING")];
                       resp_headers := [] |},
                 with_redis (cache_delete (redis w) (ride_status_key (trip_ride_id t)))
                   (with_db d w))
            end
        end
      else (Raise (HTTPException CONFLICT ("Trip is already " +:+ trip_status t)), w)
  end.

(** *** app/routers/payments.py *)

(** Truth value of an optional header: [None] and the empty string are false. *)
Definition truthy (h : option string) : bool :=
  match h with
  | Some "" | None => false
  | Some _ => true
  end.

Definition json_opt_str (o : option string) : json :=
  match o with
  | Some s => JStr s
  | None => JNull
  end.

Definition payment_body (id : string) (p : Payment) : json :=
  JObj [("payment_id", JStr id);
        ("status", JStr (payment_status p));
        ("psp_ref", json_opt_str (psp_ref p));
        ("amount", JFloat (amount p));
        ("currency", JStr (currency p))].

Definition create_payment (payload : PaymentRequest) (idempotency_key : option string)
    (w : World) : Result Response * World :=
  (* 1. Idempotency check *)
  match (if truthy idempotency_key then check_idempotency idempotency_key (redis w)
         else Ok None) with
  | Raise e => (Raise e, w)
  | Ok (Some cached) => (Ok cached, w)
  | Ok None =>
      (* 2. Load trip + existing payment record *)
      match trips (db w) !! preq_trip_id payload with
      | None => (Raise (HTTPException NOT_FOUND "Trip not found"), w)
      | Some trip =>
          if decide (trip_status trip = "COMPLETED") then
            match scalar_one_or_none
                    (select_where
                       (fun p => bool_decide (payment_trip_id p = preq_trip_id payload))
                       (payments (db w))) with
            | NoRow => (Raise (HTTPException NOT_FOUND "Payment record not found"), w)
            | ManyRows => (Raise MultipleResultsFound, w)
            | OneRow (pid, payment) =>
                if decide (payment_status payment = "SUCCESS") then
                  (Ok {| resp_status_code := 200;
                         resp_body := payment_body pid payment;
                         resp_headers := [] |}, w)
                else
                  (* 3. Server-side amount validation *)
                  match total_fare trip with
                  | None => (Raise TypeError, w)
                  | Some server_amount =>
                      if Qlt_le_dec (1 # 100) (Qabs (preq_amount payload - server_amount))
                      then (Raise (HTTPException INVALID "Amount mismatch"), w)
                      else
                        (* 5. Charge PSP *)
                        let '(psp_result, events) :=
                          charge psp (trip_rider_id trip) server_amount
                            (payment_method_value (preq_payment_method payload))
                            (if truthy idempotency_key
                             then default "" idempotency_key else pid) in
                        let w := with_psp_log (psp_log w ++ events) w in
                        (* 4. and 6. the payment row *)
                        let payment' :=
                          {| payment_trip_id := payment_trip_id payment;
                             payment_rider_id := payment_rider_id payment;
                             amount := amount payment;
                             currency := currency payment;
                             payment_status := charge_status psp_result;
                             psp_ref := charge_psp_ref psp_result;
                             payment_idempotency_key := idempotency_key |} in
                        let taken :=
                          match idempotency_key with
                          | None => []
                          | Some _ =>
                              select_where
                                (fun p => bool_decide
                                            (payment_idempotency_key p = idempotency_key))
                                (delete pid (payments (db w)))
                          end in
                        match taken with
                        | _ :: _ => (Raise IntegrityError, w)
                        | [] =>
                            let d := set_payments (<[pid := payment']>) (db w) in
                            let ride := rides d !! trip_ride_id trip in
                            let d :=
                              match ride with
                              | Some rd =>
                                  set_rides
                                    (<[trip_ride_id trip :=
                                         set_ride_status
                                           (if decide (charge_status psp_result = "SUCCESS")
                                            then "COMPLETED" else "PAYMENT_FAILED") rd]>) d
                              | None => d
                              end in
                            (* 7. Cache invalidation *)
                            let r :=
                              match ride with
                              | Some _ => cache_delete (redis w)
                                            (ride_status_key (trip_ride_id trip))
                              | None => redis w
                              end in
                            let response_body := payment_body pid payment' in
                            let r :=
                              if truthy idempotency_key
                              then store_idempotency_result (default "" idempotency_key)
                                     200 response_body r
                              else r in
                            (Ok {| resp_status_code := 200;
                                   resp_body := response_body;
                                   resp_headers := [] |},
                             with_redis r (with_db d w))
                        end
                  end
            end
          else (Raise (HTTPException CONFLICT "Trip is not yet completed"), w)
      end
  end.

(** *** app/routers/rides.py *)

Definition create_ride (payload : RideCreateRequest) (rider_id : string)
    (idempotency_key : option string) (uuid : string) (now : Z) (w : World)
    : Result Response * World :=
  (* 1. Idempotency check *)
  match (if truthy idempotency_key then check_idempotency idempotency_key (redis w)
         else Ok None) with
  | Raise e => (Raise e, w)
  | Ok (Some cached) => (Ok cached, w)
  | Ok None =>
      let tier := tier_value (req_tier payload) in
      (* 2. Surge pricing *)
      let surge := compute_surge settings (redis w)
                     (req_pickup_lat payload) (req_pickup_lng payload) tier in
      (* 3. Estimated distance *)
      let km := _haversine_km (req_pickup_lat payload) (req_pickup_lng payload)
                  (req_dest_lat payload) (req_dest_lng payload) in
      let fare_range := estimate_fare_range tier km surge in
      (* 4. Create ride record *)
      let ride := {| ride_rider_id := rider_id;
                     ride_driver_id := None;
                     pickup_lat := req_pickup_lat payload;
                     pickup_lng := req_pickup_lng payload;
                     dest_lat := req_dest_lat payload;
                     dest_lng := req_dest_lng payload;
                     ride_tier := tier;
                     ride_status := "REQUESTED";
                     ride_payment_method := payment_method_value (req_payment_method payload);
                     surge_multiplier := surge;
                     ride_idempotency_key := idempotency_key;
                     ride_created_at := now |} in
      let taken :=
        match idempotency_key with
        | None => []
        | Some _ =>
            select_where (fun r => bool_decide (ride_idempotency_key r = idempotency_key))
              (rides (db w))
        end in
      match rides (db w) !! uuid, taken with
      | None, [] =>
          let w := with_db (set_rides (<[uuid := ride]>) (db w)) w in
          (* 5. Increment surge demand counter *)
          let w := with_redis (increment_demand (redis w) tier) w in
          (* 6. Kick off matching asynchronously *)
          let w := spawn (MatchingTask uuid (req_pickup_lat payload)
                            (req_pickup_lng payload) tier) w in
          let response_body :=
            JObj [("id", JStr uuid);
                  ("status", JStr (ride_status ride));
                  ("surge_multiplier", JFloat (surge_multiplier ride));
                  ("estimated_fare",
                   JObj [("min", JFloat (fare_min fare_range));
                         ("max", JFloat (fare_max fare_range));
                         ("currency", JStr (fare_currency fare_range))]);
                  ("created_at", JInt (ride_created_at ride))] in
          (* 7. Store idempotency result *)
          let w := if truthy idempotency_key
                   then with_redis (store_idempotency_result (default "" idempotency_key)
                                      201 response_body (redis w)) w
                   else w in
          (Ok {| resp_status_code := 201; resp_body := response_body; resp_headers := [] |},
           w)
      | _, _ => (Raise IntegrityError, w)
      end
  end.

End Dispatch.

(** ** Operations

    One request or background task, with what the environment supplies for
    it (fresh identifiers, the clock). *)
Inductive Op :=
| CreateDriver (payload : DriverCreateRequest) (uuid : string) (now : Z)
| UpdateDriverStatus (driver new_status : string)
| UpdateLocation (driver : string) (payload : LocationUpdateRequest)
| FlushLocation (driver : string) (lat lng : Q) (now : Z)
| AcceptRide (driver ride : string)
| CreateRide (payload : RideCreateRequest) (rider_id : string)
    (idempotency_key : option string) (uuid : string) (now : Z)
| RunMatching (ride : string) (lat lng : Q) (tier trip_uuid : string) (now : Z)
| EndTrip (trip : string) (payload : TripEndRequest) (payment_uuid : string) (now : Z)
| CreatePayment (payload : PaymentRequest) (idempotency_key : option string).

Definition step (_haversine_km : Q -> Q -> Q -> Q -> Q)
    (geo_distance_km : Q * Q -> Q * Q -> Q) (settings : Settings) (psp : Provider)
    (op : Op) (w : World) : World :=
  match op with
  | CreateDriver payload uuid now => snd (create_driver payload uuid now w)
  | UpdateDriverStatus driver new_status => snd (update_driver_status driver new_status w)
  | UpdateLocation driver payload => snd (update_location driver payload w)
  | FlushLocation driver lat lng now => _flush_location_to_db driver lat lng now w
  | AcceptRide driver ride => snd (accept_ride driver ride w)
  | CreateRide payload rider_id key uuid now =>
      snd (create_ride _haversine_km settings payload rider_id key uuid now w)
  | RunMatching ride lat lng tier trip_uuid now =>
      snd (run_matching geo_distance_km settings ride lat lng tier trip_uuid now w)
  | EndTrip trip payload payment_uuid now =>
      snd (end_trip _haversine_km trip payload payment_uuid now w)
  | CreatePayment payload key => snd (create_payment psp payload key w)
  end.

(** ** The specification's vocabulary *)

(** Section 4.3: [ratio = demand / max(supply, 1)], demand being the tier's
    counter and supply the cardinality of the tier's Geo Index partition. *)
Definition surge_ratio (redis : Redis) (tier : string) : Q :=
  (inject_Z (default 0%Z (r_int redis !! demand_key tier))
   / inject_Z (Z.max (zcard redis (geo_key tier)) 1%Z))%Q.

(** Section 4.4: the per-tier constants, an unknown tier falling back to
    the standard ones. *)
Definition base_fee_of (tier : string) : Q :=
  if decide (tier = "premium") then 60%Q
  else if decide (tier = "xl") then 80%Q
  else 30%Q.

Definition per_km_of (tier : string) : Q :=
  if decide (tier = "premium") then 15%Q
  else if decide (tier = "xl") then 20%Q
  else 10%Q.

(** Section 4.8: a provider that answers the same way on every attempt of
    one charge, and one that fails twice before it succeeds (scenario 6). *)
Definition failing_psp : Provider :=
  fun _ _ _ _ _ => PSPError "provider unavailable".

Definition flapping_psp : Provider :=
  fun attempt _ _ _ _ =>
    if attempt <? 3 then PSPError "provider unavailable" else PspCharged "PSP-0123456789AB".

Definition stub_hex : Z -> string := fun _ => "0123456789AB".

(** The attempts made and the seconds slept, read off a charge's events. *)
Definition provider_calls (log : list ChargeEvent) : list Z :=
  omap (fun e => match e with CalledPsp n _ _ _ _ => Some n | Slept _ => None end) log.

Definition backoff_waits (log : list ChargeEvent) : list Z :=
  omap (fun e => match e with Slept s => Some s | CalledPsp _ _ _ _ _ => None end) log.

(** Section 4.9: a stored response returned verbatim, marked as a replay. *)
Definition replay_of (status_code : Z) (body : json) : Response :=
  {| resp_status_code := status_code;
     resp_body := body;
     resp_headers := [("X-Idempotency-Replay", "true")] |}.

(** ** A concrete deployment, for evaluating the handlers

    The distance functions are inputs of the model.  Every evaluation below
    is at coincident points (the driver stands at the pickup point, and the
    ride ends where it began), where the great-circle distance is 0 and so
    are these stand-ins. *)
Definition flat_haversine_km (lat1 lng1 lat2 lng2 : Q) : Q :=
  (111 * (Qabs (lat2 - lat1) + Qabs (lng2 - lng1)))%Q.

Definition flat_geo_distance_km (p q : Q * Q) : Q :=
  (111 * (Qabs (fst q - fst p) + Qabs (snd q - snd p)))%Q.

Definition demo_ride_request : RideCreateRequest :=
  {| req_pickup_lat := 13; req_pickup_lng := 77;
     req_dest_lat := 13; req_dest_lng := 77;
     req_tier := standard; req_payment_method := card |}.

Definition demo_driver_request (name phone : string) : DriverCreateRequest :=
  {| dreq_name := name; dreq_phone := phone; dreq_tier := standard |}.

Definition demo_ping : LocationUpdateRequest := {| loc_lat := 13; loc_lng := 77 |}.

(** Scenario 1 of section 8, request by request. *)
Definition demo_w1 : World :=
  snd (create_driver (demo_driver_request "Asha" "+910000000001") "driver-1" 0 world_empty).
Definition demo_w2 : World := snd (update_driver_status "driver-1" "available" demo_w1).
Definition demo_w3 : World := snd (update_location "driver-1" demo_ping demo_w2).
Definition demo_w4 : World :=
  snd (create_ride flat_haversine_km default_settings demo_ride_request
         "rider-1" (Some "k1") "ride-1" 10 demo_w3).
Definition demo_w5 : World :=
  snd (run_matching flat_geo_distance_km default_settings
         "ride-1" 13 77 "standard" "trip-1" 11 demo_w4).
Definition demo_w6 : World := snd (accept_ride "driver-1" "ride-1" demo_w5).
Definition demo_w7 : World :=
  snd (end_trip flat_haversine_km "trip-1" {| final_lat := 13; final_lng := 77 |}
         "pay-1" 20 demo_w6).

Definition demo_payment_request (amt : Q) : PaymentRequest :=
  {| preq_trip_id := "trip-1"; preq_payment_method := card; preq_amount := amt |}.

(** Section 4.8, step 5: the payment row and the ride status once the
    provider has answered. *)
Definition charged_payment (payment : Payment) (idempotency_key : option string)
    (result : ChargeResult) : Payment :=
  {| payment_trip_id := payment_trip_id payment;
     payment_rider_id := payment_rider_id payment;
     amount := amount payment;
     currency := currency payment;
     payment_status := charge_status result;
     psp_ref := charge_psp_ref result;
     payment_idempotency_key := idempotency_key |}.

Definition ride_status_after (result : ChargeResult) : string :=
  if decide (charge_status result = "SUCCESS") then "COMPLETED" else "PAYMENT_FAILED".

(** Scenario 3 of section 8: two available drivers at the pickup point, one
    ride, and the matcher run twice on it. *)
Definition race_w1 : World :=
  snd (create_driver (demo_driver_request "Bala" "+910000000002") "driver-2" 1 demo_w3).
Definition race_w2 : World := snd (update_driver_status "driver-2" "available" race_w1).
Definition race_w3 : World := snd (update_location "driver-2" demo_ping race_w2).
Definition race_w4 : World :=
  snd (create_ride flat_haversine_km default_settings demo_ride_request
         "rider-1" (Some "k1") "ride-1" 10 race_w3).
Definition race_w5 : World :=
  snd (run_matching flat_geo_distance_km default_settings
         "ride-1" 13 77 "standard" "trip-1" 11 race_w4).
Definition race_w6 : World :=
  snd (run_matching flat_geo_distance_km default_settings
         "ride-1" 13 77 "standard" "trip-2" 12 race_w5).

(** Section 4.7, step b: the ride row with status REQUESTED is absent. *)
Definition not_requested (ride : string) (d : DB) : Prop :=
  forall rd, rides d !! ride = Some rd -> ride_status rd <> "REQUESTED".

(** Section 4.6: the transition graph of the ride state machine. *)
Definition TRANSITION_GRAPH : list (string * list string) :=
  [("REQUESTED", ["MATCHED"; "CANCELLED"]);
   ("MATCHED", ["DRIVER_EN_ROUTE"; "CANCELLED"]);
   ("DRIVER_EN_ROUTE", ["TRIP_STARTED"; "CANCELLED"]);
   ("TRIP_STARTED", ["TRIP_PAUSED"; "TRIP_ENDED"]);
   ("TRIP_PAUSED", ["TRIP_STARTED"]);
   ("TRIP_ENDED", ["PAYMENT_PENDING"]);
   ("PAYMENT_PENDING", ["COMPLETED"; "PAYMENT_FAILED"]);
   ("PAYMENT_FAILED", ["PAYMENT_PENDING"]);
   ("COMPLETED", []);
   ("CANCELLED", [])].

Definition is_valid_transition (current next : string) : bool :=
  bool_decide ((current, next) ∈
                 mjoin ((fun row => (fun n => (fst row, n)) <$> snd row) <$> TRANSITION_GRAPH)).

Inductive reachable : string -> Prop :=
| reachable_start : reachable "REQUESTED"
| reachable_step (a b : string) :
    reachable a -> is_valid_transition a b = true -> reachable b.

(** Every stored ride status can be reached from REQUESTED in the graph. *)
Definition statuses_reachable (m : gmap string Ride) : Prop :=
  forall id rd, m !! id = Some rd -> reachable (ride_status rd).

Definition rides_reachable (w : World) : Prop := statuses_reachable (rides (db w)).

(** Three pings and a status change on the demo's driver. *)
Definition stale_w1 : World := snd (update_location "driver-1" demo_ping demo_w1).
Definition stale_w2 : World := snd (update_location "driver-1" demo_ping stale_w1).
Definition stale_w3 : World := snd (update_driver_status "driver-1" "offline" demo_w3).

(** ** Consistency of the records

    What the four tables satisfy together in every state the operations can
    produce from the empty deployment. *)
Record db_consistent (d : DB) : Prop := {
  driver_statuses : forall id drv, drivers d !! id = Some drv ->
    driver_status drv = "offline" \/ driver_status drv = "available"
    \/ driver_status drv = "on_trip";
  ride_statuses : forall id rd, rides d !! id = Some rd ->
    ride_status rd ∈ ["REQUESTED"; "MATCHED"; "DRIVER_EN_ROUTE"; "PAYMENT_PENDING";
                      "COMPLETED"; "PAYMENT_FAILED"; "CANCELLED"];
  unassigned_rides : forall id rd, rides d !! id = Some rd -> ride_driver_id rd = None ->
    ride_status rd = "REQUESTED" \/ ride_status rd = "CANCELLED";
  assigned_rides : forall id rd, rides d !! id = Some rd -> ride_driver_id rd <> None ->
    exists trip t, trips d !! trip = Some t /\ trip_ride_id t = id;
  trip_rides : forall trip t, trips d !! trip = Some t ->
    exists rd, rides d !! trip_ride_id t = Some rd
               /\ ride_driver_id rd = Some (trip_driver_id t)
               /\ ride_rider_id rd = trip_rider_id t
               /\ ride_status rd <> "REQUESTED";
  trip_drivers : forall trip t, trips d !! trip = Some t ->
    is_Some (drivers d !! trip_driver_id t);
  trip_per_ride : forall a b ta tb, trips d !! a = Some ta -> trips d !! b = Some tb ->
    trip_ride_id ta = trip_ride_id tb -> a = b;
  trip_statuses : forall trip t, trips d !! trip = Some t ->
    (trip_status t = "ACTIVE" /\ total_fare t = None)
    \/ (trip_status t = "COMPLETED" /\ total_fare t <> None
        /\ exists pid p, payments d !! pid = Some p /\ payment_trip_id p = trip);
  payment_trips : forall pid p, payments d !! pid = Some p ->
    exists t, trips d !! payment_trip_id p = Some t
              /\ trip_status t = "COMPLETED"
              /\ total_fare t = Some (amount p)
              /\ payment_rider_id p = trip_rider_id t;
  payment_statuses : forall pid p, payments d !! pid = Some p ->
    (payment_status p = "PENDING" /\ psp_ref p = None)
    \/ (payment_status p = "SUCCESS" /\ psp_ref p <> None)
    \/ (payment_status p = "FAILED" /\ psp_ref p = None);
  payment_per_trip : forall a b pa pb,
    payments d !! a = Some pa -> payments d !! b = Some pb ->
    payment_trip_id pa = payment_trip_id pb -> a = b;
  completed_rides : forall id rd, rides d !! id = Some rd -> ride_status rd = "COMPLETED" ->
    exists trip t pid p,
      trips d !! trip = Some t /\ trip_ride_id t = id
      /\ payments d !! pid = Some p /\ payment_trip_id p = trip
      /\ payment_status p = "SUCCESS";
}.

(** Every document in the cache is one that [store_idempotency_result] wrote. *)
Definition cache_wellformed (r : Redis) : Prop :=
  forall k data, r_json r !! k = Some data ->
    exists status_code body, data = stored_response status_code body.

Definition consistent (w : World) : Prop :=
  db_consistent (db w) /\ cache_wellformed (redis w).

(** The failures a client can cause: 400, 404 and 409. *)
Definition client_error (e : Exception) : Prop :=
  exists code detail,
    e = HTTPException code detail /\ (code = INVALID \/ code = NOT_FOUND \/ code = CONFLICT).

Definition failure {A} (r : Result A) : option Exception :=
  match r with
  | Ok _ => None
  | Raise e => Some e
  end.

(** What an operation raises, if it does.  The two background tasks catch
    or cannot raise. *)
Definition step_failure (_haversine_km : Q -> Q -> Q -> Q -> Q) (settings : Settings)
    (psp : Provider) (op : Op) (w : World) : option Exception :=
  match op with
  | CreateDriver payload uuid now => failure (fst (create_driver payload uuid now w))
  | UpdateDriverStatus driver new_status =>
      failure (fst (update_driver_status driver new_status w))
  | UpdateLocation driver payload => failure (fst (update_location driver payload w))
  | FlushLocation _ _ _ _ => None
  | AcceptRide driver ride => failure (fst (accept_ride driver ride w))
  | CreateRide payload rider_id key uuid now =>
      failure (fst (create_ride _haversine_km settings payload rider_id key uuid now w))
  | RunMatching _ _ _ _ _ _ => None
  | EndTrip trip payload payment_uuid now =>
      failure (fst (end_trip _haversine_km trip payload payment_uuid now w))
  | CreatePayment payload key => failure (fst (create_payment psp payload key w))
  end.

(** Scenario 1 of section 8 as a list of operations, the payment included,
    against the provider stub. *)
Definition demo_ops : list Op :=
  [CreateDriver (demo_driver_request "Asha" "+910000000001") "driver-1" 0;
   UpdateDriverStatus "driver-1" "available";
   UpdateLocation "driver-1" demo_ping;
   CreateRide demo_ride_request "rider-1" (Some "k1") "ride-1" 10;
   RunMatching "ride-1" 13 77 "standard" "trip-1" 11;
   AcceptRide "driver-1" "ride-1";
   EndTrip "trip-1" {| final_lat := 13; final_lng := 77 |} "pay-1" 20;
   CreatePayment (demo_payment_request 30) (Some "pay-key-1")].

Definition demo_paid : World :=
  foldl (fun w op => step flat_haversine_km flat_geo_distance_km default_settings
                       (_call_psp stub_hex) op w)
    world_empty demo_ops.

(** What a ride request fixed when it was made. *)
Definition same_booking (rd rd' : Ride) : Prop :=
  ride_rider_id rd' = ride_rider_id rd
  /\ pickup_lat rd' = pickup_lat rd /\ pickup_lng rd' = pickup_lng rd
  /\ dest_lat rd' = dest_lat rd /\ dest_lng rd' = dest_lng rd
  /\ ride_tier rd' = ride_tier rd
  /\ ride_payment_method rd' = ride_payment_method rd
  /\ surge_multiplier rd' = surge_multiplier rd
  /\ ride_idempotency_key rd' = ride_idempotency_key rd
  /\ ride_created_at rd' = ride_created_at rd.

(** A ride row and what an operation leaves of it. *)
Definition ride_kept (rd : Ride) (after : option Ride) : Prop :=
  exists rd',
    after = Some rd'
    /\ same_booking rd rd'
    /\ (ride_status rd' = "REQUESTED" -> rd' = rd)
    /\ (ride_status rd <> "REQUESTED" -> ride_driver_id rd' = ride_driver_id rd).

(** The same for a trip row and for a payment row. *)
Definition trip_kept (t : Trip) (after : option Trip) : Prop :=
  exists t',
    after = Some t'
    /\ trip_ride_id t' = trip_ride_id t
    /\ trip_driver_id t' = trip_driver_id t
    /\ trip_rider_id t' = trip_rider_id t
    /\ started_at t' = started_at t
    /\ (trip_status t = "COMPLETED" -> t' = t).

Definition payment_kept (p : Payment) (after : option Payment) : Prop :=
  exists p',
    after = Some p'
    /\ payment_trip_id p' = payment_trip_id p
    /\ payment_rider_id p' = payment_rider_id p
    /\ amount p' = amount p
    /\ currency p' = currency p
    /\ (payment_status p = "SUCCESS" -> p' = p).

(** ** tests/unit/test_state_machine.py: the table the unit tests check
    transitions against. *)
Module test_state_machine.

Definition VALID_TRANSITIONS : gmap string (gset string) :=
  <["REQUESTED" := {["MATCHED"; "CANCELLED"]}]>
  (<["MATCHED" := {["DRIVER_EN_ROUTE"; "CANCELLED"; "REQUESTED"]}]>
  (<["DRIVER_EN_ROUTE" := {["TRIP_STARTED"; "CANCELLED"]}]>
  (<["TRIP_STARTED" := {["TRIP_PAUSED"; "TRIP_ENDED"]}]>
  (<["TRIP_PAUSED" := {["TRIP_STARTED"]}]>
  (<["TRIP_ENDED" := {["PAYMENT_PENDING"]}]>
  (<["PAYMENT_PENDING" := {["COMPLETED"; "PAYMENT_FAILED"]}]>
  (<["COMPLETED" := ∅]>
  (<["CANCELLED" := ∅]>
  (<["PAYMENT_FAILED" := {["PAYMENT_PENDING"]}]> ∅))))))))).

Definition is_valid_transition (current next_state : string) : bool :=
  bool_decide (next_state ∈ default ∅ (VALID_TRANSITIONS !! current)).

End test_state_machine.

(** Two drivers, two rides, both trips ended, and both paid for with an
    empty Idempotency-Key header. *)
Definition reuse_ops : list Op :=
  [CreateDriver (demo_driver_request "Asha" "+910000000001") "driver-1" 0;
   UpdateDriverStatus "driver-1" "available";
   UpdateLocation "driver-1" demo_ping;
   CreateDriver (demo_driver_request "Bala" "+910000000002") "driver-2" 1;
   UpdateDriverStatus "driver-2" "available";
   UpdateLocation "driver-2" demo_ping;
   CreateRide demo_ride_request "rider-1" None "ride-1" 10;
   RunMatching "ride-1" 13 77 "standard" "trip-1" 11;
   CreateRide demo_ride_request "rider-2" None "ride-2" 12;
   RunMatching "ride-2" 13 77 "standard" "trip-2" 13;
   EndTrip "trip-1" {| final_lat := 13; final_lng := 77 |} "pay-1" 20;
   EndTrip "trip-2" {| final_lat := 13; final_lng := 77 |} "pay-2" 21;
   CreatePayment (demo_payment_request 30) (Some "")].

Definition reuse_w : World :=
  foldl (fun w op => step flat_haversine_km flat_geo_distance_km default_settings
                       (_call_psp stub_hex) op w)
    world_empty reuse_ops.

(** * Properties *)

(** Case analysis on whatever the goal's code branches on next. *)
Ltac case_split :=
  match goal with
  | |- context [match ?x with _ => _ end] => destruct x eqn:?
  end.

(** ** Rounding *)

Lemma floor_frac (x : Q) : (0 <= x - inject_Z (Qfloor x) < 1)%Q.
Proof.
  pose proof (Qfloor_le x) as H1. pose proof (Qlt_floor x) as H2.
  rewrite inject_Z_plus in H2. change (inject_Z 1) with 1%Q in H2. split; lra.
Qed.

Lemma round_half_even_cases (x : Q) :
  round_half_even x = Qfloor x \/ round_half_even x = Qfloor x + 1.
Proof.
  unfold round_half_even. destruct (_ ?= _)%Q; try destruct (Z.even _); auto.
Qed.

Lemma round_half_even_near (x : Q) :
  (Qabs (inject_Z (round_half_even x) - x) <= 1 # 2)%Q.
Proof.
  pose proof (floor_frac x) as [H0 H1].
  unfold round_half_even.
  destruct (Qcompare_spec (x - inject_Z (Qfloor x)) (1 # 2)) as [E|L|G];
    [destruct (Z.even (Qfloor x))| |];
    rewrite ?inject_Z_plus; change (inject_Z 1) with 1%Q;
    apply Qabs_Qle_condition; split; lra.
Qed.

Lemma round_half_even_le_int (x : Q) (n : Z) :
  (x <= inject_Z n)%Q -> round_half_even x <= n.
Proof.
  intros Hx. pose proof (floor_frac x) as [H0 H1].
  assert (Hf : Qfloor x <= n).
  { rewrite <- (Qfloor_Z n). apply Qfloor_resp_le. exact Hx. }
  unfold round_half_even.
  destruct (Z.eq_dec (Qfloor x) n) as [E|N].
  - assert (L : (x - inject_Z (Qfloor x) < 1 # 2)%Q) by (rewrite E; lra).
    destruct (Qcompare_spec (x - inject_Z (Qfloor x)) (1 # 2)); try lia; exfalso; lra.
  - destruct (_ ?= _)%Q; try destruct (Z.even _); lia.
Qed.

Lemma round_half_even_ge_int (x : Q) (n : Z) :
  (inject_Z n <= x)%Q -> n <= round_half_even x.
Proof.
  intros Hx.
  assert (Hf : n <= Qfloor x).
  { rewrite <- (Qfloor_Z n). apply Qfloor_resp_le. exact Hx. }
  destruct (round_half_even_cases x) as [-> | ->]; lia.
Qed.

Lemma round_half_even_int (n : Z) : round_half_even (inject_Z n) = n.
Proof.
  apply Z.le_antisymm.
  - apply round_half_even_le_int. lra.
  - apply round_half_even_ge_int. lra.
Qed.

Lemma round_half_even_comp (x y : Q) : (x == y)%Q -> round_half_even x = round_half_even y.
Proof.
  intros E. unfold round_half_even.
  rewrite (Qfloor_comp _ _ E).
  assert (E' : (x - inject_Z (Qfloor y) == y - inject_Z (Qfloor y))%Q) by (rewrite E; reflexivity).
  rewrite (Qcompare_comp _ _ E' _ _ (Qeq_refl _)). reflexivity.
Qed.

Lemma round_half_even_mono (x y : Q) :
  (x <= y)%Q -> round_half_even x <= round_half_even y.
Proof.
  intros Hxy.
  pose proof (floor_frac x) as [Hx0 Hx1]. pose proof (floor_frac y) as [Hy0 Hy1].
  assert (Hf : Qfloor x <= Qfloor y) by (apply Qfloor_resp_le; exact Hxy).
  destruct (Z.eq_dec (Qfloor x) (Qfloor y)) as [E|N].
  - unfold round_half_even. rewrite <- E.
    destruct (Qcompare_spec (x - inject_Z (Qfloor x)) (1 # 2)) as [Ex|Lx|Gx];
    destruct (Qcompare_spec (y - inject_Z (Qfloor x)) (1 # 2)) as [Ey|Ly|Gy];
      try destruct (Z.even (Qfloor x)); try lia; exfalso; lra.
  - destruct (round_half_even_cases x) as [-> | ->];
    destruct (round_half_even_cases y) as [-> | ->]; lia.
Qed.

Lemma round_half_up_int (x : Q) (n : Z) : (x == inject_Z n)%Q -> round_half_up x = n.
Proof.
  intros E. unfold round_half_up.
  assert (F1 : Qfloor (x + (1 # 2)) = n).
  { apply Z.le_antisymm.
    - apply Z.lt_succ_r. rewrite Zlt_Qlt.
      eapply Qle_lt_trans; [apply Qfloor_le|].
      unfold Z.succ. rewrite inject_Z_plus. change (inject_Z 1) with 1%Q. lra.
    - rewrite <- (Qfloor_Z n). apply Qfloor_resp_le. lra. }
  assert (F2 : Qfloor (- x + (1 # 2)) = - n).
  { apply Z.le_antisymm.
    - apply Z.lt_succ_r. rewrite Zlt_Qlt.
      eapply Qle_lt_trans; [apply Qfloor_le|].
      unfold Z.succ. rewrite inject_Z_plus, inject_Z_opp. change (inject_Z 1) with 1%Q. lra.
    - rewrite <- (Qfloor_Z (- n)). apply Qfloor_resp_le. rewrite inject_Z_opp. lra. }
  destruct (x ?= 0)%Q; rewrite ?F1, ?F2; lia.
Qed.

Lemma cents_as_product (n : Z) : (n # 100 == inject_Z n * (1 # 100))%Q.
Proof. unfold Qeq, inject_Z, Qmult. simpl. lia. Qed.

Lemma cents_times_100 (n : Z) : ((n # 100) * 100 == inject_Z n)%Q.
Proof. rewrite cents_as_product. field. Qed.

Lemma cents_le (a b : Z) : a <= b -> (a # 100 <= b # 100)%Q.
Proof. intros H. unfold Qle. simpl. lia. Qed.

Lemma py_round2_comp (x y : Q) : (x == y)%Q -> py_round2 x = py_round2 y.
Proof.
  intros E. unfold py_round2. f_equal. apply round_half_even_comp. rewrite E. reflexivity.
Qed.

Lemma py_round2_mono (x y : Q) : (x <= y)%Q -> (py_round2 x <= py_round2 y)%Q.
Proof.
  intros H. apply cents_le, round_half_even_mono. lra.
Qed.

Lemma py_round2_near (x : Q) : (Qabs (py_round2 x - x) <= 1 # 200)%Q.
Proof.
  pose proof (round_half_even_near (x * 100)) as H.
  apply Qabs_Qle_condition in H. destruct H as [H1 H2].
  unfold py_round2. rewrite cents_as_product.
  apply Qabs_Qle_condition. split; lra.
Qed.

(** [quantize] finds nothing to round once [round] has run. *)
Lemma to_dec_is_py_round2 (v : Q) : to_dec v = py_round2 v.
Proof.
  unfold to_dec, quantize_half_up, py_round2. f_equal.
  apply round_half_up_int, cents_times_100.
Qed.

(** ** Surge and fares *)

Lemma BASE_FEE_get (tier : string) : dict_get BASE_FEE tier 30%Q = base_fee_of tier.
Proof.
  unfold dict_get, base_fee_of, BASE_FEE.
  destruct (decide (tier = "premium")) as [->|N1]; [reflexivity|].
  destruct (decide (tier = "xl")) as [->|N2]; [reflexivity|].
  destruct (decide (tier = "standard")) as [->|N3]; [reflexivity|].
  rewrite !lookup_insert_ne, lookup_empty by congruence. reflexivity.
Qed.

Lemma RATE_PER_KM_get (tier : string) : dict_get RATE_PER_KM tier 10%Q = per_km_of tier.
Proof.
  unfold dict_get, per_km_of, RATE_PER_KM.
  destruct (decide (tier = "premium")) as [->|N1]; [reflexivity|].
  destruct (decide (tier = "xl")) as [->|N2]; [reflexivity|].
  destruct (decide (tier = "standard")) as [->|N3]; [reflexivity|].
  rewrite !lookup_insert_ne, lookup_empty by congruence. reflexivity.
Qed.

Lemma base_fee_of_bounds (tier : string) : (30 <= base_fee_of tier)%Q.
Proof. unfold base_fee_of. repeat case_decide; lra. Qed.

Lemma per_km_of_bounds (tier : string) : (10 <= per_km_of tier)%Q.
Proof. unfold per_km_of. repeat case_decide; lra. Qed.

Lemma calculate_fare_unfold (tier : string) (d m : Q) :
  let base := (base_fee_of tier + per_km_of tier * d)%Q in
  calculate_fare tier d m
  = (py_round2 base, py_round2 (base * (m - 1)), py_round2 (base + base * (m - 1))).
Proof.
  unfold calculate_fare. cbv zeta.
  rewrite BASE_FEE_get, RATE_PER_KM_get, !to_dec_is_py_round2. reflexivity.
Qed.

(** The cases of tests/unit/test_pricing.py. *)
Example test_standard_no_surge :
  calculate_fare "standard" 10 1 = (13000 # 100, 0 # 100, 13000 # 100)%Q.
Proof. vm_compute. reflexivity. Qed.

Example test_standard_with_surge :
  calculate_fare "standard" 10 2 = (13000 # 100, 13000 # 100, 26000 # 100)%Q.
Proof. vm_compute. reflexivity. Qed.

Example test_premium_no_surge :
  calculate_fare "premium" 5 1 = (13500 # 100, 0 # 100, 13500 # 100)%Q.
Proof. vm_compute. reflexivity. Qed.

Example test_xl_with_surge :
  calculate_fare "xl" 20 (3 # 2) = (48000 # 100, 24000 # 100, 72000 # 100)%Q.
Proof. vm_compute. reflexivity. Qed.

Example test_zero_distance :
  calculate_fare "standard" 0 1 = (3000 # 100, 0 # 100, 3000 # 100)%Q.
Proof. vm_compute. reflexivity. Qed.

Example test_unknown_tier_uses_defaults :
  fst (fst (calculate_fare "unknown_tier" 10 1)) = (13000 # 100)%Q.
Proof. vm_compute. reflexivity. Qed.

Example test_high_demand_returns_surge :
  compute_surge default_settings
    (set_r_geo (<[geo_key "standard" :=
                    list_to_map [("a", (0, 0)); ("b", (0, 0)); ("c", (0, 0));
                                 ("d", (0, 0)); ("e", (0, 0))]%Q]>)
       (set_r_int (<[demand_key "standard" := 20%Z]>) redis_empty))
    0 0 "standard"
  = (400 # 100)%Q.
Proof. vm_compute. reflexivity. Qed.






Lemma calculate_fare_total_nonneg (tier : string) (d m : Q) :
  (0 <= d)%Q -> (1 <= m)%Q ->
  exists n : Z, 0 <= n /\ snd (calculate_fare tier d m) = (n # 100)%Q.
Proof.
  intros Hd Hm. rewrite calculate_fare_unfold. cbv zeta. cbn [snd].
  eexists. split; [|reflexivity].
  apply round_half_even_ge_int. change (inject_Z 0) with 0%Q.
  pose proof (base_fee_of_bounds tier) as Hf.
  pose proof (per_km_of_bounds tier) as Hk.
  assert (Hkd : (0 <= per_km_of tier * d)%Q) by (apply Qmult_le_0_compat; lra).
  assert (Hs : (0 <= (base_fee_of tier + per_km_of tier * d) * (m - 1))%Q)
    by (apply Qmult_le_0_compat; lra).
  lra.
Qed.



(** ** Payment adapter *)

Section Charge.

Variable psp : Provider.
Variables (rider_id : string) (amt : Q) (payment_method idempotency_key : string).

Let call (attempt : Z) : ChargeEvent :=
  CalledPsp attempt rider_id amt payment_method idempotency_key.
Let answer (attempt : Z) : PspOutcome :=
  psp attempt rider_id amt payment_method idempotency_key.
Let run : ChargeResult * list ChargeEvent :=
  charge psp rider_id amt payment_method idempotency_key.

Lemma charge_first_attempt (ref : string) :
  answer 1 = PspCharged ref ->
  run = ({| charge_psp_ref := Some ref; charge_status := "SUCCESS" |}, [call 1]).
Proof.
  unfold run, answer, charge. cbn [charge_loop]. intros ->. reflexivity.
Qed.

Lemma charge_second_attempt (e1 ref : string) :
  answer 1 = PSPError e1 -> answer 2 = PspCharged ref ->
  run = ({| charge_psp_ref := Some ref; charge_status := "SUCCESS" |},
         [call 1; Slept 2; call 2]).
Proof.
  unfold run, answer, charge. cbn [charge_loop]. intros -> ->. reflexivity.
Qed.

Lemma charge_third_attempt (e1 e2 ref : string) :
  answer 1 = PSPError e1 -> answer 2 = PSPError e2 -> answer 3 = PspCharged ref ->
  run = ({| charge_psp_ref := Some ref; charge_status := "SUCCESS" |},
         [call 1; Slept 2; call 2; Slept 4; call 3]).
Proof.
  unfold run, answer, charge. cbn [charge_loop]. intros -> -> ->. reflexivity.
Qed.

Lemma charge_exhausted (e1 e2 e3 : string) :
  answer 1 = PSPError e1 -> answer 2 = PSPError e2 -> answer 3 = PSPError e3 ->
  run = ({| charge_psp_ref := None; charge_status := "FAILED" |},
         [call 1; Slept 2; call 2; Slept 4; call 3]).
Proof.
  unfold run, answer, charge. cbn [charge_loop]. intros -> -> ->. reflexivity.
Qed.

(** The four ways a charge can go. *)
Lemma charge_cases :
  (exists ref, answer 1 = PspCharged ref
     /\ run = ({| charge_psp_ref := Some ref; charge_status := "SUCCESS" |}, [call 1]))
  \/ (exists e1 ref, answer 1 = PSPError e1 /\ answer 2 = PspCharged ref
     /\ run = ({| charge_psp_ref := Some ref; charge_status := "SUCCESS" |},
               [call 1; Slept 2; call 2]))
  \/ (exists e1 e2 ref,
       answer 1 = PSPError e1 /\ answer 2 = PSPError e2 /\ answer 3 = PspCharged ref
     /\ run = ({| charge_psp_ref := Some ref; charge_status := "SUCCESS" |},
               [call 1; Slept 2; call 2; Slept 4; call 3]))
  \/ (exists e1 e2 e3,
       answer 1 = PSPError e1 /\ answer 2 = PSPError e2 /\ answer 3 = PSPError e3
     /\ run = ({| charge_psp_ref := None; charge_status := "FAILED" |},
               [call 1; Slept 2; call 2; Slept 4; call 3])).
Proof.
  destruct (answer 1) as [r1|e1] eqn:A1.
  { left. exists r1. split; [reflexivity | apply charge_first_attempt, A1]. }
  destruct (answer 2) as [r2|e2] eqn:A2.
  { right; left. exists e1, r2.
    repeat split; eauto using charge_second_attempt. }
  destruct (answer 3) as [r3|e3] eqn:A3.
  { right; right; left. exists e1, e2, r3.
    repeat split; eauto using charge_third_attempt. }
  right; right; right. exists e1, e2, e3.
  repeat split; eauto using charge_exhausted.
Qed.

End Charge.

(** C7, as the code has it.  [charge] calls the provider at most three
    times, attempts 1, 2, 3 in order, sleeping 2 seconds after a failed first
    attempt and 4 after a failed second one.  The first success ends it with
    [SUCCESS] and the provider's reference; three failures end it with
    [FAILED] and no reference.  A non-positive amount is refused by the
    provider stub on every attempt, so it takes the three attempts and both
    sleeps and ends [FAILED]. *)
Theorem charge_retry_policy (psp : Provider) (rider_id : string) (amt : Q)
    (payment_method idempotency_key : string) :
  let answer n := psp n rider_id amt payment_method idempotency_key in
  let result := fst (charge psp rider_id amt payment_method idempotency_key) in
  let log := snd (charge psp rider_id amt payment_method idempotency_key) in
  (exists n : nat, (1 <= n <= 3)%nat
     /\ provider_calls log = take n [1; 2; 3]
     /\ backoff_waits log = take (n - 1) [2; 4])
  /\ (charge_status result = "SUCCESS" \/ charge_status result = "FAILED")
  /\ (charge_status result = "SUCCESS" ->
      exists n ref, 1 <= n <= 3 /\ answer n = PspCharged ref
                    /\ charge_psp_ref result = Some ref)
  /\ ((exists n ref, 1 <= n <= 3 /\ answer n = PspCharged ref) ->
      charge_status result = "SUCCESS" /\ is_Some (charge_psp_ref result))
  /\ ((forall n, 1 <= n <= 3 -> exists e, answer n = PSPError e) ->
      result = {| charge_psp_ref := None; charge_status := "FAILED" |}
      /\ provider_calls log = [1; 2; 3] /\ backoff_waits log = [2; 4])
  /\ (forall hex, psp = _call_psp hex -> (amt <= 0)%Q ->
      result = {| charge_psp_ref := None; charge_status := "FAILED" |}
      /\ provider_calls log = [1; 2; 3] /\ backoff_waits log = [2; 4]).
Proof.
  cbv zeta.
  pose proof (charge_cases psp rider_id amt payment_method idempotency_key) as C.
  assert (All : (forall n, 1 <= n <= 3 ->
                   exists e, psp n rider_id amt payment_method idempotency_key = PSPError e) ->
                charge psp rider_id amt payment_method idempotency_key
                = ({| charge_psp_ref := None; charge_status := "FAILED" |},
                   [CalledPsp 1 rider_id amt payment_method idempotency_key; Slept 2;
                    CalledPsp 2 rider_id amt payment_method idempotency_key; Slept 4;
                    CalledPsp 3 rider_id amt payment_method idempotency_key])).
  { intros H.
    destruct (H 1 ltac:(lia)) as [e1 E1], (H 2 ltac:(lia)) as [e2 E2],
             (H 3 ltac:(lia)) as [e3 E3].
    eapply charge_exhausted; eauto. }
  split; [|split; [|split; [|split; [|split]]]].
  - destruct C as [(r & A & ->) | [(e1 & r & A1 & A2 & ->) | [(e1 & e2 & r & A1 & A2 & A3 & ->)
                  | (e1 & e2 & e3 & A1 & A2 & A3 & ->)]]]; cbn.
    + exists 1%nat. repeat split; lia.
    + exists 2%nat. repeat split; lia.
    + exists 3%nat. repeat split; lia.
    + exists 3%nat. repeat split; lia.
  - destruct C as [(r & A & ->) | [(e1 & r & A1 & A2 & ->) | [(e1 & e2 & r & A1 & A2 & A3 & ->)
                  | (e1 & e2 & e3 & A1 & A2 & A3 & ->)]]]; cbn; auto.
  - destruct C as [(r & A & ->) | [(e1 & r & A1 & A2 & ->) | [(e1 & e2 & r & A1 & A2 & A3 & ->)
                  | (e1 & e2 & e3 & A1 & A2 & A3 & ->)]]]; cbn; intros S.
    + exists 1, r. repeat split; auto; lia.
    + exists 2, r. repeat split; auto; lia.
    + exists 3, r. repeat split; auto; lia.
    + discriminate S.
  - intros (n & ref & Hn & An).
    destruct C as [(r & A & ->) | [(e1 & r & A1 & A2 & ->) | [(e1 & e2 & r & A1 & A2 & A3 & ->)
                  | (e1 & e2 & e3 & A1 & A2 & A3 & ->)]]]; cbn; eauto.
    assert (n = 1 \/ n = 2 \/ n = 3) as [-> | [-> | ->]] by lia; congruence.
  - intros H. rewrite (All H). cbn. auto.
  - intros hex -> Hamt.
    rewrite All; [cbn; auto|].
    intros n _. unfold _call_psp.
    destruct (Qle_bool amt 0) eqn:B; [eauto|].
    apply Qle_bool_iff in Hamt. congruence.
Qed.

(** Scenario 6: two failures, then a success on the third attempt, after
    2 + 4 seconds of back-off. *)
Lemma charge_retry_policy_witness :
  charge flapping_psp "rider" 480 "card" "key"
  = ({| charge_psp_ref := Some "PSP-0123456789AB"; charge_status := "SUCCESS" |},
     [CalledPsp 1 "rider" 480 "card" "key"; Slept 2;
      CalledPsp 2 "rider" 480 "card" "key"; Slept 4;
      CalledPsp 3 "rider" 480 "card" "key"])
  /\ charge_status (fst (charge flapping_psp "rider" 480 "card" "key")) = "SUCCESS"
  /\ fst (charge (_call_psp stub_hex) "rider" 0 "card" "key")
     = {| charge_psp_ref := None; charge_status := "FAILED" |}.
Proof.
  destruct (charge_retry_policy flapping_psp "rider" 480 "card" "key")
    as (_ & _ & _ & S & _).
  destruct (charge_retry_policy (_call_psp stub_hex) "rider" 0 "card" "key")
    as (_ & _ & _ & _ & _ & F).
  split; [reflexivity|]. split.
  - apply S. exists 3, "PSP-0123456789AB". split; [lia | reflexivity].
  - apply (F stub_hex eq_refl). vm_compute. discriminate.
Defined.

(** C7 as stated fails on its last clause: a charge of amount 0 is not
    refused at once with [INVALID]; it calls the provider three times, sleeps
    2 and 4 seconds in between, and ends [FAILED]. *)
Lemma charge_nonpositive_counterexample :
  charge (_call_psp stub_hex) "rider" 0 "card" "key"
  = ({| charge_psp_ref := None; charge_status := "FAILED" |},
     [CalledPsp 1 "rider" 0 "card" "key"; Slept 2;
      CalledPsp 2 "rider" 0 "card" "key"; Slept 4;
      CalledPsp 3 "rider" 0 "card" "key"])
  /\ charge_status (fst (charge (_call_psp stub_hex) "rider" 0 "card" "key")) <> "INVALID"
  /\ backoff_waits (snd (charge (_call_psp stub_hex) "rider" 0 "card" "key")) <> [].
Proof.
  repeat split; try reflexivity; vm_compute; discriminate.
Qed.

(** ** Idempotent replay *)

Lemma truthy_Some (key : string) : key <> "" -> truthy (Some key) = true.
Proof. destruct key; [congruence | reflexivity]. Qed.

Lemma truthy_default (h : option string) : truthy h = true -> h = Some (default "" h).
Proof. destruct h as [[|]|]; simpl; congruence. Qed.

Lemma check_idempotency_hit (key : string) (code : Z) (body : json) (r : Redis) :
  key <> "" ->
  r_json r !! idempotency_cache_key key = Some (stored_response code body) ->
  check_idempotency (Some key) r = Ok (Some (replay_of code body)).
Proof.
  intros Hk Hs. unfold check_idempotency.
  destruct (decide (key = "")) as [E|_]; [contradiction|].
  rewrite Hs. reflexivity.
Qed.

(** A lookup only reads: whatever it answers, an answer of "replay" carries
    the replay header. *)
Lemma check_idempotency_replay_header (h : option string) (r : Redis) (resp : Response) :
  check_idempotency h r = Ok (Some resp) ->
  resp = replay_of (resp_status_code resp) (resp_body resp).
Proof.
  unfold check_idempotency. destruct h as [key|]; [|discriminate].
  destruct (decide (key = "")); [discriminate|].
  destruct (r_json r !! idempotency_cache_key key) as [data|]; [|discriminate].
  destruct (json_get data "body"); [|discriminate].
  destruct (json_get data "status_code") as [[]|]; try discriminate.
  intros [= <-]. reflexivity.
Qed.

Section Replay.

Variable _haversine_km : Q -> Q -> Q -> Q -> Q.
Variable settings : Settings.
Variable psp : Provider.

Lemma create_ride_replay (payload : RideCreateRequest) (rider_id key uuid : string)
    (now code : Z) (body : json) (w : World) :
  key <> "" ->
  r_json (redis w) !! idempotency_cache_key key = Some (stored_response code body) ->
  create_ride _haversine_km settings payload rider_id (Some key) uuid now w
  = (Ok (replay_of code body), w).
Proof.
  intros Hk Hs. unfold create_ride.
  rewrite (truthy_Some _ Hk), (check_idempotency_hit _ _ _ _ Hk Hs). reflexivity.
Qed.

Lemma create_payment_replay (payload : PaymentRequest) (key : string)
    (code : Z) (body : json) (w : World) :
  key <> "" ->
  r_json (redis w) !! idempotency_cache_key key = Some (stored_response code body) ->
  create_payment psp payload (Some key) w = (Ok (replay_of code body), w).
Proof.
  intros Hk Hs. unfold create_payment.
  rewrite (truthy_Some _ Hk), (check_idempotency_hit _ _ _ _ Hk Hs). reflexivity.
Qed.

(** A [create_payment] that answers either changed nothing or left its
    answer stored under the token. *)
Lemma create_payment_outcome (payload : PaymentRequest) (key : option string)
    (w w' : World) (resp : Response) :
  truthy key = true ->
  create_payment psp payload key w = (Ok resp, w') ->
  w' = w
  \/ r_json (redis w') !! idempotency_cache_key (default "" key)
     = Some (stored_response (resp_status_code resp) (resp_body resp)).
Proof.
  intros Hk. unfold create_payment. rewrite Hk.
  repeat (case_split; try discriminate); intros [= <- <-]; auto;
    right; cbn; apply lookup_insert_eq.
Qed.

Lemma create_ride_fresh_or_replayed (payload : RideCreateRequest) (rider_id : string)
    (key : option string) (uuid : string) (now : Z) (w w' : World) (resp : Response) :
  truthy key = true ->
  create_ride _haversine_km settings payload rider_id key uuid now w = (Ok resp, w') ->
  (check_idempotency key (redis w) = Ok (Some resp) /\ w' = w)
  \/ r_json (redis w') !! idempotency_cache_key (default "" key)
     = Some (stored_response (resp_status_code resp) (resp_body resp)).
Proof.
  intros Hk. unfold create_ride. rewrite Hk.
  repeat (case_split; try discriminate); intros [= <- <-]; auto.
  right. cbn. apply lookup_insert_eq.
Qed.

(** C10.  A request whose token is already stored gets the stored response
    back, status code and body as stored, with the replay header, and the
    state of the deployment (rows, cache, provider calls, background tasks) is
    the one before the request.  So a ride-create or payment-create call that
    answered, sent again with its token, answers with the same status code and
    body and changes nothing. *)
Theorem idempotent_replay (key : string) (code : Z) (body : json) (w : World) :
  key <> "" ->
  r_json (redis w) !! idempotency_cache_key key = Some (stored_response code body) ->
  (forall payload rider_id uuid now,
     create_ride _haversine_km settings payload rider_id (Some key) uuid now w
     = (Ok (replay_of code body), w))
  /\ (forall payload,
        create_payment psp payload (Some key) w = (Ok (replay_of code body), w))
  /\ (forall payload rider_id uuid now w0 w1 resp,
        create_ride _haversine_km settings payload rider_id (Some key) uuid now w0
        = (Ok resp, w1) ->
        forall payload' rider_id' uuid' now',
          create_ride _haversine_km settings payload' rider_id' (Some key) uuid' now' w1
          = (Ok (replay_of (resp_status_code resp) (resp_body resp)), w1))
  /\ (forall payload w0 w1 resp,
        create_payment psp payload (Some key) w0 = (Ok resp, w1) ->
        exists resp',
          create_payment psp payload (Some key) w1 = (Ok resp', w1)
          /\ resp_status_code resp' = resp_status_code resp
          /\ resp_body resp' = resp_body resp).
Proof.
  intros Hk Hs. pose proof (truthy_Some _ Hk) as Ht.
  split; [intros; apply create_ride_replay; assumption|].
  split; [intros; apply create_payment_replay; assumption|].
  split.
  - intros payload rider_id uuid now w0 w1 resp H payload' rider_id' uuid' now'.
    destruct (create_ride_fresh_or_replayed _ _ _ _ _ _ _ _ Ht H) as [[C ->]|S].
    + unfold create_ride. rewrite Ht, C.
      rewrite <- (check_idempotency_replay_header _ _ _ C). reflexivity.
    + apply create_ride_replay; assumption.
  - intros payload w0 w1 resp H.
    destruct (create_payment_outcome _ _ _ _ _ Ht H) as [->|S].
    + exists resp. rewrite H. auto.
    + exists (replay_of (resp_status_code resp) (resp_body resp)).
      split; [apply create_payment_replay; assumption | auto].
Qed.

End Replay.

(** The same ride request sent twice with the token "k1": the second answer
    is the stored one and nothing else happens. *)
Lemma idempotent_replay_witness :
  let first := create_ride flat_haversine_km default_settings demo_ride_request
                 "rider-1" (Some "k1") "ride-1" 0 world_empty in
  exists resp,
    fst first = Ok resp
    /\ create_ride flat_haversine_km default_settings demo_ride_request
         "rider-1" (Some "k1") "ride-2" 9 (snd first)
       = (Ok (replay_of 201 (resp_body resp)), snd first).
Proof.
  cbv zeta. eexists. split; [vm_compute; reflexivity|].
  refine (proj1 (idempotent_replay flat_haversine_km default_settings failing_psp
                   "k1" 201 _ _ _ _) demo_ride_request "rider-1" "ride-2" 9).
  - discriminate.
  - vm_compute. reflexivity.
Defined.

(** ** The happy path, evaluated *)

Example demo_matched :
  ride_status <$> rides (db demo_w5) !! "ride-1" = Some "MATCHED"
  /\ ride_driver_id <$> rides (db demo_w5) !! "ride-1" = Some (Some "driver-1")
  /\ driver_status <$> drivers (db demo_w5) !! "driver-1" = Some "on_trip"
  /\ trip_status <$> trips (db demo_w5) !! "trip-1" = Some "ACTIVE".
Proof. vm_compute. auto. Qed.

Example demo_trip_ended :
  ride_status <$> rides (db demo_w7) !! "ride-1" = Some "PAYMENT_PENDING"
  /\ driver_status <$> drivers (db demo_w7) !! "driver-1" = Some "available"
  /\ total_fare <$> trips (db demo_w7) !! "trip-1" = Some (Some (3000 # 100)%Q)
  /\ payment_status <$> payments (db demo_w7) !! "pay-1" = Some "PENDING".
Proof. vm_compute. auto. Qed.

(** ** Payment flow *)

Lemma filter_none {A} (P : A -> Prop) `{forall x, Decision (P x)} (l : list A) :
  (forall x, x ∈ l -> ~ P x) -> filter P l = [].
Proof.
  induction l as [|a l IH]; intros Hl; [reflexivity|].
  rewrite filter_cons_False by (apply Hl; left).
  apply IH. intros x Hx. apply Hl. right. exact Hx.
Qed.

Lemma select_where_none {A} (f : A -> bool) (table : gmap string A) :
  select_where f table = [] ->
  forall k v, table !! k = Some v -> f v <> true.
Proof.
  intros Hnil k v Hl Hf. unfold select_where in Hnil.
  apply (filter_nil_not_elem_of _ _ (k, v) Hnil); [exact Hf|].
  apply elem_of_map_to_list. exact Hl.
Qed.

Lemma check_idempotency_miss (key : option string) (r : Redis) :
  (truthy key = true -> r_json r !! idempotency_cache_key (default "" key) = None) ->
  (if truthy key then check_idempotency key r else Ok None) = Ok None.
Proof.
  intros H. destruct (truthy key) eqn:T; [|reflexivity].
  specialize (H eq_refl). rewrite (truthy_default _ T). unfold check_idempotency.
  destruct (decide (default "" key = "")); [reflexivity|]. rewrite H. reflexivity.
Qed.

Section PaymentFlow.

Variable psp : Provider.
Variables (payload : PaymentRequest) (idempotency_key : option string) (w : World).
Variables (trip : Trip) (pid : string) (payment : Payment).

(** The request is not a replay, the trip has ended, and it has its one
    payment row. *)
Hypothesis not_stored :
  truthy idempotency_key = true ->
  r_json (redis w) !! idempotency_cache_key (default "" idempotency_key) = None.
Hypothesis trip_found : trips (db w) !! preq_trip_id payload = Some trip.
Hypothesis trip_completed : trip_status trip = "COMPLETED".
Hypothesis payment_found :
  select_where (fun p => bool_decide (payment_trip_id p = preq_trip_id payload))
    (payments (db w)) = [(pid, payment)].

Let outcome : Result Response * World := create_payment psp payload idempotency_key w.

Lemma create_payment_already_paid :
  payment_status payment = "SUCCESS" ->
  outcome = (Ok {| resp_status_code := 200;
                   resp_body := payment_body pid payment;
                   resp_headers := [] |}, w).
Proof.
  intros Hs. unfold outcome, create_payment.
  rewrite (check_idempotency_miss _ _ not_stored), trip_found.
  destruct (decide (trip_status trip = "COMPLETED")); [|contradiction].
  rewrite payment_found. cbn [scalar_one_or_none].
  destruct (decide (payment_status payment = "SUCCESS")); [reflexivity|contradiction].
Qed.

Lemma create_payment_mismatch (server_amount : Q) :
  payment_status payment <> "SUCCESS" ->
  total_fare trip = Some server_amount ->
  (1 # 100 < Qabs (preq_amount payload - server_amount))%Q ->
  outcome = (Raise (HTTPException INVALID "Amount mismatch"), w).
Proof.
  intros Hs Hf Hm. unfold outcome, create_payment.
  rewrite (check_idempotency_miss _ _ not_stored), trip_found.
  destruct (decide (trip_status trip = "COMPLETED")); [|contradiction].
  rewrite payment_found. cbn [scalar_one_or_none].
  destruct (decide (payment_status payment = "SUCCESS")); [contradiction|].
  rewrite Hf. destruct (Qlt_le_dec _ _); [reflexivity|]. exfalso; lra.
Qed.

Lemma create_payment_charged (server_amount : Q) (rd : Ride) :
  payment_status payment <> "SUCCESS" ->
  total_fare trip = Some server_amount ->
  (Qabs (preq_amount payload - server_amount) <= 1 # 100)%Q ->
  let charged := charge psp (trip_rider_id trip) server_amount
                   (payment_method_value (preq_payment_method payload))
                   (if truthy idempotency_key then default "" idempotency_key else pid) in
  psp_log (snd outcome) = psp_log w ++ snd charged
  /\ ((forall other p, other <> pid -> payments (db w) !! other = Some p ->
         idempotency_key <> None -> payment_idempotency_key p <> idempotency_key) ->
      rides (db w) !! trip_ride_id trip = Some rd ->
      fst outcome = Ok {| resp_status_code := 200;
                          resp_body := payment_body pid
                                         (charged_payment payment idempotency_key (fst charged));
                          resp_headers := [] |}
      /\ payments (db (snd outcome))
         = <[pid := charged_payment payment idempotency_key (fst charged)]> (payments (db w))
      /\ rides (db (snd outcome))
         = <[trip_ride_id trip := set_ride_status (ride_status_after (fst charged)) rd]>
             (rides (db w))
      /\ trips (db (snd outcome)) = trips (db w)
      /\ drivers (db (snd outcome)) = drivers (db w)).
Proof.
  intros Hs Hf Hm. cbv zeta. unfold outcome, create_payment.
  rewrite (check_idempotency_miss _ _ not_stored), trip_found.
  destruct (decide (trip_status trip = "COMPLETED")); [|contradiction].
  rewrite payment_found. cbn [scalar_one_or_none].
  destruct (decide (payment_status payment = "SUCCESS")); [contradiction|].
  rewrite Hf. destruct (Qlt_le_dec _ _) as [L|_]; [exfalso; lra|].
  destruct (charge psp _ _ _ _) as [result events]. cbn [fst snd].
  split.
  { repeat (case_split; try discriminate); reflexivity. }
  intros Hfresh Hride.
  assert (T : match idempotency_key with
              | None => []
              | Some _ =>
                  select_where
                    (fun p => bool_decide (payment_idempotency_key p = idempotency_key))
                    (delete pid (payments (db (with_psp_log (psp_log w ++ events) w))))
              end = []).
  { destruct idempotency_key as [k|] eqn:K; [|reflexivity].
    unfold select_where. apply filter_none.
    intros [other p] Hin. apply elem_of_map_to_list in Hin.
    apply lookup_delete_Some in Hin as [Hne Hl]. cbn [snd db with_psp_log] in *.
    rewrite bool_decide_eq_true. intros E.
    apply (Hfresh other p); auto. }
  rewrite T. cbn [db with_psp_log rides set_payments]. rewrite Hride.
  unfold ride_status_after, charged_payment.
  repeat (case_split; try discriminate); cbn; auto.
Qed.

Lemma create_payment_charges_only_after_checks :
  psp_log (snd outcome) <> psp_log w ->
  payment_status payment <> "SUCCESS"
  /\ exists server_amount,
       total_fare trip = Some server_amount
       /\ (Qabs (preq_amount payload - server_amount) <= 1 # 100)%Q.
Proof.
  intros Hlog.
  destruct (decide (payment_status payment = "SUCCESS")) as [S|S].
  { exfalso. apply Hlog. rewrite (create_payment_already_paid S). reflexivity. }
  split; [exact S|].
  destruct (total_fare trip) as [server_amount|] eqn:F.
  - exists server_amount. split; [reflexivity|].
    destruct (Qlt_le_dec (1 # 100) (Qabs (preq_amount payload - server_amount))) as [L|L];
      [|exact L].
    exfalso. apply Hlog. rewrite (create_payment_mismatch server_amount S F L). reflexivity.
  - exfalso. apply Hlog. unfold outcome, create_payment.
    rewrite (check_idempotency_miss _ _ not_stored), trip_found.
    destruct (decide (trip_status trip = "COMPLETED")); [|contradiction].
    rewrite payment_found. cbn [scalar_one_or_none].
    destruct (decide (payment_status payment = "SUCCESS")); [contradiction|].
    rewrite F. reflexivity.
Qed.


End PaymentFlow.


(** ** Cache keys *)

Lemma string_length_app (s t : string) :
  String.length (s +:+ t) = (String.length s + String.length t)%nat.
Proof. induction s as [|a s IH]; simpl; [reflexivity | rewrite IH; reflexivity]. Qed.

Lemma string_app_inj_r (s1 s2 t : string) : s1 +:+ t = s2 +:+ t -> s1 = s2.
Proof.
  revert s2. induction s1 as [|a s1 IH]; intros [|b s2] H; simpl in H.
  - reflexivity.
  - apply (f_equal String.length) in H. rewrite !string_length_app in H.
    cbn [String.length] in H. lia.
  - apply (f_equal String.length) in H. rewrite !string_length_app in H.
    cbn [String.length] in H. lia.
  - injection H as -> H. f_equal. apply IH, H.
Qed.

Lemma lock_key_inj (d1 d2 : string) : lock_key d1 = lock_key d2 -> d1 = d2.
Proof.
  unfold lock_key. intros H. apply String.app_inj in H. apply string_app_inj_r in H. exact H.
Qed.

Lemma lock_key_not_demand_key (d tier : string) : lock_key d <> demand_key tier.
Proof. unfold lock_key, demand_key. simpl. discriminate. Qed.

Lemma ride_status_key_not_demand_key (ride tier : string) :
  ride_status_key ride <> demand_key tier.
Proof. unfold ride_status_key, demand_key. simpl. discriminate. Qed.

Lemma lock_key_not_geo_key (d tier : string) : lock_key d <> geo_key tier.
Proof.
  unfold lock_key, geo_key. simpl. intros H. injection H as H.
  destruct d; discriminate.
Qed.

Lemma ride_status_key_not_geo_key (ride tier : string) : ride_status_key ride <> geo_key tier.
Proof. unfold ride_status_key, geo_key. simpl. discriminate. Qed.

(** ** Matching *)

Section Matching.

Variable geo_distance_km : Q * Q -> Q * Q -> Q.
Variable settings : Settings.

(** The matcher never touches the demand counters. *)
Lemma matching_loop_demand (ride trip_uuid : string) (now : Z) (tier : string)
    (candidates : list string) (w : World) :
  r_int (redis (snd (matching_loop ride trip_uuid now candidates w))) !! demand_key tier
  = r_int (redis w) !! demand_key tier.
Proof.
  revert w. induction candidates as [|driver rest IH]; intros w; cbn [matching_loop].
  - reflexivity.
  - destruct (r_str (redis w) !! lock_key driver); [apply IH|].
    destruct (drivers (db _) !! driver) as [drv|].
    + destruct (decide (driver_status drv = "available")) as [Hav|Hav].
      * destruct (_assign_driver _ _ _ _ _) as [[[|]|exc] d].
        -- cbn. apply lookup_delete_ne, ride_status_key_not_demand_key.
        -- rewrite IH. reflexivity.
        -- rewrite IH. cbn. apply lookup_delete_ne, lock_key_not_demand_key.
      * rewrite IH. cbn. apply lookup_delete_ne, lock_key_not_demand_key.
    + rewrite IH. cbn. apply lookup_delete_ne, lock_key_not_demand_key.
Qed.

Lemma run_matching_demand (ride : string) (lat lng : Q) (tier trip_uuid : string)
    (now : Z) (t : string) (w : World) :
  r_int (redis (snd (run_matching geo_distance_km settings ride lat lng tier trip_uuid now w)))
    !! demand_key t
  = r_int (redis w) !! demand_key t.
Proof.
  unfold run_matching. destruct (geo_nearby_drivers _ _ _ _ _ _ _); [reflexivity|].
  apply matching_loop_demand.
Qed.

End Matching.

Section Demand.

Variable _haversine_km : Q -> Q -> Q -> Q -> Q.
Variable geo_distance_km : Q * Q -> Q * Q -> Q.
Variable settings : Settings.

(** C9, on the code.  A ride creation that is not a replay adds one to the
    tier's demand counter, and the matching that follows, whether it assigns a
    driver or cancels the ride, leaves the counter there: it does not return
    to its prior value. *)
Theorem demand_stays_incremented (payload : RideCreateRequest) (rider_id : string)
    (key : option string) (uuid : string) (now : Z) (trip_uuid : string) (now' : Z)
    (w w1 : World) (resp : Response) :
  (truthy key = true ->
   r_json (redis w) !! idempotency_cache_key (default "" key) = None) ->
  create_ride _haversine_km settings payload rider_id key uuid now w = (Ok resp, w1) ->
  let tier := tier_value (req_tier payload) in
  let prior := default 0 (r_int (redis w) !! demand_key tier) in
  let w2 := snd (run_matching geo_distance_km settings uuid
                   (req_pickup_lat payload) (req_pickup_lng payload) tier
                   trip_uuid now' w1) in
  tasks w1 = tasks w ++ [MatchingTask uuid (req_pickup_lat payload)
                           (req_pickup_lng payload) tier]
  /\ r_int (redis w1) !! demand_key tier = Some (prior + 1)
  /\ r_int (redis w2) !! demand_key tier = Some (prior + 1)
  /\ r_int (redis w2) !! demand_key tier <> Some prior.
Proof.
  intros Hmiss Hc. cbv zeta.
  rewrite run_matching_demand.
  assert (H1 : tasks w1 = tasks w ++ [MatchingTask uuid (req_pickup_lat payload)
                                        (req_pickup_lng payload)
                                        (tier_value (req_tier payload))]
               /\ r_int (redis w1) !! demand_key (tier_value (req_tier payload))
                  = Some (default 0 (r_int (redis w) !! demand_key (tier_value (req_tier payload)))
                          + 1)).
  { revert Hc. unfold create_ride. rewrite (check_idempotency_miss _ _ Hmiss).
    repeat (case_split; try discriminate); intros [= <- <-]; cbn;
      (split; [reflexivity | apply lookup_insert_eq]). }
  destruct H1 as [Ht Hd]. rewrite Hd.
  repeat split; auto. intros [= E]. lia.
Qed.

End Demand.

(** The demo's ride: the counter of the standard tier goes from 0 to 1 at
    creation and is still 1 once the ride is matched. *)
Lemma demand_stays_incremented_witness :
  r_int (redis demo_w3) !! demand_key "standard" = None
  /\ ride_status <$> rides (db demo_w5) !! "ride-1" = Some "MATCHED"
  /\ r_int (redis demo_w5) !! demand_key "standard" = Some 1.
Proof.
  split; [vm_compute; reflexivity|]. split; [vm_compute; reflexivity|].
  epose proof (demand_stays_incremented flat_haversine_km flat_geo_distance_km
                 default_settings demo_ride_request "rider-1" (Some "k1") "ride-1" 10
                 "trip-1" 11 demo_w3 demo_w4 _
                 ltac:(intros _; vm_compute; reflexivity)
                 ltac:(vm_compute; reflexivity)) as (_ & _ & H & _).
  exact H.
Defined.

(** ** A matcher that finds the ride no longer REQUESTED *)

Section Race.

Variable geo_distance_km : Q * Q -> Q * Q -> Q.
Variable settings : Settings.
Variables (ride trip_uuid : string) (now : Z).

Lemma _assign_driver_not_requested (driver : string) (d : DB) :
  not_requested ride d -> _assign_driver ride driver trip_uuid now d = (Ok false, d).
Proof.
  intros H. unfold _assign_driver.
  destruct (drivers d !! driver) as [drv|]; [|reflexivity].
  destruct (decide (driver_status drv = "available")); [|reflexivity].
  destruct (rides d !! ride) as [rd|] eqn:R; [|reflexivity].
  destruct (decide (ride_status rd = "REQUESTED")) as [E|_]; [|reflexivity].
  exfalso. exact (H rd R E).
Qed.

(** The loop runs to its end and cancels. *)
Lemma matching_loop_not_requested (candidates : list string) (w : World) :
  not_requested ride (db w) ->
  fst (matching_loop ride trip_uuid now candidates w) = false
  /\ db (snd (matching_loop ride trip_uuid now candidates w)) = _cancel_ride ride (db w).
Proof.
  revert w. induction candidates as [|driver rest IH]; intros w H; cbn [matching_loop].
  - split; reflexivity.
  - destruct (r_str (redis w) !! lock_key driver); [apply IH, H|].
    cbn [db with_redis].
    assert (Next : forall r,
               fst (matching_loop ride trip_uuid now rest (with_redis r w)) = false
               /\ db (snd (matching_loop ride trip_uuid now rest (with_redis r w)))
                  = _cancel_ride ride (db w)).
    { intros r. exact (IH (with_redis r w) H). }
    destruct (drivers (db w) !! driver) as [drv|]; [|apply Next].
    destruct (decide (driver_status drv = "available")) as [Hav|Hav]; [|apply Next].
    rewrite (_assign_driver_not_requested driver (db w) H). apply Next.
Qed.

(** A lock that is held stays held. *)
Lemma matching_loop_keeps_lock (d holder : string) (candidates : list string) (w : World) :
  not_requested ride (db w) ->
  r_str (redis w) !! lock_key d = Some holder ->
  r_str (redis (snd (matching_loop ride trip_uuid now candidates w))) !! lock_key d
  = Some holder.
Proof.
  revert w. induction candidates as [|driver rest IH]; intros w H Hl; cbn [matching_loop].
  - exact Hl.
  - destruct (r_str (redis w) !! lock_key driver) eqn:L; [apply IH; assumption|].
    assert (Hne : lock_key driver <> lock_key d) by congruence.
    cbn [db with_redis].
    assert (Kept : r_str (set_r_str (<[lock_key driver := ride]>) (redis w)) !! lock_key d
                   = Some holder).
    { cbn. rewrite lookup_insert_ne by exact Hne. exact Hl. }
    assert (Released :
              r_str (cache_delete (set_r_str (<[lock_key driver := ride]>) (redis w))
                       (lock_key driver)) !! lock_key d = Some holder).
    { cbn. rewrite lookup_delete_ne, lookup_insert_ne by exact Hne. exact Hl. }
    destruct (drivers (db w) !! driver) as [drv|]; [|apply IH; assumption].
    destruct (decide (driver_status drv = "available")) as [Hav|Hav];
      [|apply IH; assumption].
    rewrite (_assign_driver_not_requested driver (db w) H). apply IH; assumption.
Qed.

(** A free candidate whose row says "available" is locked and stays locked. *)
Lemma matching_loop_leaves_lock (d : string) (drv : Driver) (candidates : list string)
    (w : World) :
  not_requested ride (db w) ->
  d ∈ candidates ->
  r_str (redis w) !! lock_key d = None ->
  drivers (db w) !! d = Some drv ->
  driver_status drv = "available" ->
  r_str (redis (snd (matching_loop ride trip_uuid now candidates w))) !! lock_key d
  = Some ride.
Proof.
  revert w. induction candidates as [|driver rest IH]; intros w H Hin Hl Hd Hs.
  - inversion Hin.
  - cbn [matching_loop].
    destruct (decide (driver = d)) as [->|Hne].
    + rewrite Hl. cbn [db with_redis]. rewrite Hd.
      destruct (decide (driver_status drv = "available")); [|contradiction].
      rewrite (_assign_driver_not_requested d (db w) H).
      apply matching_loop_keeps_lock; [exact H|]. cbn. apply lookup_insert_eq.
    + assert (Hin' : d ∈ rest).
      { apply elem_of_cons in Hin as [E|E]; [congruence | exact E]. }
      assert (Hk : lock_key driver <> lock_key d).
      { intros E. apply Hne, lock_key_inj, E. }
      destruct (r_str (redis w) !! lock_key driver) eqn:L; [apply IH; assumption|].
      cbn [db with_redis].
      assert (Kept : r_str (set_r_str (<[lock_key driver := ride]>) (redis w)) !! lock_key d
                     = None).
      { cbn. rewrite lookup_insert_ne by exact Hk. exact Hl. }
      assert (Released :
                r_str (cache_delete (set_r_str (<[lock_key driver := ride]>) (redis w))
                         (lock_key driver)) !! lock_key d = None).
      { cbn. rewrite lookup_delete_ne, lookup_insert_ne by exact Hk. exact Hl. }
      destruct (drivers (db w) !! driver) as [drv'|]; [|apply IH; assumption].
      destruct (decide (driver_status drv' = "available")) as [Hav|Hav];
        [|apply IH; assumption].
      rewrite (_assign_driver_not_requested driver (db w) H). apply IH; assumption.
Qed.

(** C1, on the code.  When the ride is not (or no longer) [REQUESTED], the
    matcher does not stop at the first candidate: it goes through all of them,
    returns failure, and writes [CANCELLED] over whatever status the ride has;
    and every candidate it could lock and found available stays locked. *)
Theorem second_matcher_cancels (lat lng : Q) (tier : string) (w : World) :
  not_requested ride (db w) ->
  let out := run_matching geo_distance_km settings ride lat lng tier trip_uuid now w in
  let candidates :=
    geo_nearby_drivers geo_distance_km (redis w) tier lat lng (matching_radius_km settings)
      (matching_max_retries settings * 5) in
  fst out = false
  /\ db (snd out) = _cancel_ride ride (db w)
  /\ (forall rd, rides (db w) !! ride = Some rd ->
        rides (db (snd out)) !! ride = Some (set_ride_status "CANCELLED" rd))
  /\ (forall d drv,
        d ∈ candidates ->
        r_str (redis w) !! lock_key d = None ->
        drivers (db w) !! d = Some drv ->
        driver_status drv = "available" ->
        r_str (redis (snd out)) !! lock_key d = Some ride).
Proof.
  intros H. cbv zeta. unfold run_matching.
  destruct (geo_nearby_drivers _ _ _ _ _ _ _) as [|c cs] eqn:G.
  - cbn. repeat split.
    + intros rd R. rewrite lookup_alter_eq, R. reflexivity.
    + intros d drv Hin. inversion Hin.
  - destruct (matching_loop_not_requested (c :: cs) w H) as [F D].
    split; [exact F|]. split; [exact D|]. split.
    + intros rd R. rewrite D. cbn. rewrite lookup_alter_eq, R. reflexivity.
    + intros d drv Hin Hl Hd Hs. eapply matching_loop_leaves_lock; eauto.
Qed.

End Race.

(** Two drivers at the pickup point.  The first matcher assigns driver-1; a
    second matcher on the same ride then cancels the matched ride, while
    driver-1 stays on the trip, and leaves driver-2 locked. *)
Lemma second_matcher_cancels_witness :
  ride_status <$> rides (db race_w5) !! "ride-1" = Some "MATCHED"
  /\ ride_status <$> rides (db race_w6) !! "ride-1" = Some "CANCELLED"
  /\ driver_status <$> drivers (db race_w6) !! "driver-1" = Some "on_trip"
  /\ trip_status <$> trips (db race_w6) !! "trip-1" = Some "ACTIVE"
  /\ r_str (redis race_w5) !! lock_key "driver-2" = None
  /\ r_str (redis race_w6) !! lock_key "driver-2" = Some "ride-1".
Proof.
  assert (H : not_requested "ride-1" (db race_w5)).
  { intros rd R. vm_compute in R. injection R as <-. discriminate. }
  pose proof (second_matcher_cancels flat_geo_distance_km default_settings
                "ride-1" "trip-2" 12 13 77 "standard" race_w5 H) as (_ & _ & C & L).
  split; [vm_compute; reflexivity|].
  split.
  { unfold race_w6. erewrite C by (vm_compute; reflexivity). reflexivity. }
  split; [vm_compute; reflexivity|]. split; [vm_compute; reflexivity|].
  split; [vm_compute; reflexivity|].
  unfold race_w6. eapply L.
  - apply list_elem_of_In. vm_compute. right. left. reflexivity.
  - vm_compute. reflexivity.
  - vm_compute. reflexivity.
  - reflexivity.
Defined.

(** ** The Geo Index *)

Lemma geo_key_inj (t1 t2 : string) : geo_key t1 = geo_key t2 -> t1 = t2.
Proof. unfold geo_key. apply String.app_inj. Qed.

Lemma geo_member_position (r : Redis) (t d : string) (pos : Q * Q) :
  (r_geo r !! geo_key t) ≫= (fun z => z !! d) = Some pos -> geo_member r t d.
Proof.
  intros H. unfold geo_member. destruct (r_geo r !! geo_key t) as [z|]; [|discriminate].
  exists z. split; [reflexivity|]. cbn in H. rewrite H. eauto.
Qed.

Lemma geo_add_driver_member (r : Redis) (tier driver : string) (lat lng : Q)
    (t d : string) :
  geo_member (geo_add_driver r tier driver lat lng) t d
  <-> geo_member r t d \/ (t = tier /\ d = driver).
Proof.
  unfold geo_member, geo_add_driver. cbn.
  destruct (decide (t = tier)) as [->|Ht].
  - rewrite lookup_insert_eq. split.
    + intros (z & [= <-] & Hz).
      destruct (decide (d = driver)) as [->|Hd]; [right; auto|].
      rewrite lookup_insert_ne in Hz by congruence.
      left. destruct (r_geo r !! geo_key tier) as [z|] eqn:G.
      * exists z. auto.
      * cbn in Hz. rewrite lookup_empty in Hz. destruct Hz as [? ?]; discriminate.
    + intros [(z & G & Hz) | [_ ->]]; eexists; (split; [reflexivity|]).
      * rewrite G. cbn. destruct (decide (d = driver)) as [->|Hd];
          [rewrite lookup_insert_eq; eauto | rewrite lookup_insert_ne by congruence; exact Hz].
      * rewrite lookup_insert_eq. eauto.
  - rewrite lookup_insert_ne by (intros E; apply Ht; symmetry; apply geo_key_inj, E).
    split; [auto | intros [H|[? _]]; [exact H | contradiction]].
Qed.

Lemma matching_loop_geo (ride trip_uuid : string) (now : Z) (t : string)
    (candidates : list string) (w : World) :
  r_geo (redis (snd (matching_loop ride trip_uuid now candidates w))) !! geo_key t
  = r_geo (redis w) !! geo_key t.
Proof.
  revert w. induction candidates as [|driver rest IH]; intros w; cbn [matching_loop].
  - reflexivity.
  - destruct (r_str (redis w) !! lock_key driver); [apply IH|].
    destruct (drivers (db _) !! driver) as [drv|].
    + destruct (decide (driver_status drv = "available")) as [Hav|Hav].
      * destruct (_assign_driver _ _ _ _ _) as [[[|]|exc] d].
        -- cbn. apply lookup_delete_ne, ride_status_key_not_geo_key.
        -- rewrite IH. reflexivity.
        -- rewrite IH. cbn. apply lookup_delete_ne, lock_key_not_geo_key.
      * rewrite IH. cbn. apply lookup_delete_ne, lock_key_not_geo_key.
    + rewrite IH. cbn. apply lookup_delete_ne, lock_key_not_geo_key.
Qed.

Section Assignment.

Variables (ride trip_uuid : string) (now : Z).

(** What a successful assignment found and what it wrote. *)
Lemma _assign_driver_assigned (driver : string) (d d' : DB) :
  _assign_driver ride driver trip_uuid now d = (Ok true, d') ->
  exists drv rd,
    drivers d !! driver = Some drv
    /\ driver_status drv = "available"
    /\ rides d !! ride = Some rd
    /\ ride_status rd = "REQUESTED"
    /\ drivers d' = <[driver := set_driver_status "on_trip" drv]> (drivers d)
    /\ rides d' = <[ride := set_ride_driver driver (set_ride_status "MATCHED" rd)]> (rides d)
    /\ trip_status <$> trips d' !! trip_uuid = Some "ACTIVE"
    /\ payments d' = payments d.
Proof.
  unfold _assign_driver.
  destruct (drivers d !! driver) as [drv|]; [|discriminate].
  destruct (decide (driver_status drv = "available")) as [Hav|]; [|discriminate].
  destruct (rides d !! ride) as [rd|]; [|discriminate].
  destruct (decide (ride_status rd = "REQUESTED")) as [Hreq|]; [|discriminate].
  destruct (trips d !! trip_uuid); [discriminate|].
  destruct (select_where _ _); [|discriminate].
  intros [= <-]. exists drv, rd. cbn. rewrite lookup_insert_eq. auto 10.
Qed.

(** A matcher that reports success assigned one of its candidates, on the
    rows as they were when it started. *)
Lemma matching_loop_assigned (candidates : list string) (w : World) :
  fst (matching_loop ride trip_uuid now candidates w) = true ->
  exists driver,
    driver ∈ candidates
    /\ _assign_driver ride driver trip_uuid now (db w)
       = (Ok true, db (snd (matching_loop ride trip_uuid now candidates w))).
Proof.
  revert w. induction candidates as [|driver rest IH]; intros w; cbn [matching_loop].
  - discriminate.
  - assert (Next : forall r,
              fst (matching_loop ride trip_uuid now rest (with_redis r w)) = true ->
              exists driver0,
                driver0 ∈ driver :: rest
                /\ _assign_driver ride driver0 trip_uuid now (db w)
                   = (Ok true,
                      db (snd (matching_loop ride trip_uuid now rest (with_redis r w))))).
    { intros r H. destruct (IH (with_redis r w) H) as (x & Hin & Hx).
      exists x. split; [right; exact Hin | exact Hx]. }
    destruct (r_str (redis w) !! lock_key driver).
    { intros H. destruct (IH w H) as (x & Hin & Hx).
      exists x. split; [right; exact Hin | exact Hx]. }
    cbn [db with_redis].
    destruct (drivers (db w) !! driver) as [drv|]; [|apply Next].
    destruct (decide (driver_status drv = "available")) as [Hav|Hav]; [|apply Next].
    destruct (_assign_driver ride driver trip_uuid now (db w)) as [[[|]|exc] d] eqn:A.
    + intros _. exists driver. split; [left|]. cbn. exact A.
    + apply Next.
    + apply Next.
Qed.

End Assignment.

Section GeoIndex.

Variable _haversine_km : Q -> Q -> Q -> Q -> Q.
Variable geo_distance_km : Q * Q -> Q * Q -> Q.
Variable settings : Settings.
Variable psp : Provider.

Ltac geo_unchanged :=
  repeat (case_split; try discriminate); cbn;
  rewrite ?lookup_delete_ne
    by first [apply ride_status_key_not_geo_key | apply lock_key_not_geo_key];
  reflexivity.

(** Only a location ping writes to the Geo Index. *)
Lemma step_geo_unchanged (op : Op) (w : World) (t : string) :
  (forall driver payload, op <> UpdateLocation driver payload) ->
  r_geo (redis (step _haversine_km geo_distance_km settings psp op w)) !! geo_key t
  = r_geo (redis w) !! geo_key t.
Proof.
  intros Hop. destruct op; cbn [step].
  - unfold create_driver. geo_unchanged.
  - unfold update_driver_status. geo_unchanged.
  - exfalso. eapply Hop. reflexivity.
  - reflexivity.
  - unfold accept_ride. geo_unchanged.
  - unfold create_ride. geo_unchanged.
  - unfold run_matching. case_split; [reflexivity|]. apply matching_loop_geo.
  - unfold end_trip. geo_unchanged.
  - unfold create_payment. geo_unchanged.
Qed.

Lemma update_location_members (driver : string) (payload : LocationUpdateRequest)
    (w : World) (t d : string) :
  geo_member (redis w) t d ->
  geo_member (redis (snd (update_location driver payload w))) t d.
Proof.
  intros H. unfold update_location.
  repeat (case_split; try discriminate); cbn [snd redis spawn with_redis];
    try exact H; try (apply geo_add_driver_member; left; exact H).
Qed.

Lemma update_location_miss (driver : string) (payload : LocationUpdateRequest)
    (w : World) (row : Driver) (t d : string) :
  r_str (redis w) !! tier_key driver = None \/ r_str (redis w) !! tier_key driver = Some "" ->
  drivers (db w) !! driver = Some row ->
  geo_member (redis (snd (update_location driver payload w))) t d
  <-> geo_member (redis w) t d
      \/ (t = driver_tier row /\ d = driver /\ driver_status row = "available").
Proof.
  intros Hmiss Hrow. unfold update_location.
  assert (C : match r_str (redis w) !! tier_key driver with
              | Some "" | None => None
              | Some tier => Some tier
              end = None) by (destruct Hmiss as [-> | ->]; reflexivity).
  rewrite C, Hrow. cbn [snd redis spawn with_redis].
  destruct (decide (driver_status row = "available")) as [Hav|Hav].
  - rewrite geo_add_driver_member. unfold geo_member. cbn. tauto.
  - unfold geo_member. cbn. tauto.
Qed.


End GeoIndex.



(** ** The ride state machine *)

Lemma reachable_MATCHED : reachable "MATCHED".
Proof. eapply reachable_step; [apply reachable_start | vm_compute; reflexivity]. Qed.

Lemma reachable_CANCELLED : reachable "CANCELLED".
Proof. eapply reachable_step; [apply reachable_start | vm_compute; reflexivity]. Qed.

Lemma reachable_DRIVER_EN_ROUTE : reachable "DRIVER_EN_ROUTE".
Proof. eapply reachable_step; [apply reachable_MATCHED | vm_compute; reflexivity]. Qed.

Lemma reachable_PAYMENT_PENDING : reachable "PAYMENT_PENDING".
Proof.
  apply reachable_step with "TRIP_ENDED"; [|vm_compute; reflexivity].
  apply reachable_step with "TRIP_STARTED"; [|vm_compute; reflexivity].
  eapply reachable_step; [apply reachable_DRIVER_EN_ROUTE | vm_compute; reflexivity].
Qed.

Lemma reachable_COMPLETED : reachable "COMPLETED".
Proof. eapply reachable_step; [apply reachable_PAYMENT_PENDING | vm_compute; reflexivity]. Qed.

Lemma reachable_PAYMENT_FAILED : reachable "PAYMENT_FAILED".
Proof. eapply reachable_step; [apply reachable_PAYMENT_PENDING | vm_compute; reflexivity]. Qed.

Create HintDb lifecycle.
#[local] Hint Resolve reachable_start reachable_MATCHED reachable_CANCELLED
  reachable_DRIVER_EN_ROUTE reachable_PAYMENT_PENDING reachable_COMPLETED
  reachable_PAYMENT_FAILED : lifecycle.

Lemma statuses_reachable_insert (m : gmap string Ride) (k : string) (r : Ride) :
  statuses_reachable m -> reachable (ride_status r) -> statuses_reachable (<[k := r]> m).
Proof.
  intros Hm Hr id rd. rewrite lookup_insert. case_decide.
  - intros [= <-]. exact Hr.
  - apply Hm.
Qed.

Lemma statuses_reachable_cancel (m : gmap string Ride) (k : string) :
  statuses_reachable m -> statuses_reachable (alter (set_ride_status "CANCELLED") k m).
Proof.
  intros Hm id rd. rewrite lookup_alter. case_decide.
  - subst. destruct (m !! id); [|discriminate]. intros [= <-]. apply reachable_CANCELLED.
  - apply Hm.
Qed.

Section Lifecycle.

Variable _haversine_km : Q -> Q -> Q -> Q -> Q.
Variable geo_distance_km : Q * Q -> Q * Q -> Q.
Variable settings : Settings.
Variable psp : Provider.

(** A matcher that reports failure has cancelled the ride. *)
Lemma matching_loop_failed (ride trip_uuid : string) (now : Z) (candidates : list string)
    (w : World) :
  fst (matching_loop ride trip_uuid now candidates w) = false ->
  db (snd (matching_loop ride trip_uuid now candidates w)) = _cancel_ride ride (db w).
Proof.
  revert w. induction candidates as [|driver rest IH]; intros w; cbn [matching_loop].
  - reflexivity.
  - assert (Next : forall r,
              fst (matching_loop ride trip_uuid now rest (with_redis r w)) = false ->
              db (snd (matching_loop ride trip_uuid now rest (with_redis r w)))
              = _cancel_ride ride (db w)).
    { intros r. exact (IH (with_redis r w)). }
    destruct (r_str (redis w) !! lock_key driver); [apply IH|].
    cbn [db with_redis].
    destruct (drivers (db w) !! driver) as [drv|]; [|apply Next].
    destruct (decide (driver_status drv = "available")) as [Hav|Hav]; [|apply Next].
    destruct (_assign_driver ride driver trip_uuid now (db w)) as [[[|]|exc] d] eqn:A.
    + discriminate.
    + apply Next.
    + apply Next.
Qed.

Lemma run_matching_reachable (ride : string) (lat lng : Q) (tier trip_uuid : string)
    (now : Z) (w : World) :
  rides_reachable w ->
  rides_reachable
    (snd (run_matching geo_distance_km settings ride lat lng tier trip_uuid now w)).
Proof.
  intros H. unfold run_matching, rides_reachable.
  destruct (geo_nearby_drivers _ _ _ _ _ _ _) as [|c cs].
  { cbn. apply statuses_reachable_cancel, H. }
  destruct (fst (matching_loop ride trip_uuid now (c :: cs) w)) eqn:F.
  - destruct (matching_loop_assigned _ _ _ _ _ F) as (driver & _ & A).
    destruct (_assign_driver_assigned _ _ _ _ _ _ A) as (drv & rd & _ & _ & _ & _ & _ & -> & _).
    apply statuses_reachable_insert; [exact H | apply reachable_MATCHED].
  - rewrite (matching_loop_failed _ _ _ _ _ F). cbn.
    apply statuses_reachable_cancel, H.
Qed.

Ltac reachable_step :=
  repeat (case_split; try discriminate); cbn;
  repeat (apply statuses_reachable_insert; cbn);
  auto with lifecycle.

(** Whatever an operation writes into a ride's status is a status of the
    graph that can be reached from REQUESTED. *)
Lemma step_reachable (op : Op) (w : World) :
  rides_reachable w ->
  rides_reachable (step _haversine_km geo_distance_km settings psp op w).
Proof.
  intros H. unfold rides_reachable in *. destruct op; cbn [step].
  - unfold create_driver. reachable_step.
  - unfold update_driver_status. reachable_step.
  - unfold update_location. reachable_step.
  - exact H.
  - unfold accept_ride. reachable_step.
  - unfold create_ride. reachable_step.
  - apply run_matching_reachable, H.
  - unfold end_trip. reachable_step.
  - unfold create_payment. reachable_step.
Qed.

Lemma accept_ride_conflict (driver ride : string) (w : World) :
  (forall rd, rides (db w) !! ride = Some rd ->
     ~ (ride_driver_id rd = Some driver /\ ride_status rd = "MATCHED")) ->
  accept_ride driver ride w
  = (Raise (HTTPException CONFLICT "Ride not found or already processed"), w).
Proof.
  intros H. unfold accept_ride.
  destruct (rides (db w) !! ride) as [rd|]; [|reflexivity].
  destruct (decide _) as [E|_]; [|reflexivity].
  exfalso. exact (H rd eq_refl E).
Qed.

Lemma accept_ride_edge (driver ride : string) (w : World) (resp : Response) :
  fst (accept_ride driver ride w) = Ok resp ->
  exists rd,
    rides (db w) !! ride = Some rd
    /\ ride_status rd = "MATCHED"
    /\ ride_driver_id rd = Some driver
    /\ rides (db (snd (accept_ride driver ride w)))
       = <[ride := set_ride_status "DRIVER_EN_ROUTE" rd]> (rides (db w)).
Proof.
  unfold accept_ride.
  destruct (rides (db w) !! ride) as [rd|]; [|discriminate].
  destruct (decide _) as [[Hd Hs]|_]; [|discriminate].
  repeat (case_split; try discriminate). intros _. exists rd. auto.
Qed.

Lemma end_trip_conflict (trip : string) (payload : TripEndRequest) (payment_uuid : string)
    (now : Z) (w : World) (t : Trip) :
  trips (db w) !! trip = Some t ->
  trip_status t <> "ACTIVE" -> trip_status t <> "PAUSED" ->
  end_trip _haversine_km trip payload payment_uuid now w
  = (Raise (HTTPException CONFLICT ("Trip is already " +:+ trip_status t)), w).
Proof.
  intros Ht Ha Hp. unfold end_trip. rewrite Ht.
  destruct (decide _) as [[E|E]|_]; [contradiction | contradiction | reflexivity].
Qed.

(** [end_trip] looks at the trip's status, not at the ride's. *)
Lemma end_trip_sets_payment_pending (trip : string) (payload : TripEndRequest)
    (payment_uuid : string) (now : Z) (w : World) (t : Trip) (rd : Ride) :
  trips (db w) !! trip = Some t ->
  trip_status t = "ACTIVE" \/ trip_status t = "PAUSED" ->
  rides (db w) !! trip_ride_id t = Some rd ->
  payments (db w) !! payment_uuid = None ->
  let out := end_trip _haversine_km trip payload payment_uuid now w in
  (exists resp, fst out = Ok resp)
  /\ rides (db (snd out))
     = <[trip_ride_id t := set_ride_status "PAYMENT_PENDING" rd]> (rides (db w))
  /\ trip_status <$> trips (db (snd out)) !! trip = Some "COMPLETED"
  /\ payment_status <$> payments (db (snd out)) !! payment_uuid = Some "PENDING".
Proof.
  intros Ht Hs Hr Hp. cbv zeta. unfold end_trip. rewrite Ht.
  destruct (decide _) as [_|N]; [|contradiction].
  rewrite Hr. destruct (calculate_fare _ _ _) as [[base surge] total].
  rewrite Hp. cbn. rewrite !lookup_insert_eq. eauto.
Qed.

Lemma create_payment_conflict (payload : PaymentRequest) (key : option string)
    (w : World) (t : Trip) :
  (truthy key = true -> r_json (redis w) !! idempotency_cache_key (default "" key) = None) ->
  trips (db w) !! preq_trip_id payload = Some t ->
  trip_status t <> "COMPLETED" ->
  create_payment psp payload key w
  = (Raise (HTTPException CONFLICT "Trip is not yet completed"), w).
Proof.
  intros Hk Ht Hs. unfold create_payment.
  rewrite (check_idempotency_miss _ _ Hk), Ht.
  destruct (decide _) as [E|_]; [contradiction | reflexivity].
Qed.

(** A request that is refused with an HTTP error has changed nothing. *)
Lemma refused_unchanged (c : Z) (detail : string) (w : World) :
  (forall payload uuid now,
     fst (create_driver payload uuid now w) = Raise (HTTPException c detail) ->
     snd (create_driver payload uuid now w) = w)
  /\ (forall driver new_status,
        fst (update_driver_status driver new_status w) = Raise (HTTPException c detail) ->
        snd (update_driver_status driver new_status w) = w)
  /\ (forall driver payload,
        fst (update_location driver payload w) = Raise (HTTPException c detail) ->
        snd (update_location driver payload w) = w)
  /\ (forall driver ride,
        fst (accept_ride driver ride w) = Raise (HTTPException c detail) ->
        snd (accept_ride driver ride w) = w)
  /\ (forall payload rider_id key uuid now,
        fst (create_ride _haversine_km settings payload rider_id key uuid now w)
        = Raise (HTTPException c detail) ->
        snd (create_ride _haversine_km settings payload rider_id key uuid now w) = w)
  /\ (forall trip payload payment_uuid now,
        fst (end_trip _haversine_km trip payload payment_uuid now w)
        = Raise (HTTPException c detail) ->
        snd (end_trip _haversine_km trip payload payment_uuid now w) = w)
  /\ (forall payload key,
        fst (create_payment psp payload key w) = Raise (HTTPException c detail) ->
        snd (create_payment psp payload key w) = w).
Proof.
  repeat split; intros.
  - revert H. unfold create_driver. repeat (case_split; try discriminate); reflexivity.
  - revert H. unfold update_driver_status.
    repeat (case_split; try discriminate); reflexivity.
  - revert H. unfold update_location. repeat (case_split; try discriminate); reflexivity.
  - revert H. unfold accept_ride. repeat (case_split; try discriminate); reflexivity.
  - revert H. unfold create_ride. repeat (case_split; try discriminate); reflexivity.
  - revert H. unfold end_trip. repeat (case_split; try discriminate); reflexivity.
  - revert H. unfold create_payment. repeat (case_split; try discriminate); reflexivity.
Qed.

Lemma run_matching_edge (ride : string) (lat lng : Q) (tier trip_uuid : string)
    (now : Z) (w : World) :
  let out := run_matching geo_distance_km settings ride lat lng tier trip_uuid now w in
  fst out = true ->
  exists rd,
    rides (db w) !! ride = Some rd
    /\ ride_status rd = "REQUESTED"
    /\ ride_status <$> rides (db (snd out)) !! ride = Some "MATCHED".
Proof.
  cbv zeta. unfold run_matching.
  destruct (geo_nearby_drivers _ _ _ _ _ _ _) as [|c cs]; [discriminate|].
  intros F. destruct (matching_loop_assigned _ _ _ _ _ F) as (driver & _ & A).
  destruct (_assign_driver_assigned _ _ _ _ _ _ A) as (drv & rd & _ & _ & Hr & Hs & _ & E & _).
  exists rd. rewrite E, lookup_insert_eq. auto.
Qed.


End Lifecycle.




(** * Further properties *)

(** ** Surge and fares, continued *)

Lemma py_round2_ge_int (x : Q) (n : Z) : (inject_Z n <= x)%Q -> (inject_Z n <= py_round2 x)%Q.
Proof.
  intros H. unfold py_round2. rewrite cents_as_product.
  assert (Hn : (n * 100 <= round_half_even (x * 100))%Z).
  { apply round_half_even_ge_int. rewrite inject_Z_mult. change (inject_Z 100) with 100%Q. lra. }
  rewrite Zle_Qle, inject_Z_mult in Hn. change (inject_Z 100) with 100%Q in Hn.
  lra.
Qed.

(** X1.  With a ceiling of at least 3, the surge multiplier lies between 1
    and the (rounded) ceiling whatever the counters say, and it does not go
    down when the demand/supply ratio goes up. *)
Theorem compute_surge_bounded_monotone (settings : Settings) :
  (3 <= max_surge_multiplier settings)%Q ->
  (forall redis lat lng tier,
     (1 <= compute_surge settings redis lat lng tier)%Q
     /\ (compute_surge settings redis lat lng tier
         <= py_round2 (max_surge_multiplier settings))%Q)
  /\ (forall redis redis' lat lng lat' lng' tier tier',
        (surge_ratio redis tier <= surge_ratio redis' tier')%Q ->
        (compute_surge settings redis lat lng tier
         <= compute_surge settings redis' lat' lng' tier')%Q).
Proof.
  intros Hmax. split.
  - intros redis lat lng tier. unfold compute_surge. fold (surge_ratio redis tier).
    split.
    + apply (py_round2_ge_int _ 1).
      repeat (destruct (Qlt_le_dec _ _)); change (inject_Z 1) with 1%Q; try lra.
      apply Q.min_glb; lra.
    + apply py_round2_mono.
      repeat (destruct (Qlt_le_dec _ _)); try lra. apply Q.le_min_r.
  - intros redis redis' lat lng lat' lng' tier tier' H. unfold compute_surge.
    fold (surge_ratio redis tier) (surge_ratio redis' tier').
    apply py_round2_mono.
    repeat (destruct (Qlt_le_dec _ _)); try lra;
      try (apply Q.min_glb; lra).
    apply Q.min_le_compat_r. exact H.
Qed.

(** The default ceiling of 5: no requests give 1.0, a hundred open requests
    and no driver give 5.0. *)
Lemma compute_surge_bounded_monotone_witness :
  (compute_surge default_settings redis_empty 0 0 "standard"
   <= compute_surge default_settings
        (set_r_int (<[demand_key "standard" := 100%Z]>) redis_empty) 0 0 "standard")%Q.
Proof.
  refine (proj2 (compute_surge_bounded_monotone default_settings _) _ _ 0 0 0 0 _ _ _)%Q.
  - vm_compute. discriminate.
  - vm_compute. discriminate.
Defined.

Lemma cents_diff_small (a b : Z) :
  (Qabs (inject_Z a - inject_Z b) <= 3 # 2)%Q -> (-1 <= a - b <= 1)%Z.
Proof.
  intros H. apply Qabs_Qle_condition in H. destruct H as [H1 H2].
  assert (L : (inject_Z (a - b) < inject_Z 2)%Q).
  { unfold Zminus. rewrite inject_Z_plus, inject_Z_opp. change (inject_Z 2) with 2%Q. lra. }
  assert (U : (inject_Z (-2) < inject_Z (a - b))%Q).
  { unfold Zminus. rewrite inject_Z_plus, inject_Z_opp. change (inject_Z (-2)) with (-2)%Q. lra. }
  rewrite <- Zlt_Qlt in L, U. lia.
Qed.





(** ** The idempotency store, continued *)

Lemma idempotency_cache_key_inj (k1 k2 : string) :
  idempotency_cache_key k1 = idempotency_cache_key k2 -> k1 = k2.
Proof. unfold idempotency_cache_key. apply String.app_inj. Qed.

(** X4.  What [store_idempotency_result] stores under a non-empty token is
    what [check_idempotency] answers for that token, status code and body, as
    a replay; a second store under the token replaces the first; lookups for
    other tokens are not affected; and a request without a token, or with an
    empty one, is never answered from the store. *)
Theorem idempotency_round_trip (key : string) (code : Z) (body : json) (r : Redis) :
  key <> "" ->
  check_idempotency (Some key) (store_idempotency_result key code body r)
  = Ok (Some (replay_of code body))
  /\ (forall code' body',
        check_idempotency (Some key)
          (store_idempotency_result key code' body' (store_idempotency_result key code body r))
        = Ok (Some (replay_of code' body')))
  /\ (forall key', key' <> key ->
        check_idempotency (Some key') (store_idempotency_result key code body r)
        = check_idempotency (Some key') r)
  /\ check_idempotency None (store_idempotency_result key code body r) = Ok None
  /\ check_idempotency (Some "") (store_idempotency_result key code body r) = Ok None.
Proof.
  intros Hk.
  assert (Stored : forall c b r0,
            check_idempotency (Some key) (store_idempotency_result key c b r0)
            = Ok (Some (replay_of c b))).
  { intros c b r0. apply check_idempotency_hit; [exact Hk|].
    unfold store_idempotency_result, set_r_json. cbn [r_json]. apply lookup_insert_eq. }
  split; [apply Stored|]. split; [intros; apply Stored|].
  split; [|split; reflexivity].
  intros key' Hne. unfold check_idempotency.
  destruct (decide (key' = "")); [reflexivity|].
  unfold store_idempotency_result, set_r_json. cbn [r_json].
  rewrite lookup_insert_ne; [reflexivity|].
  intros E. apply Hne. symmetry. apply idempotency_cache_key_inj, E.
Qed.

Lemma idempotency_round_trip_witness :
  check_idempotency (Some "k1")
    (store_idempotency_result "k1" 201 (JObj [("id", JStr "ride-1")]) redis_empty)
  = Ok (Some (replay_of 201 (JObj [("id", JStr "ride-1")]))).
Proof.
  refine (proj1 (idempotency_round_trip "k1" 201 (JObj [("id", JStr "ride-1")])
                   redis_empty _)).
  discriminate.
Defined.

(** ** Ride creation *)

Section RideCreation.

Variable _haversine_km : Q -> Q -> Q -> Q -> Q.
Variable settings : Settings.
Variables (payload : RideCreateRequest) (rider_id : string) (key : option string).
Variables (uuid : string) (now : Z) (w : World).

Let out : Result Response * World :=
  create_ride _haversine_km settings payload rider_id key uuid now w.



End RideCreation.



(** ** Matching, continued *)

Lemma ride_status_key_not_lock_key (ride d : string) : ride_status_key ride <> lock_key d.
Proof. unfold ride_status_key, lock_key. simpl. discriminate. Qed.

Section MatchingEffects.

Variables (ride trip_uuid : string) (now : Z).

(** The rows a successful assignment leaves behind. *)
Lemma _assign_driver_success (driver : string) (d d' : DB) :
  _assign_driver ride driver trip_uuid now d = (Ok true, d') ->
  exists drv rd,
    drivers d !! driver = Some drv
    /\ driver_status drv = "available"
    /\ rides d !! ride = Some rd
    /\ ride_status rd = "REQUESTED"
    /\ trips d !! trip_uuid = None
    /\ select_where (fun t => bool_decide (trip_ride_id t = ride)) (trips d) = []
    /\ d' = {| drivers := <[driver := set_driver_status "on_trip" drv]> (drivers d);
               rides := <[ride := set_ride_driver driver (set_ride_status "MATCHED" rd)]>
                          (rides d);
               trips := <[trip_uuid := {| trip_ride_id := ride;
                                          trip_driver_id := driver;
                                          trip_rider_id := ride_rider_id rd;
                                          started_at := Some now; ended_at := None;
                                          distance_km := None; base_fare := None;
                                          surge_fare := None; total_fare := None;
                                          trip_status := "ACTIVE" |}]> (trips d);
               payments := payments d |}.
Proof.
  unfold _assign_driver.
  destruct (drivers d !! driver) as [drv|]; [|discriminate].
  destruct (decide (driver_status drv = "available")) as [Hav|]; [|discriminate].
  destruct (rides d !! ride) as [rd|]; [|discriminate].
  destruct (decide (ride_status rd = "REQUESTED")) as [Hreq|]; [|discriminate].
  destruct (trips d !! trip_uuid); [discriminate|].
  destruct (select_where _ _); [|discriminate].
  intros [= <-]. exists drv, rd. repeat split; assumption.
Qed.

Lemma _assign_driver_succeeds (driver : string) (d : DB) (drv : Driver) (rd : Ride) :
  drivers d !! driver = Some drv ->
  driver_status drv = "available" ->
  rides d !! ride = Some rd ->
  ride_status rd = "REQUESTED" ->
  trips d !! trip_uuid = None ->
  select_where (fun t => bool_decide (trip_ride_id t = ride)) (trips d) = [] ->
  exists d', _assign_driver ride driver trip_uuid now d = (Ok true, d').
Proof.
  intros Hd Hs Hr Hq Ht Hn. unfold _assign_driver. rewrite Hd.
  destruct (decide (driver_status drv = "available")); [|contradiction].
  rewrite Hr. destruct (decide (ride_status rd = "REQUESTED")); [|contradiction].
  rewrite Ht, Hn. eauto.
Qed.

(** A successful matcher: which candidate, its lock, and that the cache
    apart from locks and the ride's status entry is as before. *)
Lemma matching_loop_success (candidates : list string) (w : World) :
  fst (matching_loop ride trip_uuid now candidates w) = true ->
  let w' := snd (matching_loop ride trip_uuid now candidates w) in
  exists driver,
    driver ∈ candidates
    /\ _assign_driver ride driver trip_uuid now (db w) = (Ok true, db w')
    /\ r_str (redis w') !! lock_key driver = Some ride
    /\ psp_log w' = psp_log w
    /\ tasks w' = tasks w.
Proof.
  cbv zeta. revert w.
  induction candidates as [|driver rest IH]; intros w; cbn [matching_loop].
  - discriminate.
  - assert (Next : forall r,
              fst (matching_loop ride trip_uuid now rest (with_redis r w)) = true ->
              exists driver0,
                driver0 ∈ driver :: rest
                /\ _assign_driver ride driver0 trip_uuid now (db w)
                   = (Ok true,
                      db (snd (matching_loop ride trip_uuid now rest (with_redis r w))))
                /\ r_str (redis (snd (matching_loop ride trip_uuid now rest
                                        (with_redis r w)))) !! lock_key driver0 = Some ride
                /\ psp_log (snd (matching_loop ride trip_uuid now rest (with_redis r w)))
                   = psp_log w
                /\ tasks (snd (matching_loop ride trip_uuid now rest (with_redis r w)))
                   = tasks w).
    { intros r H. destruct (IH (with_redis r w) H) as (x & Hin & Hx & Hl & Hp & Ht).
      exists x. split; [right; exact Hin|]. auto. }
    destruct (r_str (redis w) !! lock_key driver).
    { intros H. destruct (IH w H) as (x & Hin & Hx & Hl & Hp & Ht).
      exists x. split; [right; exact Hin|]. auto. }
    cbn [db with_redis].
    destruct (drivers (db w) !! driver) as [drv|]; [|apply Next].
    destruct (decide (driver_status drv = "available")) as [Hav|Hav]; [|apply Next].
    destruct (_assign_driver ride driver trip_uuid now (db w)) as [[[|]|exc] d] eqn:A.
    + intros _. exists driver. split; [left|]. cbn.
      rewrite lookup_delete_ne by apply ride_status_key_not_lock_key.
      rewrite lookup_insert_eq. auto.
    + apply Next.
    + apply Next.
Qed.

(** The matcher finds a free, available candidate if there is one. *)
Lemma matching_loop_finds (d : string) (drv : Driver) (rd : Ride)
    (candidates : list string) (w : World) :
  d ∈ candidates ->
  r_str (redis w) !! lock_key d = None ->
  drivers (db w) !! d = Some drv ->
  driver_status drv = "available" ->
  rides (db w) !! ride = Some rd ->
  ride_status rd = "REQUESTED" ->
  trips (db w) !! trip_uuid = None ->
  select_where (fun t => bool_decide (trip_ride_id t = ride)) (trips (db w)) = [] ->
  fst (matching_loop ride trip_uuid now candidates w) = true.
Proof.
  intros Hin Hl Hd Hs Hr Hq Ht Hn. revert w Hin Hl Hd Hr Ht Hn.
  induction candidates as [|x rest IH]; intros w Hin Hl Hd Hr Ht Hn.
  - inversion Hin.
  - cbn [matching_loop].
    destruct (decide (x = d)) as [->|Hne].
    + rewrite Hl. cbn [db with_redis]. rewrite Hd.
      destruct (decide (driver_status drv = "available")); [|contradiction].
      destruct (_assign_driver_succeeds d (db w) drv rd Hd Hs Hr Hq Ht Hn) as [d' ->].
      reflexivity.
    + assert (Hin' : d ∈ rest).
      { apply elem_of_cons in Hin as [E|E]; [congruence | exact E]. }
      assert (Hk : lock_key x <> lock_key d).
      { intros E. apply Hne, lock_key_inj, E. }
      destruct (r_str (redis w) !! lock_key x) eqn:L; [apply IH; assumption|].
      cbn [db with_redis].
      assert (Kept : r_str (set_r_str (<[lock_key x := ride]>) (redis w)) !! lock_key d = None).
      { cbn. rewrite lookup_insert_ne by exact Hk. exact Hl. }
      assert (Released :
                r_str (cache_delete (set_r_str (<[lock_key x := ride]>) (redis w))
                         (lock_key x)) !! lock_key d = None).
      { cbn. rewrite lookup_delete_ne, lookup_insert_ne by exact Hk. exact Hl. }
      destruct (drivers (db w) !! x) as [drv'|]; [|apply IH; assumption].
      destruct (decide (driver_status drv' = "available")) as [Hav|Hav];
        [|apply IH; assumption].
      destruct (_assign_driver ride x trip_uuid now (db w)) as [[[|]|exc] d0];
        [reflexivity | apply IH; assumption | apply IH; assumption].
Qed.

End MatchingEffects.

Section MatchingOutcomes.

Variable geo_distance_km : Q * Q -> Q * Q -> Q.
Variable settings : Settings.
Variables (ride : string) (lat lng : Q) (tier trip_uuid : string) (now : Z) (w : World).

Let out : bool * World :=
  run_matching geo_distance_km settings ride lat lng tier trip_uuid now w.
Let candidates : list string :=
  geo_nearby_drivers geo_distance_km (redis w) tier lat lng (matching_radius_km settings)
    (matching_max_retries settings * 5).

(** X7.  A matcher that reports success has made one assignment and nothing
    else: one candidate whose row said "available" is now "on_trip", the ride,
    which was REQUESTED, is MATCHED with that driver, one ACTIVE trip joining
    the two has been inserted under a fresh identifier, the driver's lock is
    held for the ride, and every other driver, ride, trip and payment row is
    as it was. *)
Theorem run_matching_assigns_once :
  fst out = true ->
  exists driver drv rd,
    driver ∈ candidates
    /\ drivers (db w) !! driver = Some drv
    /\ driver_status drv = "available"
    /\ rides (db w) !! ride = Some rd
    /\ ride_status rd = "REQUESTED"
    /\ trips (db w) !! trip_uuid = None
    /\ drivers (db (snd out)) = <[driver := set_driver_status "on_trip" drv]> (drivers (db w))
    /\ rides (db (snd out))
       = <[ride := set_ride_driver driver (set_ride_status "MATCHED" rd)]> (rides (db w))
    /\ trips (db (snd out))
       = <[trip_uuid := {| trip_ride_id := ride;
                           trip_driver_id := driver;
                           trip_rider_id := ride_rider_id rd;
                           started_at := Some now; ended_at := None;
                           distance_km := None; base_fare := None;
                           surge_fare := None; total_fare := None;
                           trip_status := "ACTIVE" |}]> (trips (db w))
    /\ payments (db (snd out)) = payments (db w)
    /\ r_str (redis (snd out)) !! lock_key driver = Some ride
    /\ psp_log (snd out) = psp_log w
    /\ tasks (snd out) = tasks w.
Proof.
  unfold out, candidates, run_matching.
  destruct (geo_nearby_drivers _ _ _ _ _ _ _) as [|c cs] eqn:G; [discriminate|].
  intros F.
  destruct (matching_loop_success _ _ _ _ _ F) as (driver & Hin & A & Hl & Hp & Ht).
  destruct (_assign_driver_success _ _ _ _ _ _ A)
    as (drv & rd & Hd & Hs & Hr & Hq & Hfresh & _ & E).
  exists driver, drv, rd. rewrite E. cbn [drivers rides trips payments].
  repeat split; assumption.
Qed.

(** X8.  The matcher does not give up while a usable candidate is left: if
    the ride is REQUESTED and has no trip, the trip identifier is fresh, and
    some candidate is unlocked with a row that says "available", the matcher
    reports success. *)
Theorem run_matching_finds_driver (d : string) (drv : Driver) (rd : Ride) :
  d ∈ candidates ->
  r_str (redis w) !! lock_key d = None ->
  drivers (db w) !! d = Some drv ->
  driver_status drv = "available" ->
  rides (db w) !! ride = Some rd ->
  ride_status rd = "REQUESTED" ->
  trips (db w) !! trip_uuid = None ->
  select_where (fun t => bool_decide (trip_ride_id t = ride)) (trips (db w)) = [] ->
  fst out = true.
Proof.
  unfold out, candidates, run_matching. intros Hin.
  destruct (geo_nearby_drivers _ _ _ _ _ _ _) as [|c cs] eqn:G; [inversion Hin|].
  intros. eapply matching_loop_finds; eauto.
Qed.

(** X9.  When no member of the tier's partition is within the search radius
    (an empty or absent partition included), the matcher takes no lock,
    writes CANCELLED into the ride whatever its status was, reports failure,
    and changes nothing else. *)
Theorem run_matching_no_candidates :
  (forall d pos,
     default ∅ (r_geo (redis w) !! geo_key tier) !! d = Some pos ->
     (matching_radius_km settings < geo_distance_km (lng, lat) pos)%Q) ->
  out = (false, with_db (_cancel_ride ride (db w)) w)
  /\ (forall rd, rides (db w) !! ride = Some rd ->
        rides (db (snd out)) !! ride = Some (set_ride_status "CANCELLED" rd))
  /\ (forall other, other <> ride -> rides (db (snd out)) !! other = rides (db w) !! other).
Proof.
  intros Hfar.
  assert (G : candidates = []).
  { unfold candidates, geo_nearby_drivers.
    rewrite filter_none; [destruct (Z.to_nat _); reflexivity|].
    intros [d q] Hin. apply list_elem_of_fmap in Hin as ([d' pos] & [= -> ->] & Hin).
    apply elem_of_map_to_list in Hin. cbn [fst snd] in *.
    intros Hle. apply Qle_bool_iff in Hle. specialize (Hfar d' pos Hin). lra. }
  assert (E : out = (false, with_db (_cancel_ride ride (db w)) w)).
  { unfold out, run_matching. fold candidates. rewrite G. reflexivity. }
  rewrite E. cbn. repeat split.
  - intros rd Hr. rewrite lookup_alter_eq, Hr. reflexivity.
  - intros other Hne. apply lookup_alter_ne. congruence.
Qed.

End MatchingOutcomes.

Lemma run_matching_assigns_once_witness :
  exists driver,
    driver_status <$> drivers (db demo_w5) !! driver = Some "on_trip"
    /\ r_str (redis demo_w5) !! lock_key driver = Some "ride-1".
Proof.
  destruct (run_matching_assigns_once flat_geo_distance_km default_settings
              "ride-1" 13 77 "standard" "trip-1" 11 demo_w4 ltac:(vm_compute; reflexivity))
    as (driver & drv & rd & _ & _ & _ & _ & _ & _ & D & _ & _ & _ & L & _).
  exists driver. split; [|exact L].
  unfold demo_w5. rewrite D, lookup_insert_eq. reflexivity.
Defined.

Lemma run_matching_finds_driver_witness :
  fst (run_matching flat_geo_distance_km default_settings
         "ride-1" 13 77 "standard" "trip-1" 11 demo_w4) = true.
Proof.
  eapply (run_matching_finds_driver flat_geo_distance_km default_settings
            "ride-1" 13 77 "standard" "trip-1" 11 demo_w4 "driver-1").
  - apply list_elem_of_In. vm_compute. left. reflexivity.
  - vm_compute. reflexivity.
  - vm_compute. reflexivity.
  - reflexivity.
  - vm_compute. reflexivity.
  - reflexivity.
  - vm_compute. reflexivity.
  - vm_compute. reflexivity.
Defined.

(** Scenario 2 of section 8: a ride requested while no driver is indexed. *)
Lemma run_matching_no_candidates_witness :
  let w := snd (create_ride flat_haversine_km default_settings demo_ride_request
                  "rider-1" None "ride-1" 10 world_empty) in
  ride_status <$>
    rides (db (snd (run_matching flat_geo_distance_km default_settings
                      "ride-1" 13 77 "standard" "trip-1" 11 w))) !! "ride-1"
  = Some "CANCELLED".
Proof.
  cbv zeta.
  destruct (run_matching_no_candidates flat_geo_distance_km default_settings
              "ride-1" 13 77 "standard" "trip-1" 11
              (snd (create_ride flat_haversine_km default_settings demo_ride_request
                      "rider-1" None "ride-1" 10 world_empty))) as (_ & C & _).
  - intros d pos H. cbn in H. rewrite lookup_empty in H. discriminate.
  - erewrite C; [reflexivity|]. vm_compute. reflexivity.
Defined.

(** ** Drivers and trips *)



(** X11.  A ride that has been accepted cannot be accepted again: after a
    successful [accept_ride], which changes nothing but the ride's status,
    every further accept of that ride, by any driver, fails with CONFLICT and
    changes nothing. *)
Theorem accept_ride_once (driver ride : string) (w : World) (resp : Response) :
  fst (accept_ride driver ride w) = Ok resp ->
  let w' := snd (accept_ride driver ride w) in
  drivers (db w') = drivers (db w)
  /\ trips (db w') = trips (db w)
  /\ payments (db w') = payments (db w)
  /\ (forall other, other <> ride -> rides (db w') !! other = rides (db w) !! other)
  /\ (exists trip t,
        trips (db w) !! trip = Some t /\ trip_ride_id t = ride
        /\ json_get (resp_body resp) "trip_id" = Some (JStr trip))
  /\ (forall driver',
        accept_ride driver' ride w'
        = (Raise (HTTPException CONFLICT "Ride not found or already processed"), w')).
Proof.
  intros H. cbv zeta.
  assert (A : exists rd trip t,
            rides (db w) !! ride = Some rd
            /\ select_where (fun t0 => bool_decide (trip_ride_id t0 = ride)) (trips (db w))
               = [(trip, t)]
            /\ accept_ride driver ride w
               = (Ok {| resp_status_code := 200;
                        resp_body := JObj [("trip_id", JStr trip);
                                           ("status", JStr "DRIVER_EN_ROUTE")];
                        resp_headers := [] |},
                  with_redis (cache_delete (redis w) (ride_status_key ride))
                    (with_db (set_rides (<[ride := set_ride_status "DRIVER_EN_ROUTE" rd]>)
                                (db w)) w))).
  { revert H. unfold accept_ride.
    destruct (rides (db w) !! ride) as [rd|]; [|discriminate].
    destruct (decide _) as [_|_]; [|discriminate].
    cbn [trips set_rides].
    destruct (select_where _ (trips (db w))) as [|[trip t] [|? ?]]; try discriminate.
    intros _. exists rd, trip, t. auto. }
  destruct A as (rd & trip & t & R & Sel & E). rewrite E in *. cbn [fst snd] in *.
  injection H as <-.
  cbn [db rides drivers trips payments with_db with_redis set_rides].
  repeat split.
  - intros other Hne. apply lookup_insert_ne. congruence.
  - exists trip, t.
    assert (Hin : (trip, t) ∈ select_where (fun t0 => bool_decide (trip_ride_id t0 = ride))
                              (trips (db w))) by (rewrite Sel; left).
    unfold select_where in Hin. apply list_elem_of_filter in Hin as [Hp Hin].
    apply elem_of_map_to_list in Hin. apply bool_decide_eq_true in Hp.
    repeat split; assumption.
  - intros driver'. apply accept_ride_conflict.
    cbn [db rides with_db with_redis set_rides].
    intros rd'. rewrite lookup_insert_eq. intros [= <-] [_ S]. cbn in S. discriminate.
Qed.

Lemma accept_ride_once_witness :
  accept_ride "driver-1" "ride-1" demo_w6
  = (Raise (HTTPException CONFLICT "Ride not found or already processed"), demo_w6).
Proof.
  edestruct (accept_ride_once "driver-1" "ride-1" demo_w5) as (_ & _ & _ & _ & _ & H).
  - vm_compute. reflexivity.
  - apply H.
Defined.

Section TripEnd.

Variable _haversine_km : Q -> Q -> Q -> Q -> Q.

(** X12.  A trip is ended once.  A successful [end_trip] prices the trip
    with [calculate_fare] on the ride's own tier and stored multiplier and the
    distance from the ride's pickup point to the reported end point; the
    total it answers is the total on the trip row and the amount of the
    PENDING payment row it creates.  It leaves other trips alone, sets the
    trip's driver to "available", and calls no provider.  Every further
    [end_trip] on that trip fails with CONFLICT and changes nothing, so a
    repeated request cannot re-price the trip or add a second payment row. *)
Theorem end_trip_once (trip : string) (payload : TripEndRequest) (payment_uuid : string)
    (now : Z) (w : World) (resp : Response) :
  fst (end_trip _haversine_km trip payload payment_uuid now w) = Ok resp ->
  let w' := snd (end_trip _haversine_km trip payload payment_uuid now w) in
  exists t rd,
    trips (db w) !! trip = Some t
    /\ rides (db w) !! trip_ride_id t = Some rd
    /\ let km := _haversine_km (pickup_lat rd) (pickup_lng rd)
                   (final_lat payload) (final_lng payload) in
       let total := snd (calculate_fare (ride_tier rd) km (surge_multiplier rd)) in
       json_get (resp_body resp) "total_fare" = Some (JFloat total)
       /\ (exists t', trips (db w') = <[trip := t']> (trips (db w))
                      /\ trip_status t' = "COMPLETED"
                      /\ total_fare t' = Some total
                      /\ trip_ride_id t' = trip_ride_id t
                      /\ trip_driver_id t' = trip_driver_id t)
       /\ payments (db w')
          = <[payment_uuid := {| payment_trip_id := trip;
                                 payment_rider_id := trip_rider_id t;
                                 amount := total;
                                 currency := "INR";
                                 payment_status := "PENDING";
                                 psp_ref := None;
                                 payment_idempotency_key := None |}]> (payments (db w))
       /\ payments (db w) !! payment_uuid = None
       /\ drivers (db w')
          = alter (set_driver_status "available") (trip_driver_id t) (drivers (db w))
       /\ psp_log w' = psp_log w
       /\ (forall payload' payment_uuid' now',
             end_trip _haversine_km trip payload' payment_uuid' now' w'
             = (Raise (HTTPException CONFLICT "Trip is already COMPLETED"), w')).
Proof.
  intros H. cbv zeta.
  remember (end_trip _haversine_km trip payload payment_uuid now w) as out eqn:E.
  unfold end_trip in E.
  destruct (trips (db w) !! trip) as [t|] eqn:T; [|subst out; discriminate].
  destruct (decide _) as [_|_]; [|subst out; discriminate].
  destruct (rides (db w) !! trip_ride_id t) as [rd|] eqn:R; [|subst out; discriminate].
  exists t, rd. split; [reflexivity|]. split; [exact R|].
  destruct (calculate_fare _ _ _) as [[base surge] total].
  destruct (payments (db w) !! payment_uuid) eqn:P; [subst out; discriminate|].
  subst out. injection H as <-. cbn [fst snd].
  cbn [db trips rides drivers payments psp_log with_db with_redis
         set_trips set_rides set_drivers set_payments resp_body].
  split; [reflexivity|].
  split; [eexists; repeat split|].
  repeat split.
  intros payload' payment_uuid' now'.
  match goal with |- end_trip _ _ _ _ _ ?W = _ => set (w' := W) end.
  assert (T' : trips (db w') !! trip
               = Some {| trip_ride_id := trip_ride_id t;
                         trip_driver_id := trip_driver_id t;
                         trip_rider_id := trip_rider_id t;
                         started_at := started_at t;
                         ended_at := Some now;
                         distance_km := Some (py_round3 (_haversine_km (pickup_lat rd)
                                           (pickup_lng rd) (final_lat payload)
                                           (final_lng payload)));
                         base_fare := Some base;
                         surge_fare := Some surge;
                         total_fare := Some total;
                         trip_status := "COMPLETED" |}).
  { unfold w'. cbn. apply lookup_insert_eq. }
  rewrite (end_trip_conflict _haversine_km trip payload' payment_uuid' now' w' _ T');
    [reflexivity | discriminate | discriminate].
Qed.

End TripEnd.

Lemma end_trip_once_witness :
  end_trip flat_haversine_km "trip-1" {| final_lat := 14; final_lng := 78 |} "pay-2" 30 demo_w7
  = (Raise (HTTPException CONFLICT "Trip is already COMPLETED"), demo_w7).
Proof.
  edestruct (end_trip_once flat_haversine_km "trip-1" {| final_lat := 13; final_lng := 77 |}
               "pay-1" 20 demo_w6) as (t & rd & _ & _ & _ & _ & _ & _ & _ & _ & H).
  - vm_compute. reflexivity.
  - apply H.
Defined.

(** ** The records stay consistent *)

Ltac at_key id key H :=
  destruct (decide (id = key)) as [->|?];
  [rewrite lookup_insert_eq in H; injection H as <-
  |rewrite lookup_insert_ne in H by congruence].

Ltac in_list := repeat first [apply list_elem_of_here | apply list_elem_of_further].

Lemma db_consistent_empty : db_consistent db_empty.
Proof.
  constructor; cbn; intros *; rewrite lookup_empty; discriminate.
Qed.

Lemma db_consistent_drivers (f : gmap string Driver -> gmap string Driver) (d : DB) :
  db_consistent d ->
  (forall id, is_Some (drivers d !! id) -> is_Some (f (drivers d) !! id)) ->
  (forall id drv, f (drivers d) !! id = Some drv ->
     driver_status drv = "offline" \/ driver_status drv = "available"
     \/ driver_status drv = "on_trip") ->
  db_consistent (set_drivers f d).
Proof.
  intros [] Hdom Hst. constructor; cbn [set_drivers drivers rides trips payments]; eauto.
Qed.

Lemma db_consistent_ride_status (d : DB) (ride s : string) (rd : Ride) :
  db_consistent d ->
  rides d !! ride = Some rd ->
  s ∈ ["MATCHED"; "DRIVER_EN_ROUTE"; "PAYMENT_PENDING"; "COMPLETED"; "PAYMENT_FAILED";
       "CANCELLED"] ->
  (ride_driver_id rd = None -> s = "CANCELLED") ->
  (s = "COMPLETED" ->
   exists trip t pid p,
     trips d !! trip = Some t /\ trip_ride_id t = ride
     /\ payments d !! pid = Some p /\ payment_trip_id p = trip
     /\ payment_status p = "SUCCESS") ->
  db_consistent (set_rides (<[ride := set_ride_status s rd]>) d).
Proof.
  intros [] Hr Hs Hu Hc.
  assert (Hn : s <> "REQUESTED").
  { intros ->. repeat (apply elem_of_cons in Hs as [Hs|Hs]; [discriminate|]).
    inversion Hs. }
  constructor; cbn [set_rides drivers rides trips payments]; eauto.
  - intros id rd' H. at_key id ride H; [|eauto]. cbn.
    apply list_elem_of_further, Hs.
  - intros id rd' H. at_key id ride H; [|eauto]. cbn. auto.
  - intros id rd' H. at_key id ride H; eauto.
  - intros trip t Ht. destruct (trip_rides0 trip t Ht) as (rd0 & R0 & D0 & U0 & S0).
    destruct (decide (trip_ride_id t = ride)) as [E|E].
    + rewrite E in *. rewrite lookup_insert_eq. rewrite Hr in R0. injection R0 as <-.
      eexists. split; [reflexivity|]. cbn. auto.
    + rewrite lookup_insert_ne by congruence. eauto 10.
  - intros id rd' H Hst. at_key id ride H; [|eauto]. cbn in Hst. auto.
Qed.

Lemma db_consistent_ride_created (d : DB) (uuid : string) (rd : Ride) :
  db_consistent d ->
  rides d !! uuid = None ->
  ride_driver_id rd = None ->
  ride_status rd = "REQUESTED" ->
  db_consistent (set_rides (<[uuid := rd]>) d).
Proof.
  intros [] Hfresh Hd Hs.
  constructor; cbn [set_rides drivers rides trips payments]; eauto.
  - intros id rd' H. at_key id uuid H; [|eauto]. rewrite Hs. left.
  - intros id rd' H. at_key id uuid H; [|eauto]. auto.
  - intros id rd' H. at_key id uuid H; [|eauto]. congruence.
  - intros trip t Ht. destruct (trip_rides0 trip t Ht) as (rd0 & R0 & ?).
    rewrite lookup_insert_ne by congruence. eauto.
  - intros id rd' H Hst. at_key id uuid H; [|eauto]. congruence.
Qed.

Lemma db_consistent_assigned (d : DB) (ride driver trip_uuid : string) (drv : Driver)
    (rd : Ride) (t : Trip) :
  db_consistent d ->
  drivers d !! driver = Some drv ->
  rides d !! ride = Some rd ->
  ride_status rd = "REQUESTED" ->
  trips d !! trip_uuid = None ->
  select_where (fun t => bool_decide (trip_ride_id t = ride)) (trips d) = [] ->
  trip_ride_id t = ride -> trip_driver_id t = driver ->
  trip_rider_id t = ride_rider_id rd ->
  trip_status t = "ACTIVE" -> total_fare t = None ->
  db_consistent
    {| drivers := <[driver := set_driver_status "on_trip" drv]> (drivers d);
       rides := <[ride := set_ride_driver driver (set_ride_status "MATCHED" rd)]> (rides d);
       trips := <[trip_uuid := t]> (trips d);
       payments := payments d |}.
Proof.
  intros [] Hdrv Hr Hs Hfresh Hnone Er Ed Eu Est Ef.
  assert (Hno : forall trip t0, trips d !! trip = Some t0 -> trip_ride_id t0 <> ride).
  { intros trip t0 H E. apply (select_where_none _ _ Hnone trip t0 H).
    apply bool_decide_eq_true. exact E. }
  constructor; cbn [drivers rides trips payments].
  - intros id drv' H. at_key id driver H; [|eauto]. cbn. auto.
  - intros id rd' H. at_key id ride H; [|eauto]. cbn. right. left.
  - intros id rd' H. at_key id ride H; [|eauto]. cbn. discriminate.
  - intros id rd' H Hd. at_key id ride H.
    + exists trip_uuid, t. rewrite lookup_insert_eq. auto.
    + destruct (assigned_rides0 id rd' H Hd) as (trip & t0 & Ht & E).
      exists trip, t0. rewrite lookup_insert_ne by congruence. auto.
  - intros trip t0 H. at_key trip trip_uuid H.
    + rewrite Er, lookup_insert_eq. eexists. split; [reflexivity|]. cbn.
      repeat split; [congruence | congruence | discriminate].
    + rewrite lookup_insert_ne by (apply not_eq_sym; eauto). eauto.
  - intros trip t0 H. at_key trip trip_uuid H.
    + rewrite Ed, lookup_insert_eq. eauto.
    + destruct (decide (trip_driver_id t0 = driver)) as [->|N].
      * rewrite lookup_insert_eq. eauto.
      * rewrite lookup_insert_ne by congruence. eauto.
  - intros a b ta tb Ha Hb E. at_key a trip_uuid Ha; at_key b trip_uuid Hb.
    + reflexivity.
    + exfalso. apply (Hno b tb Hb). congruence.
    + exfalso. apply (Hno a ta Ha). congruence.
    + eauto.
  - intros trip t0 H. at_key trip trip_uuid H; eauto.
  - intros pid p H. destruct (payment_trips0 pid p H) as (t0 & Ht & ?).
    exists t0. rewrite lookup_insert_ne by congruence. auto.
  - eauto.
  - eauto.
  - intros id rd' H Hst. at_key id ride H; [discriminate|].
    destruct (completed_rides0 id rd' H Hst) as (trip & t0 & pid & p & Ht & ?).
    exists trip, t0, pid, p. rewrite lookup_insert_ne by congruence. auto.
Qed.

Lemma db_consistent_trip_ended (d : DB) (trip pu : string) (t t' : Trip) (p : Payment) :
  db_consistent d ->
  trips d !! trip = Some t ->
  trip_status t <> "COMPLETED" ->
  payments d !! pu = None ->
  trip_ride_id t' = trip_ride_id t -> trip_driver_id t' = trip_driver_id t ->
  trip_rider_id t' = trip_rider_id t ->
  trip_status t' = "COMPLETED" -> total_fare t' = Some (amount p) ->
  payment_trip_id p = trip -> payment_rider_id p = trip_rider_id t ->
  payment_status p = "PENDING" -> psp_ref p = None ->
  db_consistent (set_payments (<[pu := p]>) (set_trips (<[trip := t']>) d)).
Proof.
  intros [] Ht Hact Hfresh Er Ed Eu Est Ef Ept Epr Eps Epp.
  assert (Hno : forall pid p0, payments d !! pid = Some p0 -> payment_trip_id p0 <> trip).
  { intros pid p0 H E. destruct (payment_trips0 pid p0 H) as (t0 & Ht0 & C & _).
    rewrite E, Ht in Ht0. congruence. }
  constructor; cbn [set_payments set_trips drivers rides trips payments]; eauto.
  - intros id rd H Hd. destruct (assigned_rides0 id rd H Hd) as (trip0 & t0 & Ht0 & E).
    destruct (decide (trip0 = trip)) as [->|N].
    + exists trip, t'. rewrite lookup_insert_eq. split; congruence.
    + exists trip0, t0. rewrite lookup_insert_ne by congruence. auto.
  - intros trip0 t0 H. at_key trip0 trip H; [|eauto].
    rewrite Er, Ed, Eu. eauto.
  - intros trip0 t0 H. at_key trip0 trip H; [|eauto]. rewrite Ed. eauto.
  - intros a b ta tb Ha Hb E.
    assert (Old : forall k v, <[trip := t']> (trips d) !! k = Some v ->
                    exists v0, trips d !! k = Some v0 /\ trip_ride_id v0 = trip_ride_id v).
    { intros k v H. at_key k trip H; eauto. }
    destruct (Old a ta Ha) as (ta0 & Ha0 & Ea), (Old b tb Hb) as (tb0 & Hb0 & Eb).
    eapply trip_per_ride0; eauto. congruence.
  - intros trip0 t0 H. at_key trip0 trip H.
    + right. repeat split; [assumption | congruence |].
      exists pu, p. rewrite lookup_insert_eq. auto.
    + destruct (trip_statuses0 trip0 t0 H) as [?|(C & F & pid & p0 & Hp & E)]; [auto|].
      right. repeat split; [assumption | assumption |].
      exists pid, p0. rewrite lookup_insert_ne by congruence. auto.
  - intros pid p0 H. at_key pid pu H.
    + rewrite Ept, lookup_insert_eq. eexists. split; [reflexivity|].
      repeat split; congruence.
    + destruct (payment_trips0 pid p0 H) as (t0 & Ht0 & ?).
      exists t0. rewrite lookup_insert_ne by (apply not_eq_sym; eauto). auto.
  - intros pid p0 H. at_key pid pu H; eauto.
  - intros a b pa pb Ha Hb E. at_key a pu Ha; at_key b pu Hb.
    + reflexivity.
    + exfalso. apply (Hno b pb Hb). congruence.
    + exfalso. apply (Hno a pa Ha). congruence.
    + eauto.
  - intros id rd H Hst.
    destruct (completed_rides0 id rd H Hst) as (trip0 & t0 & pid & p0 & Ht0 & E & Hp & Ep & S).
    exists trip0, t0, pid, p0.
    rewrite !lookup_insert_ne; [auto | congruence |].
    intros <-. apply (Hno pid p0 Hp). exact Ep.
Qed.

Lemma db_consistent_charged (d : DB) (pid : string) (p p' : Payment) :
  db_consistent d ->
  payments d !! pid = Some p ->
  payment_status p <> "SUCCESS" ->
  payment_trip_id p' = payment_trip_id p -> payment_rider_id p' = payment_rider_id p ->
  amount p' = amount p ->
  (payment_status p' = "SUCCESS" /\ psp_ref p' <> None)
  \/ (payment_status p' = "FAILED" /\ psp_ref p' = None) ->
  db_consistent (set_payments (<[pid := p']>) d).
Proof.
  intros [] Hp Hs Et Er Ea Est.
  constructor; cbn [set_payments drivers rides trips payments]; eauto.
  - intros trip t H.
    destruct (trip_statuses0 trip t H) as [?|(C & F & pid0 & p0 & Hp0 & E)]; [auto|].
    right. repeat split; [assumption | assumption |].
    destruct (decide (pid0 = pid)) as [->|N].
    + exists pid, p'. rewrite lookup_insert_eq. split; congruence.
    + exists pid0, p0. rewrite lookup_insert_ne by congruence. auto.
  - intros pid0 p0 H. at_key pid0 pid H; [|eauto].
    rewrite Et, Ea, Er. eauto.
  - intros pid0 p0 H. at_key pid0 pid H; [|eauto]. tauto.
  - intros a b pa pb Ha Hb E.
    assert (Old : forall k v, <[pid := p']> (payments d) !! k = Some v ->
                    exists v0, payments d !! k = Some v0
                               /\ payment_trip_id v0 = payment_trip_id v).
    { intros k v H. at_key k pid H; eauto. }
    destruct (Old a pa Ha) as (pa0 & Ha0 & Ea'), (Old b pb Hb) as (pb0 & Hb0 & Eb').
    eapply payment_per_trip0; eauto. congruence.
  - intros id rd H Hst.
    destruct (completed_rides0 id rd H Hst) as (trip0 & t0 & pid0 & p0 & Ht0 & E & Hp0 & Ep & S).
    exists trip0, t0, pid0, p0. rewrite lookup_insert_ne by congruence. auto.
Qed.

Lemma db_consistent_ext (d d' : DB) :
  drivers d' = drivers d -> rides d' = rides d -> trips d' = trips d ->
  payments d' = payments d ->
  db_consistent d -> db_consistent d'.
Proof.
  destruct d, d'. cbn. intros -> -> -> ->. auto.
Qed.

Lemma alter_present {A} (f : A -> A) (k : string) (x : A) (m : gmap string A) :
  m !! k = Some x -> alter f k m = <[k := f x]> m.
Proof.
  intros H. apply map_eq. intros i. destruct (decide (i = k)) as [->|N].
  - rewrite lookup_alter_eq, lookup_insert_eq, H. reflexivity.
  - rewrite lookup_alter_ne, lookup_insert_ne by congruence. reflexivity.
Qed.

Lemma alter_absent {A} (f : A -> A) (k : string) (m : gmap string A) :
  m !! k = None -> alter f k m = m.
Proof.
  intros H. apply map_eq. intros i. destruct (decide (i = k)) as [->|N].
  - rewrite lookup_alter_eq, H. reflexivity.
  - rewrite lookup_alter_ne by congruence. reflexivity.
Qed.

Lemma db_consistent_cancel (ride : string) (d : DB) :
  db_consistent d -> db_consistent (_cancel_ride ride d).
Proof.
  intros H. unfold _cancel_ride.
  destruct (rides d !! ride) as [rd|] eqn:R.
  - apply (db_consistent_ext (set_rides (<[ride := set_ride_status "CANCELLED" rd]>) d));
      cbn [set_rides drivers rides trips payments]; try reflexivity.
    + apply alter_present, R.
    + apply db_consistent_ride_status; auto; [|discriminate].
      in_list.
  - apply (db_consistent_ext d); cbn [set_rides drivers rides trips payments];
      try reflexivity; [apply alter_absent, R | exact H].
Qed.

Lemma cache_wellformed_json (r r' : Redis) :
  r_json r' = r_json r -> cache_wellformed r -> cache_wellformed r'.
Proof. unfold cache_wellformed. intros ->. auto. Qed.

Lemma cache_wellformed_delete (r : Redis) (key : string) :
  cache_wellformed r -> cache_wellformed (cache_delete r key).
Proof.
  intros H k data Hk. cbn in Hk. apply lookup_delete_Some in Hk as [_ Hk]. eauto.
Qed.

Lemma cache_wellformed_store (key : string) (status_code : Z) (body : json) (r : Redis) :
  cache_wellformed r -> cache_wellformed (store_idempotency_result key status_code body r).
Proof.
  intros H k data Hk. cbn in Hk.
  destruct (decide (k = idempotency_cache_key key)) as [->|N].
  - rewrite lookup_insert_eq in Hk. injection Hk as <-. eauto.
  - rewrite lookup_insert_ne in Hk by congruence. eauto.
Qed.

Lemma select_where_elem {A} (f : A -> bool) (table : gmap string A) (k : string) (v : A) :
  (k, v) ∈ select_where f table -> table !! k = Some v /\ f v = true.
Proof.
  unfold select_where. intros H. apply list_elem_of_filter in H as [Hf H].
  apply elem_of_map_to_list in H. auto.
Qed.

Lemma charge_result (psp : Provider) (rider_id : string) (amt : Q)
    (payment_method idempotency_key : string) :
  let result := fst (charge psp rider_id amt payment_method idempotency_key) in
  (charge_status result = "SUCCESS" /\ charge_psp_ref result <> None)
  \/ (charge_status result = "FAILED" /\ charge_psp_ref result = None).
Proof.
  cbv zeta.
  destruct (charge_cases psp rider_id amt payment_method idempotency_key)
    as [(r & _ & ->) | [(e1 & r & _ & _ & ->) | [(e1 & e2 & r & _ & _ & _ & ->)
       | (e1 & e2 & e3 & _ & _ & _ & ->)]]]; cbn; auto.
Qed.

Section Consistency.

Variable _haversine_km : Q -> Q -> Q -> Q -> Q.
Variable geo_distance_km : Q * Q -> Q * Q -> Q.
Variable settings : Settings.
Variable psp : Provider.

Lemma create_driver_consistent (payload : DriverCreateRequest) (uuid : string) (now : Z)
    (w : World) :
  consistent w -> consistent (snd (create_driver payload uuid now w)).
Proof.
  intros [Hd Hc]. unfold create_driver.
  repeat (case_split; try discriminate); cbn [snd]; try (split; assumption).
  split; [|exact Hc]. cbn [db with_db].
  apply db_consistent_drivers; [exact Hd | |].
  - intros id [x Hx]. destruct (decide (id = uuid)) as [->|N].
    + rewrite lookup_insert_eq. eauto.
    + rewrite lookup_insert_ne by congruence. eauto.
  - intros id drv H. at_key id uuid H; [cbn; auto|]. destruct Hd. eauto.
Qed.

Lemma update_driver_status_consistent (driver new_status : string) (w : World) :
  consistent w -> consistent (snd (update_driver_status driver new_status w)).
Proof.
  intros [Hd Hc]. unfold update_driver_status.
  destruct (decide _) as [Hs|_]; [|split; assumption].
  destruct (drivers (db w) !! driver) as [drv|] eqn:D; [|split; assumption].
  split; [|exact Hc]. cbn [snd db with_db].
  apply db_consistent_drivers; [exact Hd | |].
  - intros id [x Hx]. destruct (decide (id = driver)) as [->|N].
    + rewrite lookup_insert_eq. eauto.
    + rewrite lookup_insert_ne by congruence. eauto.
  - intros id drv' H. at_key id driver H; [cbn; tauto|]. destruct Hd. eauto.
Qed.

Lemma update_location_consistent (driver : string) (payload : LocationUpdateRequest)
    (w : World) :
  consistent w -> consistent (snd (update_location driver payload w)).
Proof.
  intros [Hd Hc]. unfold update_location.
  repeat (case_split; try discriminate); cbn [snd]; split; try assumption;
    cbn; apply (cache_wellformed_json (redis w)); auto.
Qed.

Lemma _flush_location_to_db_consistent (driver : string) (lat lng : Q) (now : Z)
    (w : World) :
  consistent w -> consistent (_flush_location_to_db driver lat lng now w).
Proof.
  intros [Hd Hc]. split; [|exact Hc]. cbn [_flush_location_to_db db with_db].
  apply db_consistent_drivers; [exact Hd | |].
  - intros id [x Hx]. destruct (decide (id = driver)) as [->|N].
    + rewrite lookup_alter_eq, Hx. cbn. eauto.
    + rewrite lookup_alter_ne by congruence. eauto.
  - intros id drv H. destruct (decide (id = driver)) as [->|N].
    + rewrite lookup_alter_eq in H.
      destruct (drivers (db w) !! driver) as [x|] eqn:X; [|discriminate].
      cbn in H. injection H as <-. cbn. destruct Hd. eauto.
    + rewrite lookup_alter_ne in H by congruence. destruct Hd. eauto.
Qed.

Lemma accept_ride_consistent (driver ride : string) (w : World) :
  consistent w -> consistent (snd (accept_ride driver ride w)).
Proof.
  intros [Hd Hc]. unfold accept_ride.
  destruct (rides (db w) !! ride) as [rd|] eqn:R; [|split; assumption].
  destruct (decide _) as [[Hdr Hs]|_]; [|split; assumption].
  destruct (scalar_one_or_none _) as [|[trip t]|]; try (split; assumption).
  split; cbn [snd db redis with_db with_redis].
  - apply db_consistent_ride_status; auto.
    + in_list.
    + congruence.
    + discriminate.
  - apply cache_wellformed_delete, Hc.
Qed.

Lemma create_ride_consistent (payload : RideCreateRequest) (rider_id : string)
    (key : option string) (uuid : string) (now : Z) (w : World) :
  consistent w ->
  consistent (snd (create_ride _haversine_km settings payload rider_id key uuid now w)).
Proof.
  intros [Hd Hc]. unfold create_ride.
  destruct (if truthy key then _ else _) as [[cached|]|e]; try (split; assumption).
  destruct (rides (db w) !! uuid) eqn:R; [split; assumption|].
  destruct (match key with None => [] | Some _ => _ end); [|split; assumption].
  assert (D : db_consistent (set_rides (<[uuid :=
              {| ride_rider_id := rider_id; ride_driver_id := None;
                 pickup_lat := req_pickup_lat payload;
                 pickup_lng := req_pickup_lng payload;
                 dest_lat := req_dest_lat payload; dest_lng := req_dest_lng payload;
                 ride_tier := tier_value (req_tier payload);
                 ride_status := "REQUESTED";
                 ride_payment_method := payment_method_value (req_payment_method payload);
                 surge_multiplier :=
                   compute_surge settings (redis w) (req_pickup_lat payload)
                     (req_pickup_lng payload) (tier_value (req_tier payload));
                 ride_idempotency_key := key; ride_created_at := now |}]>) (db w)))
    by (apply db_consistent_ride_created; auto).
  assert (C : cache_wellformed (increment_demand (redis w) (tier_value (req_tier payload))))
    by (apply (cache_wellformed_json (redis w)); auto).
  destruct (truthy key); cbn [snd]; split; cbn [db redis with_db with_redis spawn];
    try assumption.
  apply cache_wellformed_store, C.
Qed.

Lemma matching_loop_consistent (ride trip_uuid : string) (now : Z)
    (candidates : list string) (w : World) :
  consistent w -> consistent (snd (matching_loop ride trip_uuid now candidates w)).
Proof.
  revert w. induction candidates as [|driver rest IH]; intros w [Hd Hc]; cbn [matching_loop].
  - split; [apply db_consistent_cancel, Hd | exact Hc].
  - assert (Next : forall r, r_json r = r_json (redis w) ->
              consistent (snd (matching_loop ride trip_uuid now rest (with_redis r w)))).
    { intros r E. apply IH. split; [exact Hd|].
      apply (cache_wellformed_json (redis w)); auto. }
    assert (Deleted : forall r key, r_json r = r_json (redis w) ->
              consistent (snd (matching_loop ride trip_uuid now rest
                                 (with_redis (cache_delete r key) w)))).
    { intros r key E. apply IH. split; [exact Hd|]. cbn [redis with_redis].
      apply cache_wellformed_delete, (cache_wellformed_json (redis w)); auto. }
    destruct (r_str (redis w) !! lock_key driver); [apply IH; split; assumption|].
    cbn [db redis with_redis].
    destruct (drivers (db w) !! driver) as [drv|]; [|apply Deleted; reflexivity].
    destruct (decide (driver_status drv = "available")) as [Hav|Hav];
      [|apply Deleted; reflexivity].
    destruct (_assign_driver ride driver trip_uuid now (db w)) as [[[|]|exc] d] eqn:A.
    + destruct (_assign_driver_success _ _ _ _ _ _ A)
        as (drv' & rd & D & _ & R & S & F & N & ->).
      split; cbn [snd db redis with_db with_redis].
      * eapply db_consistent_assigned; eauto.
      * apply cache_wellformed_delete, (cache_wellformed_json (redis w)); auto.
    + apply Next. reflexivity.
    + apply Deleted. reflexivity.
Qed.

Lemma run_matching_consistent (ride : string) (lat lng : Q) (tier trip_uuid : string)
    (now : Z) (w : World) :
  consistent w ->
  consistent (snd (run_matching geo_distance_km settings ride lat lng tier trip_uuid now w)).
Proof.
  intros H. unfold run_matching.
  destruct (geo_nearby_drivers _ _ _ _ _ _ _) as [|c cs].
  - destruct H as [Hd Hc]. split; [apply db_consistent_cancel, Hd | exact Hc].
  - apply matching_loop_consistent, H.
Qed.

Lemma end_trip_consistent (trip : string) (payload : TripEndRequest) (payment_uuid : string)
    (now : Z) (w : World) :
  consistent w ->
  consistent (snd (end_trip _haversine_km trip payload payment_uuid now w)).
Proof.
  intros [Hd Hc]. unfold end_trip.
  destruct (trips (db w) !! trip) as [t|] eqn:T; [|split; assumption].
  destruct (decide _) as [Hs|_]; [|split; assumption].
  destruct (rides (db w) !! trip_ride_id t) as [rd|] eqn:R; [|split; assumption].
  destruct (calculate_fare _ _ _) as [[base surge] total].
  destruct (payments (db w) !! payment_uuid) eqn:P; [split; assumption|].
  split; cbn [snd db redis with_db with_redis]; [|apply cache_wellformed_delete, Hc].
  set (t' := {| trip_ride_id := trip_ride_id t; trip_status := "COMPLETED" |}).
  set (p := {| payment_trip_id := trip; payment_status := "PENDING" |}).
  assert (D1 : db_consistent (set_payments (<[payment_uuid := p]>)
                                (set_trips (<[trip := t']>) (db w)))).
  { apply db_consistent_trip_ended with t; auto.
    destruct Hs as [E|E]; rewrite E; discriminate. }
  assert (Hdrv : ride_driver_id rd = Some (trip_driver_id t)).
  { destruct Hd. destruct (trip_rides0 trip t T) as (rd0 & R0 & ? & _). congruence. }
  assert (D2 : db_consistent
                 (set_rides (<[trip_ride_id t := set_ride_status "PAYMENT_PENDING" rd]>)
                    (set_payments (<[payment_uuid := p]>)
                       (set_trips (<[trip := t']>) (db w))))).
  { apply db_consistent_ride_status; auto.
    - in_list.
    - congruence.
    - discriminate. }
  eapply db_consistent_ext;
    [| | | | apply (db_consistent_drivers
                     (alter (set_driver_status "available") (trip_driver_id t)) _ D2)];
    try reflexivity.
  - intros id [x Hx]. cbn in Hx |- *. destruct (decide (id = trip_driver_id t)) as [->|N].
    + rewrite lookup_alter_eq, Hx. cbn. eauto.
    + rewrite lookup_alter_ne by congruence. eauto.
  - intros id drv H. cbn in H. destruct (decide (id = trip_driver_id t)) as [->|N].
    + rewrite lookup_alter_eq in H.
      destruct (drivers (db w) !! trip_driver_id t) as [x|] eqn:X; [|discriminate].
      cbn in H. injection H as <-. cbn. auto.
    + rewrite lookup_alter_ne in H by congruence. destruct Hd. eauto.
Qed.

Lemma create_payment_consistent (payload : PaymentRequest) (key : option string)
    (w : World) :
  consistent w -> consistent (snd (create_payment psp payload key w)).
Proof.
  intros [Hd Hc]. unfold create_payment.
  destruct (if truthy key then _ else _) as [[cached|]|e]; try (split; assumption).
  destruct (trips (db w) !! preq_trip_id payload) as [trip|] eqn:T; [|split; assumption].
  destruct (decide _) as [Hs|_]; [|split; assumption].
  destruct (select_where _ (payments (db w))) as [|[pid payment] [|? ?]] eqn:Sel;
    cbn [scalar_one_or_none]; try (split; assumption).
  destruct (decide _) as [_|Hn]; [split; assumption|].
  destruct (total_fare trip) as [server_amount|]; [|split; assumption].
  destruct (Qlt_le_dec _ _) as [_|_]; [split; assumption|].
  pose proof (charge_result psp (trip_rider_id trip) server_amount
                (payment_method_value (preq_payment_method payload))
                (if truthy key then default "" key else pid)) as Hres.
  destruct (charge psp _ _ _ _) as [result events]. cbn [fst] in Hres.
  cbn [db redis psp_log with_psp_log].
  assert (Hin : (pid, payment) ∈ select_where
                  (fun p => bool_decide (payment_trip_id p = preq_trip_id payload))
                  (payments (db w))) by (rewrite Sel; left).
  apply select_where_elem in Hin as [Hp Ht]. apply bool_decide_eq_true in Ht.
  set (p' := {| payment_trip_id := payment_trip_id payment;
                payment_status := charge_status result |}).
  assert (D1 : db_consistent (set_payments (<[pid := p']>) (db w)))
    by (apply db_consistent_charged with payment; auto).
  destruct (match key with None => [] | Some _ => _ end);
    [|split; [exact Hd | exact Hc]].
  cbn [rides set_payments].
  destruct (rides (db w) !! trip_ride_id trip) as [rd|] eqn:R.
  - assert (Hdrv : ride_driver_id rd = Some (trip_driver_id trip)).
    { destruct Hd. destruct (trip_rides0 _ _ T) as (rd0 & R0 & ? & _). congruence. }
    split; cbn [snd db redis with_db with_redis].
    + apply db_consistent_ride_status; auto.
      * destruct (decide _); in_list.
      * congruence.
      * intros E. destruct (decide (charge_status result = "SUCCESS")) as [S|S];
          [|discriminate].
        exists (preq_trip_id payload), trip, pid, p'.
        cbn [trips payments set_payments]. rewrite lookup_insert_eq. auto.
    + destruct (truthy key);
        [apply cache_wellformed_store|]; apply cache_wellformed_delete, Hc.
  - split; cbn [snd db redis with_db with_redis]; [exact D1|].
    destruct (truthy key); [apply cache_wellformed_store|]; exact Hc.
Qed.

Lemma step_consistent (op : Op) (w : World) :
  consistent w -> consistent (step _haversine_km geo_distance_km settings psp op w).
Proof.
  intros H. destruct op; cbn [step].
  - apply create_driver_consistent, H.
  - apply update_driver_status_consistent, H.
  - apply update_location_consistent, H.
  - apply _flush_location_to_db_consistent, H.
  - apply accept_ride_consistent, H.
  - apply create_ride_consistent, H.
  - apply run_matching_consistent, H.
  - apply end_trip_consistent, H.
  - apply create_payment_consistent, H.
Qed.

Lemma steps_consistent (ops : list Op) (w : World) :
  consistent w ->
  consistent (foldl (fun w op => step _haversine_km geo_distance_km settings psp op w) w ops).
Proof.
  revert w. induction ops as [|op ops IH]; intros w H; [exact H|].
  cbn [foldl]. apply IH, step_consistent, H.
Qed.

Lemma reachable_consistent (ops : list Op) :
  consistent
    (foldl (fun w op => step _haversine_km geo_distance_km settings psp op w) world_empty ops).
Proof.
  apply steps_consistent. split; [apply db_consistent_empty|].
  intros k data H. cbn in H. rewrite lookup_empty in H. discriminate.
Qed.

End Consistency.

Lemma select_where_unique {A} (f : A -> bool) (table : gmap string A) (k : string) (v : A) :
  table !! k = Some v -> f v = true ->
  (forall k' v', table !! k' = Some v' -> f v' = true -> k' = k) ->
  select_where f table = [(k, v)].
Proof.
  intros Hk Hf Huniq.
  assert (Hin : (k, v) ∈ select_where f table).
  { unfold select_where. apply list_elem_of_filter. split; [exact Hf|].
    apply elem_of_map_to_list, Hk. }
  assert (Hall : forall x, x ∈ select_where f table -> x = (k, v)).
  { intros [k' v'] Hx. apply select_where_elem in Hx as [Hk' Hf'].
    assert (k' = k) as -> by eauto. congruence. }
  assert (Hnd : NoDup (select_where f table)).
  { unfold select_where. apply NoDup_filter, NoDup_map_to_list. }
  destruct (select_where f table) as [|a [|b l]].
  - inversion Hin.
  - rewrite (Hall a) by left. reflexivity.
  - exfalso. apply NoDup_cons in Hnd as [Hnot _]. apply Hnot.
    rewrite (Hall a) by left. rewrite (Hall b) by (right; left). left.
Qed.

Lemma check_idempotency_wellformed (header : option string) (r : Redis) :
  cache_wellformed r -> exists o, check_idempotency header r = Ok o.
Proof.
  intros H. unfold check_idempotency. destruct header as [key|]; [|eauto].
  destruct (decide _); [eauto|].
  destruct (r_json r !! idempotency_cache_key key) as [data|] eqn:E; [|eauto].
  destruct (H _ _ E) as (code & body & ->). cbn. eauto.
Qed.

Lemma client_error_intro (code : Z) (detail : string) :
  code = INVALID \/ code = NOT_FOUND \/ code = CONFLICT ->
  client_error (HTTPException code detail).
Proof. intros H. exists code, detail. auto. Qed.

Section Failures.

Variable _haversine_km : Q -> Q -> Q -> Q -> Q.
Variable settings : Settings.
Variable psp : Provider.

Lemma consistent_failures (op : Op) (w : World) (e : Exception) :
  consistent w ->
  step_failure _haversine_km settings psp op w = Some e ->
  e = IntegrityError \/ client_error e.
Proof.
  intros [Hd Hc]. destruct op; cbn [step_failure]; try discriminate.
  - unfold create_driver. repeat (case_split; try discriminate); cbn; intros [= <-]; auto.
  - unfold update_driver_status.
    repeat (case_split; try discriminate); cbn; intros [= <-]; right;
      apply client_error_intro; auto.
  - unfold update_location.
    repeat (case_split; try discriminate); cbn; intros [= <-]; right;
      apply client_error_intro; auto.
  - unfold accept_ride.
    destruct (rides (db w) !! ride) as [rd|] eqn:R;
      [|cbn; intros [= <-]; right; apply client_error_intro; auto].
    destruct (decide _) as [[Hdr Hs]|_];
      [|cbn; intros [= <-]; right; apply client_error_intro; auto].
    cbn [trips set_rides].
    destruct Hd.
    destruct (assigned_rides0 ride rd R) as (trip & t & Ht & E); [congruence|].
    rewrite (select_where_unique _ _ trip t Ht).
    + cbn. discriminate.
    + apply bool_decide_eq_true, E.
    + intros k' v' Hk' Hf'. apply bool_decide_eq_true in Hf'.
      eapply trip_per_ride0; eauto. congruence.
  - unfold create_ride.
    assert (I : exists o, (if truthy idempotency_key
                           then check_idempotency idempotency_key (redis w)
                           else Ok None) = Ok o).
    { destruct (truthy idempotency_key); [|eauto].
      apply check_idempotency_wellformed, Hc. }
    destruct I as [o ->]. destruct o; [discriminate|].
    repeat (case_split; try discriminate); cbn; intros [= <-]; auto.
  - unfold end_trip.
    destruct (trips (db w) !! trip) as [t|] eqn:T;
      [|cbn; intros [= <-]; right; apply client_error_intro; auto].
    destruct (decide _) as [Hs|_];
      [|cbn; intros [= <-]; right; apply client_error_intro; auto].
    destruct Hd. destruct (trip_rides0 trip t T) as (rd & -> & _).
    repeat (case_split; try discriminate); cbn; intros [= <-]; auto.
  - unfold create_payment.
    assert (I : exists o, (if truthy idempotency_key
                           then check_idempotency idempotency_key (redis w)
                           else Ok None) = Ok o).
    { destruct (truthy idempotency_key); [|eauto].
      apply check_idempotency_wellformed, Hc. }
    destruct I as [o ->]. destruct o; [discriminate|].
    destruct (trips (db w) !! preq_trip_id payload) as [t|] eqn:T;
      [|cbn; intros [= <-]; right; apply client_error_intro; auto].
    destruct (decide _) as [Hs|_];
      [|cbn; intros [= <-]; right; apply client_error_intro; auto].
    destruct Hd.
    destruct (trip_statuses0 _ _ T) as [[A _]|(_ & F & pid & p & Hp & Ep)]; [congruence|].
    rewrite (select_where_unique _ _ pid p Hp).
    + cbn [scalar_one_or_none].
      destruct (decide _); [discriminate|].
      destruct (total_fare t) as [server_amount|]; [|congruence].
      destruct (Qlt_le_dec _ _);
        [cbn; intros [= <-]; right; apply client_error_intro; auto|].
      repeat (case_split; try discriminate); cbn; intros [= <-]; auto.
    + apply bool_decide_eq_true, Ep.
    + intros k' v' Hk' Hf'. apply bool_decide_eq_true in Hf'.
      eapply payment_per_trip0; eauto. congruence.
Qed.

End Failures.

Section Invariants.

Variable _haversine_km : Q -> Q -> Q -> Q -> Q.
Variable geo_distance_km : Q * Q -> Q * Q -> Q.
Variable settings : Settings.
Variable psp : Provider.

(** X13.  Referential integrity, in every state the operations, run one
    after another from the empty deployment, can produce.  Every trip
    belongs to a stored ride that carries the trip's driver and rider and is
    no longer REQUESTED, and its driver is a stored driver; a ride that has
    a driver has a trip; no two trips share a ride.  Every payment belongs
    to a COMPLETED trip, for that trip's rider and for exactly the trip's
    total fare; every COMPLETED trip has a payment; and no two payments
    share a trip (which the schema does not enforce). *)
Theorem referential_integrity (ops : list Op) :
  let d := db (foldl (fun w op => step _haversine_km geo_distance_km settings psp op w)
                     world_empty ops) in
  (forall trip t, trips d !! trip = Some t ->
     is_Some (drivers d !! trip_driver_id t)
     /\ exists rd, rides d !! trip_ride_id t = Some rd
                   /\ ride_driver_id rd = Some (trip_driver_id t)
                   /\ ride_rider_id rd = trip_rider_id t
                   /\ ride_status rd <> "REQUESTED")
  /\ (forall ride rd, rides d !! ride = Some rd -> ride_driver_id rd <> None ->
        exists trip t, trips d !! trip = Some t /\ trip_ride_id t = ride)
  /\ (forall a b ta tb, trips d !! a = Some ta -> trips d !! b = Some tb ->
        trip_ride_id ta = trip_ride_id tb -> a = b)
  /\ (forall pid p, payments d !! pid = Some p ->
        exists t, trips d !! payment_trip_id p = Some t
                  /\ trip_status t = "COMPLETED"
                  /\ total_fare t = Some (amount p)
                  /\ payment_rider_id p = trip_rider_id t)
  /\ (forall trip t, trips d !! trip = Some t -> trip_status t = "COMPLETED" ->
        exists pid p, payments d !! pid = Some p /\ payment_trip_id p = trip)
  /\ (forall a b pa pb, payments d !! a = Some pa -> payments d !! b = Some pb ->
        payment_trip_id pa = payment_trip_id pb -> a = b).
Proof.
  cbv zeta.
  destruct (reachable_consistent _haversine_km geo_distance_km settings psp ops) as [[] _].
  repeat split; eauto.
  intros trip t Ht Hs.
  destruct (trip_statuses0 trip t Ht) as [[A _]|(_ & _ & H)]; [congruence | exact H].
Qed.

(** X14.  The values the operations write into the status columns, in
    every state they can produce from the empty deployment.  A driver is
    offline, available or on_trip.  A ride is REQUESTED, MATCHED,
    DRIVER_EN_ROUTE, PAYMENT_PENDING, COMPLETED, PAYMENT_FAILED or CANCELLED
    (TRIP_STARTED, TRIP_PAUSED and TRIP_ENDED are never stored), and a ride
    without a driver is REQUESTED or CANCELLED.  A trip is ACTIVE with no
    fare or COMPLETED with one (PAUSED is never stored).  A payment is
    PENDING or FAILED without a provider reference, or SUCCESS with one
    (REFUNDED is never stored). *)
Theorem statuses_written (ops : list Op) :
  let d := db (foldl (fun w op => step _haversine_km geo_distance_km settings psp op w)
                     world_empty ops) in
  (forall id drv, drivers d !! id = Some drv ->
     driver_status drv = "offline" \/ driver_status drv = "available"
     \/ driver_status drv = "on_trip")
  /\ (forall id rd, rides d !! id = Some rd ->
        ride_status rd ∈ ["REQUESTED"; "MATCHED"; "DRIVER_EN_ROUTE"; "PAYMENT_PENDING";
                          "COMPLETED"; "PAYMENT_FAILED"; "CANCELLED"]
        /\ (ride_driver_id rd = None ->
            ride_status rd = "REQUESTED" \/ ride_status rd = "CANCELLED"))
  /\ (forall trip t, trips d !! trip = Some t ->
        (trip_status t = "ACTIVE" /\ total_fare t = None)
        \/ (trip_status t = "COMPLETED" /\ total_fare t <> None))
  /\ (forall pid p, payments d !! pid = Some p ->
        (payment_status p = "PENDING" /\ psp_ref p = None)
        \/ (payment_status p = "SUCCESS" /\ psp_ref p <> None)
        \/ (payment_status p = "FAILED" /\ psp_ref p = None)).
Proof.
  cbv zeta.
  destruct (reachable_consistent _haversine_km geo_distance_km settings psp ops) as [[] _].
  repeat split; eauto.
  intros trip t Ht. destruct (trip_statuses0 trip t Ht) as [?|(? & ? & _)]; auto.
Qed.

(** X15.  A ride is COMPLETED only after a successful charge: in every
    state the operations can produce from the empty deployment, a COMPLETED
    ride has a COMPLETED trip whose one payment row is SUCCESS, carries a
    provider reference, and is for the trip's total fare. *)
Theorem completed_ride_was_charged (ops : list Op) (ride : string) (rd : Ride) :
  let d := db (foldl (fun w op => step _haversine_km geo_distance_km settings psp op w)
                     world_empty ops) in
  rides d !! ride = Some rd ->
  ride_status rd = "COMPLETED" ->
  exists trip t pid p,
    trips d !! trip = Some t /\ trip_ride_id t = ride /\ trip_status t = "COMPLETED"
    /\ payments d !! pid = Some p /\ payment_trip_id p = trip
    /\ payment_status p = "SUCCESS" /\ psp_ref p <> None
    /\ total_fare t = Some (amount p)
    /\ (forall pid' p', payments d !! pid' = Some p' -> payment_trip_id p' = trip ->
          pid' = pid).
Proof.
  cbv zeta.
  destruct (reachable_consistent _haversine_km geo_distance_km settings psp ops) as [[] _].
  intros R S.
  destruct (completed_rides0 ride rd R S) as (trip & t & pid & p & Ht & Er & Hp & Ep & Sp).
  destruct (payment_trips0 pid p Hp) as (t0 & Ht0 & C & F & _).
  rewrite Ep, Ht in Ht0. injection Ht0 as <-.
  exists trip, t, pid, p. repeat split; auto.
  - destruct (payment_statuses0 pid p Hp) as [[E _]|[[_ E]|[E _]]]; congruence.
  - intros pid' p' Hp' Ep'. eapply payment_per_trip0; eauto. congruence.
Qed.


End Invariants.

Lemma referential_integrity_witness :
  exists t rd,
    trips (db demo_paid) !! "trip-1" = Some t
    /\ rides (db demo_paid) !! trip_ride_id t = Some rd
    /\ ride_driver_id rd = Some (trip_driver_id t).
Proof.
  destruct (referential_integrity flat_haversine_km flat_geo_distance_km default_settings
              (_call_psp stub_hex) demo_ops) as (H & _).
  fold demo_paid in H.
  destruct (trips (db demo_paid) !! "trip-1") as [t|] eqn:T; [|vm_compute in T; discriminate].
  destruct (H "trip-1" t T) as (_ & rd & R & D & _).
  exists t, rd. auto.
Defined.

Lemma statuses_written_witness :
  exists p,
    payments (db demo_paid) !! "pay-1" = Some p
    /\ payment_status p = "SUCCESS" /\ psp_ref p <> None.
Proof.
  destruct (statuses_written flat_haversine_km flat_geo_distance_km default_settings
              (_call_psp stub_hex) demo_ops) as (_ & _ & _ & H).
  fold demo_paid in H.
  destruct (payments (db demo_paid) !! "pay-1") as [p|] eqn:P;
    [|vm_compute in P; discriminate].
  exists p. split; [reflexivity|].
  assert (S : payment_status p = "SUCCESS").
  { vm_compute in P. injection P as <-. reflexivity. }
  destruct (H "pay-1" p P) as [[E _]|[[_ E]|[E _]]]; try congruence. auto.
Defined.

Lemma completed_ride_was_charged_witness :
  exists trip t pid p,
    trips (db demo_paid) !! trip = Some t /\ trip_ride_id t = "ride-1"
    /\ payments (db demo_paid) !! pid = Some p /\ payment_trip_id p = trip
    /\ payment_status p = "SUCCESS" /\ total_fare t = Some (amount p).
Proof.
  destruct (rides (db demo_paid) !! "ride-1") as [rd|] eqn:R;
    [|vm_compute in R; discriminate].
  assert (S : ride_status rd = "COMPLETED").
  { vm_compute in R. injection R as <-. reflexivity. }
  destruct (completed_ride_was_charged flat_haversine_km flat_geo_distance_km
              default_settings (_call_psp stub_hex) demo_ops "ride-1" rd R S)
    as (trip & t & pid & p & Ht & Er & _ & Hp & Ep & Sp & _ & F & _).
  exists trip, t, pid, p. auto 10.
Defined.


(** ** Rows persist *)

Lemma same_booking_refl (rd : Ride) : same_booking rd rd.
Proof. repeat split. Qed.

Lemma same_booking_trans (a b c : Ride) :
  same_booking a b -> same_booking b c -> same_booking a c.
Proof.
  unfold same_booking. intros H1 H2.
  repeat match goal with H : _ /\ _ |- _ => destruct H end.
  repeat split; congruence.
Qed.

Section Persistence.

Variable _haversine_km : Q -> Q -> Q -> Q -> Q.
Variable geo_distance_km : Q * Q -> Q * Q -> Q.
Variable settings : Settings.
Variable psp : Provider.

Lemma ride_kept_same (rd : Ride) : ride_kept rd (Some rd).
Proof. exists rd. split; [reflexivity|]. split; [apply same_booking_refl|]. auto. Qed.

Lemma ride_kept_status (rd : Ride) (s : string) :
  s <> "REQUESTED" -> ride_kept rd (Some (set_ride_status s rd)).
Proof.
  intros Hs. eexists. split; [reflexivity|]. split; [repeat split|].
  split; [intros E; cbn in E; contradiction | reflexivity].
Qed.

Lemma cancel_ride_kept (ride cancelled : string) (d : DB) (rd : Ride) :
  rides d !! ride = Some rd ->
  ride_kept rd (rides (_cancel_ride cancelled d) !! ride).
Proof.
  intros H. unfold _cancel_ride. cbn [rides set_rides].
  destruct (decide (ride = cancelled)) as [->|N].
  - rewrite lookup_alter_eq, H. cbn. apply ride_kept_status. discriminate.
  - rewrite lookup_alter_ne by congruence. rewrite H. apply ride_kept_same.
Qed.

Lemma step_ride_kept (op : Op) (w : World) (ride : string) (rd : Ride) :
  rides (db w) !! ride = Some rd ->
  ride_kept rd (rides (db (step _haversine_km geo_distance_km settings psp op w)) !! ride).
Proof.
  intros H.
  assert (Same : ride_kept rd (rides (db w) !! ride)) by (rewrite H; apply ride_kept_same).
  assert (Written : forall k s rd0 (m := rides (db w)),
            m !! k = Some rd0 -> s <> "REQUESTED" ->
            ride_kept rd (<[k := set_ride_status s rd0]> m !! ride)).
  { intros k s rd0 m Hk Hs. destruct (decide (ride = k)) as [->|N].
    - rewrite lookup_insert_eq. unfold m in Hk. rewrite H in Hk. injection Hk as <-.
      apply ride_kept_status, Hs.
    - rewrite lookup_insert_ne by congruence. exact Same. }
  destruct op; cbn [step].
  - unfold create_driver. repeat (case_split; try discriminate); exact Same.
  - unfold update_driver_status. repeat (case_split; try discriminate); exact Same.
  - unfold update_location. repeat (case_split; try discriminate); exact Same.
  - exact Same.
  - unfold accept_ride.
    destruct (rides (db w) !! ride0) as [rd0|] eqn:R; [|exact Same].
    repeat (case_split; try discriminate); try exact Same.
    cbn. apply Written; [exact R | discriminate].
  - unfold create_ride.
    destruct (if truthy idempotency_key then _ else _) as [[cached|]|e]; try exact Same.
    destruct (rides (db w) !! uuid) eqn:R; [exact Same|].
    destruct (match idempotency_key with None => [] | Some _ => _ end); [|exact Same].
    assert (N : ride <> uuid) by congruence.
    destruct (truthy idempotency_key); cbn; rewrite lookup_insert_ne by congruence;
      exact Same.
  - unfold run_matching.
    destruct (geo_nearby_drivers _ _ _ _ _ _ _) as [|c cs].
    { cbn [snd db with_db]. apply cancel_ride_kept, H. }
    destruct (fst (matching_loop ride0 trip_uuid now (c :: cs) w)) eqn:F.
    + destruct (matching_loop_success _ _ _ _ _ F) as (driver & _ & A & _).
      destruct (_assign_driver_success _ _ _ _ _ _ A)
        as (drv & rd0 & _ & _ & R0 & S0 & _ & _ & ->).
      cbn [rides]. destruct (decide (ride = ride0)) as [->|N].
      * rewrite lookup_insert_eq. rewrite H in R0. injection R0 as <-.
        eexists. split; [reflexivity|]. split; [repeat split|].
        split; [discriminate | contradiction].
      * rewrite lookup_insert_ne by congruence. exact Same.
    + rewrite (matching_loop_failed _ _ _ _ _ F). apply cancel_ride_kept, H.
  - unfold end_trip.
    destruct (trips (db w) !! trip) as [t|]; [|exact Same].
    destruct (decide _); [|exact Same].
    destruct (rides (db w) !! trip_ride_id t) as [rd0|] eqn:R; [|exact Same].
    destruct (calculate_fare _ _ _) as [[base surge] total].
    destruct (payments (db w) !! payment_uuid); [exact Same|].
    cbn. apply Written; [exact R | discriminate].
  - unfold create_payment.
    destruct (if truthy idempotency_key then _ else _) as [[cached|]|e]; try exact Same.
    destruct (trips (db w) !! preq_trip_id payload) as [t|]; [|exact Same].
    destruct (decide _); [|exact Same].
    destruct (scalar_one_or_none _) as [|[pid payment]|]; try exact Same.
    destruct (decide _); [exact Same|].
    destruct (total_fare t); [|exact Same].
    destruct (Qlt_le_dec _ _); [exact Same|].
    destruct (charge psp _ _ _ _) as [result events].
    destruct (match idempotency_key with None => [] | Some _ => _ end); [|exact Same].
    cbn [db with_psp_log rides set_payments].
    destruct (rides (db w) !! trip_ride_id t) as [rd0|] eqn:R; [|exact Same].
    cbn. apply Written; [exact R|]. destruct (decide _); discriminate.
Qed.

(** X17.  Ride rows persist.  Whatever operations follow, a stored ride is
    never deleted, what the request fixed (rider, pickup and destination,
    tier, payment method, surge multiplier, token, creation time) never
    changes, a ride that has left REQUESTED never returns to it and keeps the
    driver it has, and a ride that is still REQUESTED is the row it was. *)
Theorem ride_rows_persist (ops : list Op) (w : World) (ride : string) (rd : Ride) :
  rides (db w) !! ride = Some rd ->
  exists rd',
    rides (db (foldl (fun w op => step _haversine_km geo_distance_km settings psp op w)
                 w ops)) !! ride = Some rd'
    /\ same_booking rd rd'
    /\ (ride_status rd' = "REQUESTED" -> rd' = rd)
    /\ (ride_status rd <> "REQUESTED" -> ride_driver_id rd' = ride_driver_id rd).
Proof.
  revert w rd. induction ops as [|op ops IH]; intros w rd H; cbn [foldl].
  - exists rd. split; [exact H|]. split; [apply same_booking_refl|]. auto.
  - destruct (step_ride_kept op w ride rd H) as (rd1 & H1 & B1 & S1 & D1).
    destruct (IH _ rd1 H1) as (rd' & H' & B' & S' & D').
    exists rd'. split; [exact H'|]. split; [eapply same_booking_trans; eauto|].
    split.
    + intros E. specialize (S' E). subst rd'. auto.
    + intros N. rewrite D'; [auto|]. intros E. apply N. rewrite <- (S1 E). exact E.
Qed.

End Persistence.

Section Settled.

Variable _haversine_km : Q -> Q -> Q -> Q -> Q.
Variable geo_distance_km : Q * Q -> Q * Q -> Q.
Variable settings : Settings.
Variable psp : Provider.

Lemma trip_kept_same (t : Trip) : trip_kept t (Some t).
Proof. exists t. repeat split. Qed.

Lemma payment_kept_same (p : Payment) : payment_kept p (Some p).
Proof. exists p. repeat split. Qed.

Lemma step_trip_kept (op : Op) (w : World) (trip : string) (t : Trip) :
  trips (db w) !! trip = Some t ->
  trip_kept t (trips (db (step _haversine_km geo_distance_km settings psp op w)) !! trip).
Proof.
  intros H.
  assert (Same : trip_kept t (trips (db w) !! trip)) by (rewrite H; apply trip_kept_same).
  destruct op; cbn [step].
  - unfold create_driver. repeat (case_split; try discriminate); exact Same.
  - unfold update_driver_status. repeat (case_split; try discriminate); exact Same.
  - unfold update_location. repeat (case_split; try discriminate); exact Same.
  - exact Same.
  - unfold accept_ride. repeat (case_split; try discriminate); exact Same.
  - unfold create_ride. repeat (case_split; try discriminate); exact Same.
  - unfold run_matching.
    destruct (geo_nearby_drivers _ _ _ _ _ _ _) as [|c cs]; [exact Same|].
    destruct (fst (matching_loop ride trip_uuid now (c :: cs) w)) eqn:F.
    + destruct (matching_loop_success _ _ _ _ _ F) as (driver & _ & A & _).
      destruct (_assign_driver_success _ _ _ _ _ _ A)
        as (drv & rd0 & _ & _ & _ & _ & Fresh & _ & ->).
      cbn [trips]. rewrite lookup_insert_ne by congruence. exact Same.
    + rewrite (matching_loop_failed _ _ _ _ _ F). exact Same.
  - unfold end_trip.
    destruct (trips (db w) !! trip0) as [t0|] eqn:T; [|exact Same].
    destruct (decide _) as [Hs|_]; [|exact Same].
    destruct (rides (db w) !! trip_ride_id t0) as [rd0|]; [|exact Same].
    destruct (calculate_fare _ _ _) as [[base surge] total].
    destruct (payments (db w) !! payment_uuid); [exact Same|].
    cbn. destruct (decide (trip = trip0)) as [->|N].
    + rewrite lookup_insert_eq. rewrite H in T. injection T as <-.
      eexists. split; [reflexivity|]. repeat split.
      intros E. exfalso. destruct Hs as [A|A]; rewrite A in E; discriminate.
    + rewrite lookup_insert_ne by congruence. exact Same.
  - unfold create_payment. repeat (case_split; try discriminate); exact Same.
Qed.

Lemma step_payment_kept (op : Op) (w : World) (pid : string) (p : Payment) :
  payments (db w) !! pid = Some p ->
  payment_kept p
    (payments (db (step _haversine_km geo_distance_km settings psp op w)) !! pid).
Proof.
  intros H.
  assert (Same : payment_kept p (payments (db w) !! pid))
    by (rewrite H; apply payment_kept_same).
  destruct op; cbn [step].
  - unfold create_driver. repeat (case_split; try discriminate); exact Same.
  - unfold update_driver_status. repeat (case_split; try discriminate); exact Same.
  - unfold update_location. repeat (case_split; try discriminate); exact Same.
  - exact Same.
  - unfold accept_ride. repeat (case_split; try discriminate); exact Same.
  - unfold create_ride. repeat (case_split; try discriminate); exact Same.
  - unfold run_matching.
    destruct (geo_nearby_drivers _ _ _ _ _ _ _) as [|c cs]; [exact Same|].
    destruct (fst (matching_loop ride trip_uuid now (c :: cs) w)) eqn:F.
    + destruct (matching_loop_success _ _ _ _ _ F) as (driver & _ & A & _).
      destruct (_assign_driver_success _ _ _ _ _ _ A)
        as (drv & rd0 & _ & _ & _ & _ & _ & _ & ->).
      exact Same.
    + rewrite (matching_loop_failed _ _ _ _ _ F). exact Same.
  - unfold end_trip.
    destruct (trips (db w) !! trip) as [t0|]; [|exact Same].
    destruct (decide _); [|exact Same].
    destruct (rides (db w) !! trip_ride_id t0) as [rd0|]; [|exact Same].
    destruct (calculate_fare _ _ _) as [[base surge] total].
    destruct (payments (db w) !! payment_uuid) eqn:P; [exact Same|].
    cbn. rewrite lookup_insert_ne by congruence. exact Same.
  - unfold create_payment.
    destruct (if truthy idempotency_key then _ else _) as [[cached|]|e]; try exact Same.
    destruct (trips (db w) !! preq_trip_id payload) as [t|]; [|exact Same].
    destruct (decide _); [|exact Same].
    destruct (select_where _ (payments (db w))) as [|[pid0 payment] [|? ?]] eqn:Sel;
      cbn [scalar_one_or_none]; try exact Same.
    destruct (decide _) as [_|Hn]; [exact Same|].
    destruct (total_fare t); [|exact Same].
    destruct (Qlt_le_dec _ _); [exact Same|].
    destruct (charge psp _ _ _ _) as [result events].
    destruct (match idempotency_key with None => [] | Some _ => _ end); [|exact Same].
    assert (Hin : (pid0, payment) ∈ select_where
                    (fun p => bool_decide (payment_trip_id p = preq_trip_id payload))
                    (payments (db w))) by (rewrite Sel; left).
    apply select_where_elem in Hin as [Hp _].
    assert (G : payment_kept p
                  (<[pid0 := {| payment_trip_id := payment_trip_id payment;
                                payment_rider_id := payment_rider_id payment;
                                amount := amount payment;
                                currency := currency payment;
                                payment_status := charge_status result;
                                psp_ref := charge_psp_ref result;
                                payment_idempotency_key := idempotency_key |}]>
                     (payments (db w)) !! pid)).
    { destruct (decide (pid = pid0)) as [->|N].
      - rewrite lookup_insert_eq. rewrite H in Hp. injection Hp as <-.
        eexists. split; [reflexivity|]. repeat split. intros E. contradiction.
      - rewrite lookup_insert_ne by congruence. exact Same. }
    cbn [db with_psp_log rides set_payments].
    destruct (rides (db w) !! trip_ride_id t); exact G.
Qed.

(** X18.  Settled records are final.  Whatever operations follow, a trip
    row is never deleted and keeps its ride, driver, rider and start time,
    and once COMPLETED it never changes again (distance and fares included);
    a payment row is never deleted and keeps its trip, rider, amount and
    currency, and once SUCCESS it never changes again. *)
Theorem settled_records_are_final (ops : list Op) (w : World) :
  let w' := foldl (fun w op => step _haversine_km geo_distance_km settings psp op w) w ops in
  (forall trip t, trips (db w) !! trip = Some t ->
     exists t',
       trips (db w') !! trip = Some t'
       /\ trip_ride_id t' = trip_ride_id t
       /\ trip_driver_id t' = trip_driver_id t
       /\ trip_rider_id t' = trip_rider_id t
       /\ started_at t' = started_at t
       /\ (trip_status t = "COMPLETED" -> t' = t))
  /\ (forall pid p, payments (db w) !! pid = Some p ->
        exists p',
          payments (db w') !! pid = Some p'
          /\ payment_trip_id p' = payment_trip_id p
          /\ payment_rider_id p' = payment_rider_id p
          /\ amount p' = amount p
          /\ currency p' = currency p
          /\ (payment_status p = "SUCCESS" -> p' = p)).
Proof.
  cbv zeta. revert w. induction ops as [|op ops IH]; intros w; cbn [foldl].
  - split; intros k v H; exists v; repeat split; exact H.
  - destruct (IH (step _haversine_km geo_distance_km settings psp op w)) as [IHt IHp].
    split.
    + intros trip t H.
      destruct (step_trip_kept op w trip t H) as (t1 & H1 & A1 & B1 & C1 & D1 & E1).
      destruct (IHt trip t1 H1) as (t' & H' & A' & B' & C' & D' & E').
      exists t'. repeat split; try congruence.
      intros S. rewrite <- (E1 S). apply E'. rewrite (E1 S). exact S.
    + intros pid p H.
      destruct (step_payment_kept op w pid p H) as (p1 & H1 & A1 & B1 & C1 & D1 & E1).
      destruct (IHp pid p1 H1) as (p' & H' & A' & B' & C' & D' & E').
      exists p'. repeat split; try congruence.
      intros S. rewrite <- (E1 S). apply E'. rewrite (E1 S). exact S.
Qed.

End Settled.

Lemma ride_rows_persist_witness :
  exists rd rd',
    rides (db demo_w4) !! "ride-1" = Some rd
    /\ rides (db (foldl (fun w op => step flat_haversine_km flat_geo_distance_km
                                       default_settings (_call_psp stub_hex) op w)
                    demo_w4 (drop 4 demo_ops))) !! "ride-1" = Some rd'
    /\ same_booking rd rd'.
Proof.
  destruct (rides (db demo_w4) !! "ride-1") as [rd|] eqn:R; [|vm_compute in R; discriminate].
  destruct (ride_rows_persist flat_haversine_km flat_geo_distance_km default_settings
              (_call_psp stub_hex) (drop 4 demo_ops) demo_w4 "ride-1" rd R)
    as (rd' & H & B & _).
  exists rd, rd'. auto.
Defined.

(** The demo's trip ended a second time and paid for a second time. *)
Lemma settled_records_are_final_witness :
  exists p,
    payments (db demo_paid) !! "pay-1" = Some p
    /\ payments
         (db (foldl (fun w op => step flat_haversine_km flat_geo_distance_km
                                   default_settings (_call_psp stub_hex) op w)
                demo_paid
                [EndTrip "trip-1" {| final_lat := 14; final_lng := 78 |} "pay-2" 30;
                 CreatePayment (demo_payment_request 30) (Some "pay-key-2")]))
         !! "pay-1" = Some p.
Proof.
  destruct (payments (db demo_paid) !! "pay-1") as [p|] eqn:P;
    [|vm_compute in P; discriminate].
  assert (S : payment_status p = "SUCCESS").
  { vm_compute in P. injection P as <-. reflexivity. }
  destruct (settled_records_are_final flat_haversine_km flat_geo_distance_km default_settings
              (_call_psp stub_hex)
              [EndTrip "trip-1" {| final_lat := 14; final_lng := 78 |} "pay-2" 30;
               CreatePayment (demo_payment_request 30) (Some "pay-key-2")] demo_paid)
    as (_ & H).
  destruct (H "pay-1" p P) as (p' & H' & _ & _ & _ & _ & E).
  exists p. split; [reflexivity|]. rewrite H', (E S). reflexivity.
Defined.

(** ** Paying twice *)

Section PaidOnce.

Variable _haversine_km : Q -> Q -> Q -> Q -> Q.
Variable geo_distance_km : Q * Q -> Q * Q -> Q.
Variable settings : Settings.
Variable psp : Provider.

Lemma create_payment_paid (payload : PaymentRequest) (key : option string) (w : World)
    (pid : string) (p : Payment) :
  consistent w ->
  payments (db w) !! pid = Some p ->
  payment_trip_id p = preq_trip_id payload ->
  payment_status p = "SUCCESS" ->
  snd (create_payment psp payload key w) = w
  /\ exists resp,
       fst (create_payment psp payload key w) = Ok resp
       /\ (resp = {| resp_status_code := 200; resp_body := payment_body pid p;
                     resp_headers := [] |}
           \/ (truthy key = true /\ check_idempotency key (redis w) = Ok (Some resp))).
Proof.
  intros [Hd Hc] Hp Et Es. unfold create_payment.
  destruct (truthy key) eqn:K.
  - destruct (check_idempotency_wellformed key (redis w) Hc) as [[cached|] E]; rewrite E.
    + split; [reflexivity|]. exists cached. split; [reflexivity|]. right. auto.
    + destruct (payment_trips _ Hd pid p Hp) as (t & Ht & C & _).
      rewrite Et in Ht. rewrite Ht.
      destruct (decide _) as [_|N]; [|contradiction].
      rewrite (select_where_unique _ _ pid p Hp).
      * cbn [scalar_one_or_none]. destruct (decide _) as [_|N]; [|contradiction].
        split; [reflexivity|]. eexists. split; [reflexivity|]. left. reflexivity.
      * apply bool_decide_eq_true, Et.
      * intros k' v' Hk' Hf'. apply bool_decide_eq_true in Hf'.
        eapply (payment_per_trip _ Hd); eauto. congruence.
  - destruct (payment_trips _ Hd pid p Hp) as (t & Ht & C & _).
    rewrite Et in Ht. rewrite Ht.
    destruct (decide _) as [_|N]; [|contradiction].
    rewrite (select_where_unique _ _ pid p Hp).
    + cbn [scalar_one_or_none]. destruct (decide _) as [_|N]; [|contradiction].
      split; [reflexivity|]. eexists. split; [reflexivity|]. left. reflexivity.
    + apply bool_decide_eq_true, Et.
    + intros k' v' Hk' Hf'. apply bool_decide_eq_true in Hf'.
      eapply (payment_per_trip _ Hd); eauto. congruence.
Qed.

(** X19.  A paid trip is not charged again.  In every state the operations
    can produce from the empty deployment, once the payment row of a trip is
    SUCCESS, a payment request for that trip, with any token and any amount
    (a wrong one included), changes nothing and calls no provider; it is
    answered 200 from the row, or from the idempotency store when the token
    has a stored response. *)
Theorem paid_trip_is_not_charged_again (ops : list Op) (payload : PaymentRequest)
    (key : option string) (pid : string) (p : Payment) :
  let w := foldl (fun w op => step _haversine_km geo_distance_km settings psp op w)
             world_empty ops in
  payments (db w) !! pid = Some p ->
  payment_trip_id p = preq_trip_id payload ->
  payment_status p = "SUCCESS" ->
  snd (create_payment psp payload key w) = w
  /\ exists resp,
       fst (create_payment psp payload key w) = Ok resp
       /\ (resp = {| resp_status_code := 200; resp_body := payment_body pid p;
                     resp_headers := [] |}
           \/ (truthy key = true /\ check_idempotency key (redis w) = Ok (Some resp))).
Proof.
  cbv zeta. apply create_payment_paid, reachable_consistent.
Qed.

End PaidOnce.

(** The demo's trip, paid, with a request for 999.00 under a new token. *)
Lemma paid_trip_is_not_charged_again_witness :
  snd (create_payment (_call_psp stub_hex) (demo_payment_request 999) (Some "pay-key-2")
         demo_paid) = demo_paid.
Proof.
  destruct (payments (db demo_paid) !! "pay-1") as [p|] eqn:P;
    [|vm_compute in P; discriminate].
  assert (S : payment_status p = "SUCCESS" /\ payment_trip_id p = "trip-1").
  { vm_compute in P. injection P as <-. split; reflexivity. }
  destruct S as [S T].
  destruct (paid_trip_is_not_charged_again flat_haversine_km flat_geo_distance_km
              default_settings (_call_psp stub_hex) demo_ops (demo_payment_request 999)
              (Some "pay-key-2") "pay-1" p P T S) as [H _].
  exact H.
Defined.

(** ** Location pings *)

Lemma zcard_geo_add_driver (r : Redis) (tier driver : string) (lat lng : Q) (t : string) :
  zcard (geo_add_driver r tier driver lat lng) (geo_key t)
  = if decide (t = tier)
    then match (r_geo r !! geo_key tier) ≫= (fun z => z !! driver) with
         | Some _ => zcard r (geo_key tier)
         | None => zcard r (geo_key tier) + 1
         end
    else zcard r (geo_key t).
Proof.
  unfold zcard, geo_add_driver. cbn [r_geo set_r_geo set_r_loc].
  destruct (decide (t = tier)) as [->|N].
  - rewrite lookup_insert_eq.
    destruct (r_geo r !! geo_key tier) as [z|]; cbn.
    + destruct (z !! driver) eqn:Z.
      * rewrite map_size_insert_Some by eauto. reflexivity.
      * rewrite map_size_insert_None by exact Z. lia.
    + rewrite map_size_insert_None by apply lookup_empty. rewrite map_size_empty. reflexivity.
  - rewrite lookup_insert_ne; [reflexivity|]. intros E. apply geo_key_inj in E. congruence.
Qed.



(** ** Nearest first *)

Lemma insert_by_distance_perm (x : string * Q) (l : list (string * Q)) :
  insert_by_distance x l ≡ₚ x :: l.
Proof.
  induction l as [|y l IH]; cbn; [reflexivity|].
  destruct (Qle_bool (snd x) (snd y)); [reflexivity|].
  rewrite IH. apply Permutation_swap.
Qed.

Lemma sort_by_distance_perm (l : list (string * Q)) : sort_by_distance l ≡ₚ l.
Proof.
  induction l as [|x l IH]; cbn; [reflexivity|].
  unfold sort_by_distance in *. cbn. rewrite insert_by_distance_perm, IH. reflexivity.
Qed.

Lemma insert_by_distance_sorted (x : string * Q) (l : list (string * Q)) :
  StronglySorted (fun a b => (snd a <= snd b)%Q) l ->
  StronglySorted (fun a b => (snd a <= snd b)%Q) (insert_by_distance x l).
Proof.
  induction l as [|y l IH]; intros H; cbn.
  - constructor; constructor.
  - apply StronglySorted_inv in H as [Hl Hy].
    destruct (Qle_bool (snd x) (snd y)) eqn:E.
    + apply Qle_bool_iff in E. constructor; [constructor; assumption|].
      constructor; [exact E|].
      eapply Forall_impl; [exact Hy|]. intros z Hz. cbn in Hz. lra.
    + assert (L : (snd y <= snd x)%Q).
      { destruct (Qlt_le_dec (snd y) (snd x)) as [L|L]; [lra|].
        apply Qle_bool_iff in L. congruence. }
      constructor; [apply IH, Hl|].
      rewrite insert_by_distance_perm. constructor; assumption.
Qed.

Lemma sort_by_distance_sorted (l : list (string * Q)) :
  StronglySorted (fun a b => (snd a <= snd b)%Q) (sort_by_distance l).
Proof.
  induction l as [|x l IH]; [constructor|].
  unfold sort_by_distance in *. cbn. apply insert_by_distance_sorted, IH.
Qed.

Lemma sorted_before (l1 l2 : list (string * Q)) (x c : string * Q) :
  StronglySorted (fun a b => (snd a <= snd b)%Q) (l1 ++ x :: l2) ->
  c ∈ l1 ++ x :: l2 -> (snd c < snd x)%Q -> c ∈ l1.
Proof.
  induction l1 as [|y l1 IH]; cbn; intros H Hin Hlt.
  - apply StronglySorted_inv in H as [_ Hx].
    apply elem_of_cons in Hin as [->|Hin]; [lra|].
    rewrite Forall_forall in Hx. specialize (Hx c Hin). cbn in Hx. lra.
  - apply StronglySorted_inv in H as [Hl _].
    apply elem_of_cons in Hin as [->|Hin]; [left|]. right. auto.
Qed.

Section NearestFirst.

Variable geo_distance_km : Q * Q -> Q * Q -> Q.
Variable settings : Settings.
Variables (ride trip_uuid : string) (now : Z).

(** The candidates the loop passes over before a successful assignment
    were locked, unknown or not available. *)
Lemma matching_loop_first (candidates : list string) (w : World) :
  fst (matching_loop ride trip_uuid now candidates w) = true ->
  exists pre d post,
    candidates = pre ++ d :: post
    /\ _assign_driver ride d trip_uuid now (db w)
       = (Ok true, db (snd (matching_loop ride trip_uuid now candidates w)))
    /\ forall c, c ∈ pre ->
         r_str (redis w) !! lock_key c <> None
         \/ forall drv, drivers (db w) !! c = Some drv -> driver_status drv <> "available".
Proof.
  revert w. induction candidates as [|c rest IH]; intros w; cbn [matching_loop].
  - discriminate.
  - destruct (r_str (redis w) !! lock_key c) as [holder|] eqn:L.
    { intros F. destruct (IH w F) as (pre & d & post & -> & A & U).
      exists (c :: pre), d, post. split; [reflexivity|]. split; [exact A|].
      intros c' Hc. apply elem_of_cons in Hc as [->|Hc]; [|auto].
      left. rewrite L. discriminate. }
    cbn [db redis with_redis].
    assert (Released : forall key v,
              fst (matching_loop ride trip_uuid now rest
                     (with_redis (cache_delete (set_r_str (<[key := v]>) (redis w)) key) w))
              = true ->
              (forall drv, drivers (db w) !! c = Some drv ->
                 driver_status drv <> "available") ->
              exists pre d post,
                c :: rest = pre ++ d :: post
                /\ _assign_driver ride d trip_uuid now (db w)
                   = (Ok true,
                      db (snd (matching_loop ride trip_uuid now rest
                                 (with_redis
                                    (cache_delete (set_r_str (<[key := v]>) (redis w)) key)
                                    w))))
                /\ forall c', c' ∈ pre ->
                     r_str (redis w) !! lock_key c' <> None
                     \/ forall drv, drivers (db w) !! c' = Some drv ->
                          driver_status drv <> "available").
    { intros key v F Hc. destruct (IH _ F) as (pre & d & post & -> & A & U).
      exists (c :: pre), d, post. split; [reflexivity|]. split; [exact A|].
      intros c' Hin. apply elem_of_cons in Hin as [->|Hin]; [right; exact Hc|].
      destruct (U c' Hin) as [H|H]; [left | right; exact H].
      cbn in H. intros E. apply H.
      destruct (decide (key = lock_key c')) as [->|N].
      - apply lookup_delete_eq.
      - rewrite lookup_delete_ne, lookup_insert_ne by congruence. exact E. }
    destruct (drivers (db w) !! c) as [drv|] eqn:D;
      [|intros F; apply (Released _ _ F); discriminate].
    destruct (decide (driver_status drv = "available")) as [Hav|Hav];
      [|intros F; apply (Released _ _ F); intros ? [= <-]; exact Hav].
    destruct (_assign_driver ride c trip_uuid now (db w)) as [[[|]|exc] d'] eqn:A.
    + intros _. exists [], c, rest. cbn. split; [reflexivity|]. split; [exact A|].
      intros c' Hin. inversion Hin.
    + intros F. exfalso.
      destruct (matching_loop_success _ _ _ _ _ F) as (d & _ & A' & _).
      destruct (_assign_driver_success _ _ _ _ _ _ A')
        as (drv' & rd & _ & _ & R & S & T & N & _).
      destruct (_assign_driver_succeeds ride trip_uuid now c (db w) drv rd D Hav R S T N)
        as [d'' A'']. cbn [db with_redis] in *. congruence.
    + intros F. exfalso.
      destruct (matching_loop_success _ _ _ _ _ F) as (d & _ & A' & _).
      destruct (_assign_driver_success _ _ _ _ _ _ A')
        as (drv' & rd & _ & _ & R & S & T & N & _).
      destruct (_assign_driver_succeeds ride trip_uuid now c (db w) drv rd D Hav R S T N)
        as [d'' A'']. cbn [db with_redis] in *. congruence.
Qed.

(** X21.  The matcher assigns the nearest usable driver.  When
    [run_matching] succeeds, the driver it assigned is a member of the tier's
    Geo Index partition within the search radius of the pickup point, and
    every member of the partition that is strictly nearer was passed over for
    a reason: its lock was held, or its row was missing or did not say
    "available". *)
Theorem run_matching_nearest_first (lat lng : Q) (tier : string) (w : World) :
  let out := run_matching geo_distance_km settings ride lat lng tier trip_uuid now w in
  let partition := default ∅ (r_geo (redis w) !! geo_key tier) in
  fst out = true ->
  exists d pos,
    ride_driver_id <$> rides (db (snd out)) !! ride = Some (Some d)
    /\ partition !! d = Some pos
    /\ (geo_distance_km (lng, lat) pos <= matching_radius_km settings)%Q
    /\ forall c pos',
         partition !! c = Some pos' ->
         (geo_distance_km (lng, lat) pos' < geo_distance_km (lng, lat) pos)%Q ->
         r_str (redis w) !! lock_key c <> None
         \/ forall drv, drivers (db w) !! c = Some drv -> driver_status drv <> "available".
Proof.
  cbv zeta. unfold run_matching, geo_nearby_drivers.
  set (partition := default ∅ (r_geo (redis w) !! geo_key tier)).
  set (measured := (fun m => (fst m, geo_distance_km (lng, lat) (snd m)))
                     <$> map_to_list partition).
  set (within := filter (fun m => Qle_bool (snd m) (matching_radius_km settings) = true)
                   measured).
  set (n := Z.to_nat (matching_max_retries settings * 5)).
  destruct (take n (fst <$> sort_by_distance within)) as [|c0 cs] eqn:G; [discriminate|].
  intros F. destruct (matching_loop_first _ _ F) as (pre & d & post & E & A & U).
  destruct (_assign_driver_success _ _ _ _ _ _ A) as (drv & rd & _ & _ & _ & _ & _ & _ & Ed).
  rewrite <- G in E.
  assert (Split : fst <$> sort_by_distance within
                  = pre ++ d :: (post ++ drop n (fst <$> sort_by_distance within))).
  { rewrite <- (take_drop n (fst <$> sort_by_distance within)) at 1.
    rewrite E, <- app_assoc. reflexivity. }
  apply fmap_app_inv in Split as (S1 & S2' & -> & HS2 & ES).
  symmetry in HS2. apply fmap_cons_inv in HS2 as (x & S2 & Hx & _ & ->).
  assert (Hin : x ∈ within).
  { rewrite <- (sort_by_distance_perm within), ES. apply elem_of_app. right. left. }
  unfold within in Hin. apply list_elem_of_filter in Hin as [Hr Hin].
  unfold measured in Hin. apply list_elem_of_fmap in Hin as ([d0 pos] & -> & Hin).
  apply elem_of_map_to_list in Hin. cbn [fst snd] in *. subst d0.
  exists d, pos. split; [rewrite Ed; cbn; rewrite lookup_insert_eq; reflexivity|].
  split; [exact Hin|]. split; [apply Qle_bool_iff, Hr|].
  intros c pos' Hc Hlt. apply U.
  assert (Hcin : (c, geo_distance_km (lng, lat) pos') ∈ sort_by_distance within).
  { rewrite sort_by_distance_perm. unfold within. apply list_elem_of_filter. split.
    - cbn. apply Qle_bool_iff. apply Qle_bool_iff in Hr. lra.
    - unfold measured. apply list_elem_of_fmap. exists (c, pos'). split; [reflexivity|].
      apply elem_of_map_to_list, Hc. }
  pose proof (sort_by_distance_sorted within) as Sorted.
  rewrite ES in Hcin, Sorted.
  apply (sorted_before _ _ _ _ Sorted) in Hcin; [|exact Hlt].
  apply list_elem_of_fmap. exists (c, geo_distance_km (lng, lat) pos'). auto.
Qed.

End NearestFirst.

Lemma run_matching_nearest_first_witness :
  exists d pos,
    ride_driver_id <$> rides (db demo_w5) !! "ride-1" = Some (Some d)
    /\ default ∅ (r_geo (redis demo_w4) !! geo_key "standard") !! d = Some pos
    /\ (flat_geo_distance_km (77, 13)%Q pos <= 5)%Q.
Proof.
  destruct (run_matching_nearest_first flat_geo_distance_km default_settings
              "ride-1" "trip-1" 11 13 77 "standard" demo_w4)
    as (d & pos & H1 & H2 & H3 & _); [vm_compute; reflexivity|].
  exists d, pos. auto.
Defined.

(** ** The unit tests' transition table *)

Lemma is_valid_transition_edges (a b : string) :
  is_valid_transition a b = true
  <-> (a, b) ∈ [("REQUESTED", "MATCHED"); ("REQUESTED", "CANCELLED");
                ("MATCHED", "DRIVER_EN_ROUTE"); ("MATCHED", "CANCELLED");
                ("DRIVER_EN_ROUTE", "TRIP_STARTED"); ("DRIVER_EN_ROUTE", "CANCELLED");
                ("TRIP_STARTED", "TRIP_PAUSED"); ("TRIP_STARTED", "TRIP_ENDED");
                ("TRIP_PAUSED", "TRIP_STARTED"); ("TRIP_ENDED", "PAYMENT_PENDING");
                ("PAYMENT_PENDING", "COMPLETED"); ("PAYMENT_PENDING", "PAYMENT_FAILED");
                ("PAYMENT_FAILED", "PAYMENT_PENDING")].
Proof. unfold is_valid_transition. apply bool_decide_eq_true. Qed.

Ltac decided := apply (bool_decide_unpack _); vm_compute; exact I.

Ltac row_back H :=
  first [apply elem_of_nil in H; contradiction
        |apply elem_of_cons in H as [H|H];
         [first [discriminate H | injection H as ->; decided] | row_back H]].

Ltac table_row a k :=
  destruct (decide (a = k)) as [->|?];
  [rewrite ?lookup_insert_ne by discriminate; rewrite lookup_insert_eq;
   cbn [default from_option id];
   split; intros H;
   [rewrite ?elem_of_union, ?elem_of_singleton, ?elem_of_empty in H;
    repeat match goal with H : _ \/ _ |- _ => destruct H as [H|H] end;
    try contradiction; subst; decided
   |row_back H]
  |].

Lemma test_is_valid_transition_edges (a b : string) :
  test_state_machine.is_valid_transition a b = true
  <-> (a, b) ∈ [("REQUESTED", "MATCHED"); ("REQUESTED", "CANCELLED");
                ("MATCHED", "DRIVER_EN_ROUTE"); ("MATCHED", "CANCELLED");
                ("MATCHED", "REQUESTED");
                ("DRIVER_EN_ROUTE", "TRIP_STARTED"); ("DRIVER_EN_ROUTE", "CANCELLED");
                ("TRIP_STARTED", "TRIP_PAUSED"); ("TRIP_STARTED", "TRIP_ENDED");
                ("TRIP_PAUSED", "TRIP_STARTED"); ("TRIP_ENDED", "PAYMENT_PENDING");
                ("PAYMENT_PENDING", "COMPLETED"); ("PAYMENT_PENDING", "PAYMENT_FAILED");
                ("PAYMENT_FAILED", "PAYMENT_PENDING")].
Proof.
  unfold test_state_machine.is_valid_transition, test_state_machine.VALID_TRANSITIONS.
  rewrite bool_decide_eq_true.
  table_row a "REQUESTED". table_row a "MATCHED". table_row a "DRIVER_EN_ROUTE".
  table_row a "TRIP_STARTED". table_row a "TRIP_PAUSED". table_row a "TRIP_ENDED".
  table_row a "PAYMENT_PENDING". table_row a "COMPLETED". table_row a "CANCELLED".
  table_row a "PAYMENT_FAILED".
  rewrite !lookup_insert_ne by congruence. rewrite lookup_empty. cbn [default from_option id].
  rewrite elem_of_empty. split; [contradiction|]. intros H.
  repeat (apply elem_of_cons in H as [H|H]; [injection H as -> _; congruence|]).
  apply elem_of_nil in H. exact H.
Qed.

(** The assertions of tests/unit/test_state_machine.py. *)
Example test_state_machine_cases :
  let valid := test_state_machine.is_valid_transition in
  valid "REQUESTED" "MATCHED" = true
  /\ valid "REQUESTED" "CANCELLED" = true
  /\ valid "MATCHED" "DRIVER_EN_ROUTE" = true
  /\ valid "DRIVER_EN_ROUTE" "TRIP_STARTED" = true
  /\ valid "TRIP_STARTED" "TRIP_ENDED" = true
  /\ valid "TRIP_ENDED" "PAYMENT_PENDING" = true
  /\ valid "PAYMENT_PENDING" "COMPLETED" = true
  /\ valid "PAYMENT_FAILED" "PAYMENT_PENDING" = true
  /\ valid "COMPLETED" "REQUESTED" = false
  /\ valid "COMPLETED" "MATCHED" = false
  /\ valid "CANCELLED" "REQUESTED" = false
  /\ valid "TRIP_STARTED" "REQUESTED" = false
  /\ valid "MATCHED" "TRIP_STARTED" = false.
Proof. vm_compute. repeat split. Qed.

(** X22.  The table the unit tests check transitions against is the
    transition graph of section 4.6 with one more edge, MATCHED to
    REQUESTED: a transition is valid for the tests exactly when it is an edge
    of the graph or that one.  COMPLETED and CANCELLED have no successor in
    it, and a status that is not a key of the table has none either (the
    lookup falls back to the empty set instead of raising). *)
Theorem test_table_against_graph :
  (forall a b,
     test_state_machine.is_valid_transition a b = true
     <-> is_valid_transition a b = true \/ (a = "MATCHED" /\ b = "REQUESTED"))
  /\ (forall b,
        test_state_machine.is_valid_transition "COMPLETED" b = false
        /\ test_state_machine.is_valid_transition "CANCELLED" b = false)
  /\ (forall a b,
        test_state_machine.VALID_TRANSITIONS !! a = None ->
        test_state_machine.is_valid_transition a b = false).
Proof.
  split; [|split].
  - intros a b. rewrite test_is_valid_transition_edges, is_valid_transition_edges.
    split.
    + intros H. apply elem_of_cons in H as [H|H]; [left; rewrite H; left|].
      apply elem_of_cons in H as [H|H]; [left; rewrite H; right; left|].
      apply elem_of_cons in H as [H|H]; [left; rewrite H; do 2 right; left|].
      apply elem_of_cons in H as [H|H]; [left; rewrite H; do 3 right; left|].
      apply elem_of_cons in H as [H|H]; [right; injection H as -> ->; auto|].
      left. do 4 right. exact H.
    + intros [H|[-> ->]]; [|do 4 right; left].
      apply elem_of_cons in H as [H|H]; [rewrite H; left|].
      apply elem_of_cons in H as [H|H]; [rewrite H; right; left|].
      apply elem_of_cons in H as [H|H]; [rewrite H; do 2 right; left|].
      apply elem_of_cons in H as [H|H]; [rewrite H; do 3 right; left|].
      do 5 right. exact H.
  - intros b. unfold test_state_machine.is_valid_transition. split; reflexivity.
  - intros a b H. unfold test_state_machine.is_valid_transition. rewrite H. reflexivity.
Qed.

Lemma test_table_against_graph_witness :
  test_state_machine.is_valid_transition "MATCHED" "REQUESTED" = true
  /\ is_valid_transition "MATCHED" "REQUESTED" = false.
Proof.
  destruct test_table_against_graph as (H & _).
  split; [apply H; right; split; reflexivity | vm_compute; reflexivity].
Defined.

(** ** A token that is already on another payment *)

Section TokenReuse.

Variable psp : Provider.
Variables (payload : PaymentRequest) (idempotency_key : option string) (w : World).
Variables (trip : Trip) (pid : string) (payment : Payment) (server_amount : Q).
Variables (other : string) (taken : Payment).


End TokenReuse.

